(** * podStation PWA: the offline storage handler and the podcasts controller

    A shallow embedding of [src/lib/OfflineStorageHandler.ts] and of the
    podcasts controller that drives it, followed by the properties the
    specification states about them.

    Layout of the file:
    - [Js]: the few JavaScript notions the code relies on (dates, promises,
      [Array.prototype.findIndex], [Array.prototype.sort]);
    - [Podcast], [Episode], ...: the record types of the storage module;
    - [Dexie]: the object stores and indexes the handler is written against;
    - [Storage]: [OfflineStorageHandler] (interface) and
      [OfflineStorageHandlerImplementation];
    - [Controller]: [PodcastsControllerImplementation];
    - the theorems. *)

From Stdlib Require Import ZArith List String Bool Lia Permutation Sorted.
Import ListNotations.
Open Scope Z_scope.

Set Implicit Arguments.

(* ================================================================== *)
(** * JavaScript notions *)

Module Js.

(** A [Date] is a number of milliseconds since the epoch; [None] is the
    Invalid Date (what [new Date(s)] yields on an unparsable [s]). *)
Definition Date := option Z.

(** [a < b] as the relational operator evaluates it on two properties that
    hold a [Date] or are undefined: undefined and the Invalid Date convert
    to NaN, and every comparison with NaN is false. *)
Definition lt (a b : option Date) : bool :=
  match a, b with
  | Some (Some x), Some (Some y) => x <? y
  | _, _ => false
  end.

(** What a rejected promise carries. *)
Inductive Error : Type :=
| ConstraintError              (* a key or a unique index is already taken *)
| ModifyError                  (* a modification could not be stored *)
| BulkError                    (* a bulk write could not be stored *)
| RequestError (message : string). (* the directory service failed *)

(** A settled promise. *)
Inductive outcome (A : Type) : Type :=
| Fulfilled (a : A)
| Rejected (e : Error).
Arguments Rejected {A} e.

Definition isRejected {A} (o : outcome A) : bool :=
  match o with Fulfilled _ => false | Rejected _ => true end.

(** The truth value of a property that holds a string or is undefined, as
    the conditional operator takes it: undefined and the empty string are
    falsy, every other string is truthy. *)
Definition truthy (s : option string) : bool :=
  match s with
  | None => false
  | Some EmptyString => false
  | Some (String _ _) => true
  end.

Section Array.
Context {A : Type}.

(** [Array.prototype.findIndex]: the index of the first element that
    satisfies [p], and -1 when there is none. *)
Fixpoint findIndex (p : A -> bool) (l : list A) : Z :=
  match l with
  | [] => -1
  | x :: l' =>
      if p x then 0
      else let i := findIndex p l' in if i <? 0 then -1 else i + 1
  end.

(** [l[i]] for a non-negative integer [i]; [None] is undefined. *)
Definition get (l : list A) (i : Z) : option A :=
  if i <? 0 then None else nth_error l (Z.to_nat i).

(** [l[i] = x] for an index inside the array (an assignment past the end
    would extend the array: the code only assigns at an index that
    [findIndex] returned). *)
Fixpoint set_nat (l : list A) (n : nat) (x : A) : list A :=
  match l, n with
  | [], _ => []
  | _ :: l', O => x :: l'
  | y :: l', S n' => y :: set_nat l' n' x
  end.

Definition set (l : list A) (i : Z) (x : A) : list A :=
  if i <? 0 then l else set_nat l (Z.to_nat i) x.

(** [l.push(x)]. *)
Definition push (l : list A) (x : A) : list A := l ++ [x].

(** [Array.prototype.sort] with a comparator, as a stable sort: an
    element goes before the first later one it does not compare greater
    than.  (The language fixes the order only when the comparator is a
    consistent order; it is always a permutation of the array.) *)
Fixpoint insert (cmp : A -> A -> Z) (x : A) (l : list A) : list A :=
  match l with
  | [] => [x]
  | y :: l' => if cmp x y <=? 0 then x :: l else y :: insert cmp x l'
  end.

Definition sort (cmp : A -> A -> Z) (l : list A) : list A :=
  fold_right (insert cmp) [] l.
End Array.

End Js.

Import Js.

(* ================================================================== *)
(** * Record types of the storage module *)

Module Destination.
Record t : Type := mk {
  name : string;
  type : option string;
  address : string;
  split : option Z
}.
End Destination.

Module ValueModel.
Record t : Type := mk {
  type : string;
  method : option string;
  suggested : option string
}.
End ValueModel.

Module Value.
Record t : Type := mk {
  model : ValueModel.t;
  destinations : list Destination.t
}.
End Value.

Inductive Status : Type := new | processed.

(** [Podcast].  The type of the [id] property is a parameter: [option Z]
    for [Podcast] itself ([id?: number]), [Z] for [RequireId<Podcast>] and
    [unit] for [OmitId<Podcast>]. *)
Module Podcast.
Record t (I : Type) : Type := mk {
  id : I;
  status : Status;
  feedUrl : string;
  alternateFeedUrls : option (list string);
  lastBuildDate : option Date;
  lastItemPubDate : option Date;
  firstItemPubDate : option Date;
  title : option string;
  description : option string;
  link : option string;
  imageUrl : option string;
  subscribed : bool;
  podcastIndexOrgId : option Z;
  podcastIndexOrgLastEpisodeFetch : option Date;
  value : option (list Value.t)
}.

Definition withId {I J : Type} (j : J) (p : t I) : t J :=
  {| id := j; status := status p; feedUrl := feedUrl p;
     alternateFeedUrls := alternateFeedUrls p;
     lastBuildDate := lastBuildDate p;
     lastItemPubDate := lastItemPubDate p;
     firstItemPubDate := firstItemPubDate p;
     title := title p; description := description p; link := link p;
     imageUrl := imageUrl p; subscribed := subscribed p;
     podcastIndexOrgId := podcastIndexOrgId p;
     podcastIndexOrgLastEpisodeFetch := podcastIndexOrgLastEpisodeFetch p;
     value := value p |}.
End Podcast.

Module Enclosure.
Record t : Type := mk {
  url : string;
  length : Z;
  type : string
}.
End Enclosure.

(** [Episode], with the same convention for [id]. *)
Module Episode.
Record t (I : Type) : Type := mk {
  (* feed and index data *)
  id : I;
  podcastId : Z;
  title : option string;
  link : option string;
  description : option string;
  imageUrl : option string;
  categories : option (list string);
  pubDate : option Date;
  enclosure : option Enclosure.t;
  duration : option Z;
  guid : option string;
  podcastIndexOrgId : Z;
  (* user data *)
  position : option Z;
  lastTimeListened : option Date;
  finished : option bool
}.

Definition withId {I J : Type} (j : J) (e : t I) : t J :=
  {| id := j; podcastId := podcastId e; title := title e; link := link e;
     description := description e; imageUrl := imageUrl e;
     categories := categories e; pubDate := pubDate e;
     enclosure := enclosure e; duration := duration e; guid := guid e;
     podcastIndexOrgId := podcastIndexOrgId e; position := position e;
     lastTimeListened := lastTimeListened e; finished := finished e |}.
End Episode.

(** A property of a [RequireOnly<T, 'id'>] argument: absent from the object,
    or present with a value for a property of type [V]. *)
Definition change (V : Type) : Type := option V.

Definition apply_change {V : Type} (c : change V) (old : V) : V :=
  match c with Some v => v | None => old end.

(** [RequireOnlyId<Podcast>]: [id] and any subset of the other properties.
    A property whose own type is optional may be present and undefined
    ([Some None]); the store then deletes it from the record. *)
Module PodcastChanges.
Record t : Type := mk {
  id : Z;
  status : change Status;
  feedUrl : change string;
  alternateFeedUrls : change (option (list string));
  lastBuildDate : change (option Date);
  lastItemPubDate : change (option Date);
  firstItemPubDate : change (option Date);
  title : change (option string);
  description : change (option string);
  link : change (option string);
  imageUrl : change (option string);
  subscribed : change bool;
  podcastIndexOrgId : change (option Z);
  podcastIndexOrgLastEpisodeFetch : change (option Date);
  value : change (option (list Value.t))
}.

(** The object [{id: k}], to which the callers add properties. *)
Definition only (k : Z) : t :=
  mk k None None None None None None None None None None None None None None.

Definition apply (c : t) (p : Podcast.t Z) : Podcast.t Z :=
  {| Podcast.id := Podcast.id p;
     Podcast.status := apply_change (status c) (Podcast.status p);
     Podcast.feedUrl := apply_change (feedUrl c) (Podcast.feedUrl p);
     Podcast.alternateFeedUrls :=
       apply_change (alternateFeedUrls c) (Podcast.alternateFeedUrls p);
     Podcast.lastBuildDate :=
       apply_change (lastBuildDate c) (Podcast.lastBuildDate p);
     Podcast.lastItemPubDate :=
       apply_change (lastItemPubDate c) (Podcast.lastItemPubDate p);
     Podcast.firstItemPubDate :=
       apply_change (firstItemPubDate c) (Podcast.firstItemPubDate p);
     Podcast.title := apply_change (title c) (Podcast.title p);
     Podcast.description :=
       apply_change (description c) (Podcast.description p);
     Podcast.link := apply_change (link c) (Podcast.link p);
     Podcast.imageUrl := apply_change (imageUrl c) (Podcast.imageUrl p);
     Podcast.subscribed :=
       apply_change (subscribed c) (Podcast.subscribed p);
     Podcast.podcastIndexOrgId :=
       apply_change (podcastIndexOrgId c) (Podcast.podcastIndexOrgId p);
     Podcast.podcastIndexOrgLastEpisodeFetch :=
       apply_change (podcastIndexOrgLastEpisodeFetch c)
                    (Podcast.podcastIndexOrgLastEpisodeFetch p);
     Podcast.value := apply_change (value c) (Podcast.value p) |}.
End PodcastChanges.

(** [RequireOnlyId<Episode>]. *)
Module EpisodeChanges.
Record t : Type := mk {
  id : Z;
  podcastId : change Z;
  title : change (option string);
  link : change (option string);
  description : change (option string);
  imageUrl : change (option string);
  categories : change (option (list string));
  pubDate : change (option Date);
  enclosure : change (option Enclosure.t);
  duration : change (option Z);
  guid : change (option string);
  podcastIndexOrgId : change Z;
  position : change (option Z);
  lastTimeListened : change (option Date);
  finished : change (option bool)
}.

Definition only (k : Z) : t :=
  mk k None None None None None None None None None None None None None None.

Definition apply (c : t) (e : Episode.t Z) : Episode.t Z :=
  {| Episode.id := Episode.id e;
     Episode.podcastId := apply_change (podcastId c) (Episode.podcastId e);
     Episode.title := apply_change (title c) (Episode.title e);
     Episode.link := apply_change (link c) (Episode.link e);
     Episode.description :=
       apply_change (description c) (Episode.description e);
     Episode.imageUrl := apply_change (imageUrl c) (Episode.imageUrl e);
     Episode.categories :=
       apply_change (categories c) (Episode.categories e);
     Episode.pubDate := apply_change (pubDate c) (Episode.pubDate e);
     Episode.enclosure := apply_change (enclosure c) (Episode.enclosure e);
     Episode.duration := apply_change (duration c) (Episode.duration e);
     Episode.guid := apply_change (guid c) (Episode.guid e);
     Episode.podcastIndexOrgId :=
       apply_change (podcastIndexOrgId c) (Episode.podcastIndexOrgId e);
     Episode.position := apply_change (position c) (Episode.position e);
     Episode.lastTimeListened :=
       apply_change (lastTimeListened c) (Episode.lastTimeListened e);
     Episode.finished := apply_change (finished c) (Episode.finished e) |}.
End EpisodeChanges.

(* ================================================================== *)
(** * Dexie: object stores, indexes and collections

    The handler is written against Dexie tables over IndexedDB.  What the
    handler uses of them is modelled here: an object store with an in-line,
    auto-incremented primary key [id], kept in ascending key order; indexes
    read in ascending (key, primary key) order; and the collections built
    by [where(...)]. *)

Module Dexie.

(** Index keys, in the order IndexedDB compares them: every number is
    below every date, and every date below every string. *)
Inductive Key : Type :=
| KNumber (n : Z)
| KDate (ms : Z)
| KString (s : string).

Definition cmp (a b : Key) : comparison :=
  match a, b with
  | KNumber x, KNumber y => x ?= y
  | KNumber _, _ => Lt
  | KDate _, KNumber _ => Gt
  | KDate x, KDate y => x ?= y
  | KDate _, KString _ => Lt
  | KString x, KString y => String.compare x y
  | KString _, _ => Gt
  end.

Definition leb (a b : Key) : bool :=
  match cmp a b with Gt => false | _ => true end.

Definition eqb (a b : Key) : bool :=
  match cmp a b with Eq => true | _ => false end.

(** A [Date] property as an index key: the Invalid Date is not a key, and
    a record without a valid key is left out of the index. *)
Definition dateKey (d : option Date) : option Key :=
  match d with Some (Some ms) => Some (KDate ms) | _ => None end.

Definition numberKey (n : option Z) : option Key := option_map KNumber n.

Inductive Direction : Type := next | prev.

Section Table.
Context {In R : Type}.
(** the [id] property of an object handed to [add] or [put] *)
Variable keyPath : In -> option Z.
(** the primary key of a stored record *)
Variable primKey : R -> Z.
(** the record stored for an object under a primary key *)
Variable stored : Z -> In -> R.
(** [unique a b]: [a] and [b] hold the same key of a unique index *)
Variable unique : R -> R -> bool.

Record Table : Type := mkTable {
  rows : list R;          (* ascending primary key *)
  keyGenerator : Z        (* the next auto-incremented key *)
}.

Definition empty : Table := {| rows := []; keyGenerator := 1 |}.

(** Store [r] under its key, replacing the record of that key. *)
Fixpoint upsert (r : R) (rs : list R) : list R :=
  match rs with
  | [] => [r]
  | x :: rs' =>
      if primKey r <? primKey x then r :: rs
      else if primKey r =? primKey x then r :: rs'
      else x :: upsert r rs'
  end.

Definition keyFor (o : In) (t : Table) : Z :=
  match keyPath o with Some k => k | None => keyGenerator t end.

Definition write (k : Z) (o : In) (t : Table) : Table :=
  {| rows := upsert (stored k o) (rows t);
     keyGenerator := Z.max (keyGenerator t) (k + 1) |}.

(** [Table.add]: rejects when the key or a unique index key is taken. *)
Definition add (o : In) (t : Table) : outcome Z * Table :=
  let k := keyFor o t in
  if existsb (fun x => (primKey x =? k) || unique (stored k o) x) (rows t)
  then (Rejected ConstraintError, t)
  else (Fulfilled k, write k o t).

(** [Table.put]: adds, or replaces the record of the same primary key;
    rejects when another record holds the same unique index key. *)
Definition put (o : In) (t : Table) : outcome Z * Table :=
  let k := keyFor o t in
  if existsb (fun x => negb (primKey x =? k) && unique (stored k o) x)
             (rows t)
  then (Rejected ConstraintError, t)
  else (Fulfilled k, write k o t).

(** [Table.bulkPut] outside a transaction scope: every object is put in
    turn; the objects that could be put stay stored, and the promise is
    rejected when one of them could not. *)
Fixpoint bulkPutFrom (failed : bool) (os : list In) (t : Table)
  : outcome unit * Table :=
  match os with
  | [] => (if failed then Rejected BulkError else Fulfilled tt, t)
  | o :: os' =>
      match put o t with
      | (Fulfilled _, t') => bulkPutFrom failed os' t'
      | (Rejected _, _) => bulkPutFrom true os' t
      end
  end.

Definition bulkPut (os : list In) (t : Table) : outcome unit * Table :=
  bulkPutFrom false os t.

(** [Table.get]. *)
Definition get (k : Z) (t : Table) : option R :=
  find (fun x => primKey x =? k) (rows t).

(** [Table.update(key, changes)]: the record of that key, if there is
    one, is modified; no record of that key is not an error.  The
    number of modified records it resolves to is dropped here, as the
    handler drops it. *)
Definition update (k : Z) (changes : R -> R) (t : Table)
  : outcome unit * Table :=
  match get k t with
  | None => (Fulfilled tt, t)
  | Some r =>
      if existsb (fun x => negb (primKey x =? k) && unique (changes r) x)
                 (rows t)
      then (Rejected ModifyError, t)
      else (Fulfilled tt,
            {| rows := map (fun x => if primKey x =? k then changes r
                                     else x) (rows t);
               keyGenerator := keyGenerator t |})
  end.

(** [Table.delete(key)]. *)
Definition delete (k : Z) (t : Table) : Table :=
  {| rows := filter (fun x => negb (primKey x =? k)) (rows t);
     keyGenerator := keyGenerator t |}.

(** [Table.toArray]. *)
Definition toArray (t : Table) : list R := rows t.

(** The records of an index in ascending order: those that have a valid
    key, by index key and then by primary key. *)
Definition byKey (index : R -> option Key) (a b : R) : Z :=
  match index a, index b with
  | Some ka, Some kb =>
      match cmp ka kb with Lt => -1 | Eq => 0 | Gt => 1 end
  | _, _ => 0
  end.

Definition hasKey (index : R -> option Key) (r : R) : bool :=
  match index r with Some _ => true | None => false end.

Definition ascending (index : R -> option Key) (t : Table) : list R :=
  Js.sort (byKey index) (filter (hasKey index) (rows t)).

(** A collection: the selected records in ascending index order, the
    direction they are read in, and the limit on their number. *)
Record Collection : Type := mkCollection {
  entries : list R;
  dir : Direction;
  rowLimit : option Z
}.

Definition inRange (index : R -> option Key) (lower upper : option Key)
           (r : R) : bool :=
  match index r with
  | None => false
  | Some k =>
      match lower with Some l => leb l k | None => true end
      && match upper with Some u => leb k u | None => true end
  end.

Definition range (index : R -> option Key) (lower upper : option Key)
           (t : Table) : Collection :=
  {| entries := filter (inRange index lower upper) (ascending index t);
     dir := next; rowLimit := None |}.

(** [where(index).equals(k)]: the records of one index key, which the
    index holds in primary key order. *)
Definition equals (index : R -> option Key) (k : Key) (t : Table)
  : Collection :=
  {| entries := filter (fun r => match index r with
                                 | Some k' => eqb k' k
                                 | None => false
                                 end) (rows t);
     dir := next; rowLimit := None |}.

(** [where(index).belowOrEqual(k)] and [.aboveOrEqual(k)]. *)
Definition belowOrEqual index (k : Key) := range index None (Some k).
Definition aboveOrEqual index (k : Key) := range index (Some k) None.

(** [Collection.reverse]. *)
Definition reverse (c : Collection) : Collection :=
  {| entries := entries c;
     dir := match dir c with next => prev | prev => next end;
     rowLimit := rowLimit c |}.

(** [Collection.limit(n)]: a limit below another one replaces it. *)
Definition limit (n : Z) (c : Collection) : Collection :=
  {| entries := entries c; dir := dir c;
     rowLimit := match rowLimit c with
                 | Some m => Some (Z.min m n)
                 | None => Some n
                 end |}.

(** [Collection.toArray]: the records in reading order, up to the
    limit (no record for a limit that is not positive). *)
Definition collect (c : Collection) : list R :=
  let l := match dir c with next => entries c | prev => rev (entries c) end in
  match rowLimit c with
  | Some n => firstn (Z.to_nat n) l
  | None => l
  end.

(** [Collection.first]. *)
Definition first (c : Collection) : option R := hd_error (collect c).

(** [Collection.sortBy(keyPath)]: the array of the collection, sorted
    in place with
    [aVal < bVal ? -order : aVal > bVal ? order : 0]
    where [order] is 1 for direction [next] and -1 for [prev]. *)
Definition sorter (order : Z) (getval : R -> option Date) (a b : R) : Z :=
  if Js.lt (getval a) (getval b) then - order
  else if Js.lt (getval b) (getval a) then order
  else 0.

Definition sortBy (getval : R -> option Date) (c : Collection) : list R :=
  let order := match dir c with next => 1 | prev => -1 end in
  Js.sort (sorter order getval) (collect c).

(** [Collection.delete]: every record of the collection leaves the
    table. *)
Definition deleteAll (c : Collection) (t : Table) : Table :=
  {| rows := filter (fun x => negb (existsb (fun y => primKey y =? primKey x)
                                            (collect c)))
                    (rows t);
     keyGenerator := keyGenerator t |}.
End Table.

Arguments Table : clear implicits.
Arguments Collection : clear implicits.
Arguments empty {R}.

End Dexie.

(* ================================================================== *)
(** * The offline storage handler *)

Module Storage.

(** The [Database] class, schema version 1:
    - podcasts: ['++id, &feedUrl, *alternateFeedUrls, lastItemPubDate,
      firstItemPubDate'];
    - episodes: ['++id, podcastId, link, *categories, pubDate,
      enclosure.url, guid, position'].
    [feedUrl] is the only unique index. *)
Record Database : Type := mkDatabase {
  podcasts : Dexie.Table (Podcast.t Z);
  episodes : Dexie.Table (Episode.t Z)
}.

(** [new Database()] on a name nothing is stored under. *)
Definition emptyDatabase : Database :=
  {| podcasts := Dexie.empty; episodes := Dexie.empty |}.

Definition sameFeedUrl (a b : Podcast.t Z) : bool :=
  (Podcast.feedUrl a =? Podcast.feedUrl b)%string.

Definition noUniqueIndex (a b : Episode.t Z) : bool := false.

(** The indexes the handler reads. *)
Definition feedUrlIndex (p : Podcast.t Z) : option Dexie.Key :=
  Some (Dexie.KString (Podcast.feedUrl p)).
Definition podcastIdIndex (e : Episode.t Z) : option Dexie.Key :=
  Some (Dexie.KNumber (Episode.podcastId e)).
Definition pubDateIndex (e : Episode.t Z) : option Dexie.Key :=
  Dexie.dateKey (Episode.pubDate e).
Definition positionIndex (e : Episode.t Z) : option Dexie.Key :=
  Dexie.numberKey (Episode.position e).

Definition withPodcasts (db : Database) (t : Dexie.Table (Podcast.t Z)) :=
  {| podcasts := t; episodes := episodes db |}.
Definition withEpisodes (db : Database) (t : Dexie.Table (Episode.t Z)) :=
  {| podcasts := podcasts db; episodes := t |}.

(** The interface [OfflineStorageHandler], over the state [S] an
    implementation keeps.  A method takes the state it is called in and
    gives how its promise settles and the state it leaves. *)
Record OfflineStorageHandler (S : Type) : Type := mkHandler {
  addPodcast : Podcast.t unit -> S -> outcome Z * S;
  updatePodcast : PodcastChanges.t -> S -> outcome unit * S;
  deletePodcastById : Z -> S -> outcome unit * S;
  getPodcasts : S -> outcome (list (Podcast.t Z)) * S;
  getPodcast : string -> S -> outcome (option (Podcast.t Z)) * S;
  getPodcastById : Z -> S -> outcome (option (Podcast.t Z)) * S;
  putEpisodes : list (Episode.t (option Z)) -> S -> outcome unit * S;
  updateEpisode : EpisodeChanges.t -> S -> outcome unit * S;
  getEpisodes : Z -> S -> outcome (list (Episode.t Z)) * S;
  getAllEpisodes : Z -> Z -> S -> outcome (list (Episode.t Z)) * S;
  getEpisodesInProgress : S -> outcome (list (Episode.t Z)) * S;
  deleteDatabase : S -> outcome unit * S
}.

(** [OfflineStorageHandlerImplementation]. *)
Module Implementation.

Definition addPodcast (podcast : Podcast.t (option Z)) (db : Database)
  : outcome Z * Database :=
  let (r, t) := Dexie.add (@Podcast.id (option Z)) (@Podcast.id Z)
                          Podcast.withId sameFeedUrl podcast (podcasts db) in
  (r, withPodcasts db t).

Definition updatePodcast (podcast : PodcastChanges.t) (db : Database)
  : outcome unit * Database :=
  let (r, t) := Dexie.update (@Podcast.id Z) sameFeedUrl
                             (PodcastChanges.id podcast)
                             (PodcastChanges.apply podcast) (podcasts db) in
  (r, withPodcasts db t).

Definition deletePodcastById (podcastId : Z) (db : Database)
  : outcome unit * Database :=
  let db1 :=
    withEpisodes db
      (Dexie.deleteAll (@Episode.id Z)
         (Dexie.equals podcastIdIndex (Dexie.KNumber podcastId) (episodes db))
         (episodes db)) in
  let db2 := withPodcasts db1 (Dexie.delete (@Podcast.id Z) podcastId
                                            (podcasts db1)) in
  (Fulfilled tt, db2).

Definition getPodcasts (db : Database)
  : outcome (list (Podcast.t Z)) * Database :=
  (Fulfilled (Dexie.toArray (podcasts db)), db).

Definition getPodcast (feedUrl : string) (db : Database)
  : outcome (option (Podcast.t Z)) * Database :=
  (Fulfilled (Dexie.first
                (Dexie.equals feedUrlIndex (Dexie.KString feedUrl)
                              (podcasts db))), db).

Definition getPodcastById (id : Z) (db : Database)
  : outcome (option (Podcast.t Z)) * Database :=
  (Fulfilled (Dexie.get (@Podcast.id Z) id (podcasts db)), db).

Definition putEpisodes (episodes : list (Episode.t (option Z)))
           (db : Database) : outcome unit * Database :=
  let (r, t) := Dexie.bulkPut (@Episode.id (option Z)) (@Episode.id Z)
                              Episode.withId noUniqueIndex episodes
                              (Storage.episodes db) in
  (r, withEpisodes db t).

Definition updateEpisode (episode : EpisodeChanges.t) (db : Database)
  : outcome unit * Database :=
  let (r, t) := Dexie.update (@Episode.id Z) noUniqueIndex
                             (EpisodeChanges.id episode)
                             (EpisodeChanges.apply episode) (episodes db) in
  (r, withEpisodes db t).

Definition getEpisodes (podcastId : Z) (db : Database)
  : outcome (list (Episode.t Z)) * Database :=
  (Fulfilled
     (Dexie.sortBy (@Episode.pubDate Z)
        (Dexie.reverse
           (Dexie.equals podcastIdIndex (Dexie.KNumber podcastId)
                         (episodes db)))), db).

(** [asOfPubDate] is a valid date, in milliseconds since the epoch. *)
Definition getAllEpisodes (count : Z) (asOfPubDate : Z) (db : Database)
  : outcome (list (Episode.t Z)) * Database :=
  (Fulfilled
     (Dexie.collect
        (Dexie.limit count
           (Dexie.reverse
              (Dexie.belowOrEqual pubDateIndex (Dexie.KDate asOfPubDate)
                                  (episodes db))))), db).

Definition getEpisodesInProgress (db : Database)
  : outcome (list (Episode.t Z)) * Database :=
  (Fulfilled
     (Dexie.sortBy (@Episode.lastTimeListened Z)
        (Dexie.reverse
           (Dexie.aboveOrEqual positionIndex (Dexie.KNumber 0)
                               (episodes db)))), db).

Definition deleteDatabase (db : Database) : outcome unit * Database :=
  (Fulfilled tt, emptyDatabase).

(** The class as an [OfflineStorageHandler]; through the interface
    [addPodcast] takes an [OmitId<Podcast>]. *)
Definition handler : OfflineStorageHandler Database :=
  {| Storage.addPodcast := fun p => addPodcast (Podcast.withId None p);
     Storage.updatePodcast := updatePodcast;
     Storage.deletePodcastById := deletePodcastById;
     Storage.getPodcasts := getPodcasts;
     Storage.getPodcast := getPodcast;
     Storage.getPodcastById := getPodcastById;
     Storage.putEpisodes := putEpisodes;
     Storage.updateEpisode := updateEpisode;
     Storage.getEpisodes := getEpisodes;
     Storage.getAllEpisodes := getAllEpisodes;
     Storage.getEpisodesInProgress := getEpisodesInProgress;
     Storage.deleteDatabase := deleteDatabase |}.
End Implementation.

End Storage.

(* ================================================================== *)
(** * The directory client *)

(** Modelled from the spec: the module [PodcastindexOrgClient] the controller
    imports is not part of the sources at hand.  Its interface is taken from
    the specification: [getPodcastByFeedUrl(feedUrl)] resolves to
    [{id, title, description, link, imageUrl, value?}] and
    [getEpisodes(feedUrl)] to a list of
    [{id, title, link, description, pubDate (string), imageUrl,
      enclosure?{url,length,type}, guid}]; either may reject. *)
Module PodcastindexOrgClient.

Module Podcast.
Record t : Type := mk {
  id : Z;
  title : string;
  description : string;
  link : string;
  imageUrl : string;
  value : option Value.t
}.
End Podcast.

Module Episode.
Record t : Type := mk {
  id : Z;
  title : string;
  link : string;
  description : string;
  pubDate : string;
  imageUrl : string;
  enclosure : option Enclosure.t;
  guid : string
}.
End Episode.

(** What the directory answers for a feed URL while one operation of the
    controller runs. *)
Record t : Type := mk {
  getPodcastByFeedUrl : string -> outcome Podcast.t;
  getEpisodes : string -> outcome (list Episode.t)
}.

End PodcastindexOrgClient.

(* ================================================================== *)
(** * Asynchronous calls to the store

    The controller awaits most calls to the store and drops the promise of
    some.  A call whose promise is dropped has been issued but has not
    settled when the caller goes on; the store runs the calls it was issued
    in order, so the next awaited call finds the earlier ones settled.  The
    [World] keeps the store as it stands and the calls still to settle. *)

Module Async.
Section Task.
Context {S : Type}.

Record World : Type := mkWorld {
  store : S;
  unsettled : list (S -> S)
}.

(** The store once every issued call has settled. *)
Definition settle (w : World) : S :=
  fold_left (fun s op => op s) (unsettled w) (store w).

Definition quiet (s : S) : World := {| store := s; unsettled := [] |}.

(** An [async] computation: how its promise settles, and the world at
    that moment. *)
Definition Task (A : Type) : Type := World -> outcome A * World.

Definition ret {A} (a : A) : Task A := fun w => (Fulfilled a, w).

(** Sequencing; a rejection ends the computation. *)
Definition bind {A B} (t : Task A) (k : A -> Task B) : Task B :=
  fun w =>
    match t w with
    | (Fulfilled a, w') => k a w'
    | (Rejected e, w') => (Rejected e, w')
    end.

(** [await store.method(...)]. *)
Definition await {A} (call : S -> outcome A * S) : Task A :=
  fun w => let (r, s) := call (settle w) in (r, quiet s).

(** [store.method(...)] with the promise dropped: the call is issued,
    its outcome is never looked at. *)
Definition detach {A} (call : S -> outcome A * S) : Task unit :=
  fun w => (Fulfilled tt,
            {| store := store w;
               unsettled := unsettled w ++ [fun s => snd (call s)] |}).

(** [await] of a request to the directory service. *)
Definition request {A} (answer : outcome A) : Task A :=
  fun w => (answer, w).

(** [try { x = await ... } catch (e) { ... }]: the outcome, in hand. *)
Definition try {A} (t : Task A) : Task (outcome A) :=
  fun w => let (r, w') := t w in (Fulfilled r, w').

(** [for (let key in array) { body }] over the elements in index order;
    a rejection inside the body leaves the loop. *)
Fixpoint forIn {A} (l : list A) (body : A -> Task unit) : Task unit :=
  match l with
  | [] => ret tt
  | x :: l' => bind (body x) (fun _ => forIn l' body)
  end.
End Task.

Arguments World : clear implicits.
Arguments Task : clear implicits.
End Async.

Declare Scope task_scope.
Delimit Scope task_scope with task.
Notation "x <- t ;; k" := (Async.bind t (fun x => k))
  (at level 100, t at next level, right associativity) : task_scope.
Notation "t ;;; k" := (Async.bind t (fun _ => k))
  (at level 100, right associativity) : task_scope.

(* ================================================================== *)
(** * Calls that run concurrently

    [Promise.all] waits for calls that were all started before any of them
    is awaited, so their steps interleave.  An [async] call is seen here as
    the steps it takes: it has settled, or it waits for something (a call
    to the store it issued, or an answer of the directory service) and
    goes on when that arrives.  A call to the store takes effect in one
    piece, as the store runs each in a transaction of its own. *)

Module Concurrent.
Section Calls.
Context {S : Type}.

(** A call in progress.  [Waiting effect resume]: when what the call waits
    for arrives, the store goes from [s] to [effect s] and the call goes on
    as [resume s]. *)
Inductive Proc (A : Type) : Type :=
| Settled (r : outcome A)
| Waiting (effect : S -> S) (resume : S -> Proc A).

(** [x = await store.method(...); k(x)]. *)
Definition call {A B} (method : S -> outcome A * S) (k : A -> Proc B)
  : Proc B :=
  Waiting (fun s => snd (method s))
          (fun s => match fst (method s) with
                    | Fulfilled a => k a
                    | Rejected e => Settled (Rejected e)
                    end).

(** [x = await] a request to the directory service[; k(x)]. *)
Definition request {A B} (answer : outcome A) (k : A -> Proc B) : Proc B :=
  Waiting (fun s => s)
          (fun _ => match answer with
                    | Fulfilled a => k a
                    | Rejected e => Settled (Rejected e)
                    end).

Definition ret {A} (a : A) : Proc A := Settled (Fulfilled a).

(** One step of a call. *)
Definition step {A} (p : Proc A) (s : S) : Proc A * S :=
  match p with
  | Settled _ => (p, s)
  | Waiting effect resume => (resume s, effect s)
  end.

(** A call run on its own, to the end. *)
Fixpoint run {A} (p : Proc A) (s : S) : outcome A * S :=
  match p with
  | Settled r => (r, s)
  | Waiting effect resume => run (resume s) (effect s)
  end.

(** The calls handed to [Promise.all], and the error of the first of them
    that was rejected, if one was. *)
Record Pool (A : Type) : Type := mkPool {
  calls : list (Proc A);
  earliest : option Error
}.

Definition all {A} (calls : list (Proc A)) : Pool A :=
  {| calls := calls; earliest := None |}.

Definition rejection {A} (p : Proc A) : option Error :=
  match p with
  | Settled (Rejected e) => Some e
  | _ => None
  end.

(** The [i]-th call takes a step. *)
Fixpoint advance {A} (i : nat) (l : list (Proc A)) (s : S)
  : list (Proc A) * option Error * S :=
  match l, i with
  | [], _ => ([], None, s)
  | p :: rest, O =>
      let (p', s') := step p s in
      (p' :: rest,
       match rejection p with Some _ => None | None => rejection p' end,
       s')
  | p :: rest, Datatypes.S i' =>
      let '(rest', e, s') := advance i' rest s in (p :: rest', e, s')
  end.

Definition turn {A} (i : nat) (state : Pool A * S) : Pool A * S :=
  let (pool, s) := state in
  let '(l, e, s') := advance i (calls pool) s in
  ({| calls := l;
      earliest := match earliest pool with Some e0 => Some e0 | None => e end |},
   s').

(** The calls take their steps in the order of [schedule]. *)
Definition turns {A} (schedule : list nat) (state : Pool A * S)
  : Pool A * S :=
  fold_left (fun state i => turn i state) schedule state.

Definition fulfilment {A} (p : Proc A) : option A :=
  match p with
  | Settled (Fulfilled a) => Some a
  | _ => None
  end.

Fixpoint fulfilments {A} (l : list (Proc A)) : option (list A) :=
  match l with
  | [] => Some []
  | p :: rest =>
      match fulfilment p, fulfilments rest with
      | Some a, Some values => Some (a :: values)
      | _, _ => None
      end
  end.

(** How the promise of [Promise.all] stands: rejected with the error of
    the first call that was rejected, fulfilled with the values of the
    calls once all are fulfilled, and pending ([None]) until then. *)
Definition settled {A} (pool : Pool A) : option (outcome (list A)) :=
  match earliest pool with
  | Some e => Some (Rejected e)
  | None => option_map (@Fulfilled (list A)) (fulfilments (calls pool))
  end.
End Calls.

Arguments Proc : clear implicits.
Arguments Pool : clear implicits.
End Concurrent.

(* ================================================================== *)
(** * The podcasts controller *)

Module Controller.
Import Async Storage.

Abbreviation PodcastView := (Podcast.t Z).
Abbreviation EpisodeView := (Episode.t (option Z)).

Module PodcastToAdd.
Record t : Type := mk {
  feedUrl : string;
  title : option string;
  description : option string;
  imageUrl : option string;
  subscribed : bool;
  podcastIndexOrgId : option Z
}.
End PodcastToAdd.

(** [EpisodeWithPodcastView]: an episode and its [podcast] property (the
    result of [Array.prototype.find], undefined when nothing matches). *)
Module EpisodeWithPodcastView.
Record t : Type := mk {
  episode : Episode.t Z;
  podcast : option PodcastView
}.
End EpisodeWithPodcastView.

(** The object [mapPodcastIndexOrgEpisodeToStorage] returns,
    [Omit<Episode, 'podcastId'>] with exactly these eight properties. *)
Module Mapped.
Record t : Type := mk {
  title : option string;
  link : option string;
  description : option string;
  pubDate : option Date;
  imageUrl : option string;
  enclosure : option Enclosure.t;
  guid : option string;
  podcastIndexOrgId : Z
}.
End Mapped.

(** [{...stored, ...mapped}]. *)
Definition overlay {I : Type} (stored : Episode.t I) (mapped : Mapped.t)
  : Episode.t I :=
  {| Episode.id := Episode.id stored;
     Episode.podcastId := Episode.podcastId stored;
     Episode.title := Mapped.title mapped;
     Episode.link := Mapped.link mapped;
     Episode.description := Mapped.description mapped;
     Episode.imageUrl := Mapped.imageUrl mapped;
     Episode.categories := Episode.categories stored;
     Episode.pubDate := Mapped.pubDate mapped;
     Episode.enclosure := Mapped.enclosure mapped;
     Episode.duration := Episode.duration stored;
     Episode.guid := Mapped.guid mapped;
     Episode.podcastIndexOrgId := Mapped.podcastIndexOrgId mapped;
     Episode.position := Episode.position stored;
     Episode.lastTimeListened := Episode.lastTimeListened stored;
     Episode.finished := Episode.finished stored |}.

(** [{...mapped, podcastId: podcastId}]. *)
Definition tagged (mapped : Mapped.t) (podcastId : Z) : EpisodeView :=
  {| Episode.id := None;
     Episode.podcastId := podcastId;
     Episode.title := Mapped.title mapped;
     Episode.link := Mapped.link mapped;
     Episode.description := Mapped.description mapped;
     Episode.imageUrl := Mapped.imageUrl mapped;
     Episode.categories := None;
     Episode.pubDate := Mapped.pubDate mapped;
     Episode.enclosure := Mapped.enclosure mapped;
     Episode.duration := None;
     Episode.guid := Mapped.guid mapped;
     Episode.podcastIndexOrgId := Mapped.podcastIndexOrgId mapped;
     Episode.position := None;
     Episode.lastTimeListened := None;
     Episode.finished := None |}.

(** [{...podcast, status: 'new'}]. *)
Definition newPodcast (podcast : PodcastToAdd.t) : Podcast.t unit :=
  {| Podcast.id := tt;
     Podcast.status := new;
     Podcast.feedUrl := PodcastToAdd.feedUrl podcast;
     Podcast.alternateFeedUrls := None;
     Podcast.lastBuildDate := None;
     Podcast.lastItemPubDate := None;
     Podcast.firstItemPubDate := None;
     Podcast.title := PodcastToAdd.title podcast;
     Podcast.description := PodcastToAdd.description podcast;
     Podcast.link := None;
     Podcast.imageUrl := PodcastToAdd.imageUrl podcast;
     Podcast.subscribed := PodcastToAdd.subscribed podcast;
     Podcast.podcastIndexOrgId := PodcastToAdd.podcastIndexOrgId podcast;
     Podcast.podcastIndexOrgLastEpisodeFetch := None;
     Podcast.value := None |}.

Section PodcastsControllerImplementation.
Context {S : Type}.
Variable offlineStorageHandler : OfflineStorageHandler S.
Variable podcastIndexOrgClient : PodcastindexOrgClient.t.
(** [new Date(s)] for the string [s] of a directory episode *)
Variable Date_parse : string -> Date.

Local Open Scope task_scope.

Definition mapPodcastIndexOrgEpisodeToStorage
           (podcastIndexOrgEpisode : PodcastindexOrgClient.Episode.t)
  : Mapped.t :=
  {| Mapped.title :=
       Some (PodcastindexOrgClient.Episode.title podcastIndexOrgEpisode);
     Mapped.link :=
       Some (PodcastindexOrgClient.Episode.link podcastIndexOrgEpisode);
     Mapped.description :=
       Some (PodcastindexOrgClient.Episode.description
               podcastIndexOrgEpisode);
     Mapped.pubDate :=
       Some (Date_parse
               (PodcastindexOrgClient.Episode.pubDate
                  podcastIndexOrgEpisode));
     Mapped.imageUrl :=
       Some (PodcastindexOrgClient.Episode.imageUrl
               podcastIndexOrgEpisode);
     Mapped.enclosure :=
       match PodcastindexOrgClient.Episode.enclosure
               podcastIndexOrgEpisode with
       | Some enclosure =>
           Some {| Enclosure.url := Enclosure.url enclosure;
                   Enclosure.length := Enclosure.length enclosure;
                   Enclosure.type := Enclosure.type enclosure |}
       | None => None
       end;
     Mapped.guid :=
       Some (PodcastindexOrgClient.Episode.guid podcastIndexOrgEpisode);
     Mapped.podcastIndexOrgId :=
       PodcastindexOrgClient.Episode.id podcastIndexOrgEpisode |}.

(** [addPodcast]; [now] is the value of [new Date()] in its last
    step. *)
Definition addPodcast (now : Z) (podcast : PodcastToAdd.t) : Task S unit :=
  podcastId <-
    await (Storage.addPodcast offlineStorageHandler (newPodcast podcast)) ;;
  podcastAtPodcastindexOrg <-
    request (PodcastindexOrgClient.getPodcastByFeedUrl
               podcastIndexOrgClient (PodcastToAdd.feedUrl podcast)) ;;
  await (Storage.updatePodcast offlineStorageHandler
    {| PodcastChanges.id := podcastId;
       PodcastChanges.status := None;
       PodcastChanges.feedUrl := None;
       PodcastChanges.alternateFeedUrls := None;
       PodcastChanges.lastBuildDate := None;
       PodcastChanges.lastItemPubDate := None;
       PodcastChanges.firstItemPubDate := None;
       PodcastChanges.title :=
         Some (Some (PodcastindexOrgClient.Podcast.title
                       podcastAtPodcastindexOrg));
       PodcastChanges.description :=
         Some (Some (PodcastindexOrgClient.Podcast.description
                       podcastAtPodcastindexOrg));
       PodcastChanges.link :=
         Some (Some (PodcastindexOrgClient.Podcast.link
                       podcastAtPodcastindexOrg));
       PodcastChanges.imageUrl :=
         Some (Some (PodcastindexOrgClient.Podcast.imageUrl
                       podcastAtPodcastindexOrg));
       PodcastChanges.subscribed := None;
       PodcastChanges.podcastIndexOrgId :=
         Some (Some (PodcastindexOrgClient.Podcast.id
                       podcastAtPodcastindexOrg));
       PodcastChanges.podcastIndexOrgLastEpisodeFetch := None;
       PodcastChanges.value :=
         match PodcastindexOrgClient.Podcast.value
                 podcastAtPodcastindexOrg with
         | Some value => Some (Some [value])
         | None => None
         end |}) ;;;
  episodes <-
    request (PodcastindexOrgClient.getEpisodes
               podcastIndexOrgClient (PodcastToAdd.feedUrl podcast)) ;;
  await (Storage.putEpisodes offlineStorageHandler
           (map (fun episode =>
                   tagged (mapPodcastIndexOrgEpisodeToStorage episode)
                          podcastId)
                episodes)) ;;;
  await (Storage.updatePodcast offlineStorageHandler
    {| PodcastChanges.id := podcastId;
       PodcastChanges.status := Some processed;
       PodcastChanges.feedUrl := None;
       PodcastChanges.alternateFeedUrls := None;
       PodcastChanges.lastBuildDate := None;
       PodcastChanges.lastItemPubDate := None;
       PodcastChanges.firstItemPubDate := None;
       PodcastChanges.title := None;
       PodcastChanges.description := None;
       PodcastChanges.link := None;
       PodcastChanges.imageUrl := None;
       PodcastChanges.subscribed := None;
       PodcastChanges.podcastIndexOrgId := None;
       PodcastChanges.podcastIndexOrgLastEpisodeFetch :=
         Some (Some (Some now));
       PodcastChanges.value := None |}).

(** [addPodcast] as the steps it takes, for the calls of [addPodcasts]. *)
Definition addPodcastCall (now : Z) (podcast : PodcastToAdd.t)
  : Concurrent.Proc S unit :=
  Concurrent.call
    (Storage.addPodcast offlineStorageHandler (newPodcast podcast))
    (fun podcastId =>
  Concurrent.request
    (PodcastindexOrgClient.getPodcastByFeedUrl
       podcastIndexOrgClient (PodcastToAdd.feedUrl podcast))
    (fun podcastAtPodcastindexOrg =>
  Concurrent.call
    (Storage.updatePodcast offlineStorageHandler
      {| PodcastChanges.id := podcastId;
         PodcastChanges.status := None;
         PodcastChanges.feedUrl := None;
         PodcastChanges.alternateFeedUrls := None;
         PodcastChanges.lastBuildDate := None;
         PodcastChanges.lastItemPubDate := None;
         PodcastChanges.firstItemPubDate := None;
         PodcastChanges.title :=
           Some (Some (PodcastindexOrgClient.Podcast.title
                         podcastAtPodcastindexOrg));
         PodcastChanges.description :=
           Some (Some (PodcastindexOrgClient.Podcast.description
                         podcastAtPodcastindexOrg));
         PodcastChanges.link :=
           Some (Some (PodcastindexOrgClient.Podcast.link
                         podcastAtPodcastindexOrg));
         PodcastChanges.imageUrl :=
           Some (Some (PodcastindexOrgClient.Podcast.imageUrl
                         podcastAtPodcastindexOrg));
         PodcastChanges.subscribed := None;
         PodcastChanges.podcastIndexOrgId :=
           Some (Some (PodcastindexOrgClient.Podcast.id
                         podcastAtPodcastindexOrg));
         PodcastChanges.podcastIndexOrgLastEpisodeFetch := None;
         PodcastChanges.value :=
           match PodcastindexOrgClient.Podcast.value
                   podcastAtPodcastindexOrg with
           | Some value => Some (Some [value])
           | None => None
           end |})
    (fun _ =>
  Concurrent.request
    (PodcastindexOrgClient.getEpisodes
       podcastIndexOrgClient (PodcastToAdd.feedUrl podcast))
    (fun episodes =>
  Concurrent.call
    (Storage.putEpisodes offlineStorageHandler
       (map (fun episode =>
               tagged
                 (mapPodcastIndexOrgEpisodeToStorage episode)
                 podcastId)
            episodes))
    (fun _ =>
  Concurrent.call
    (Storage.updatePodcast offlineStorageHandler
      {| PodcastChanges.id := podcastId;
         PodcastChanges.status := Some processed;
         PodcastChanges.feedUrl := None;
         PodcastChanges.alternateFeedUrls := None;
         PodcastChanges.lastBuildDate := None;
         PodcastChanges.lastItemPubDate := None;
         PodcastChanges.firstItemPubDate := None;
         PodcastChanges.title := None;
         PodcastChanges.description := None;
         PodcastChanges.link := None;
         PodcastChanges.imageUrl := None;
         PodcastChanges.subscribed := None;
         PodcastChanges.podcastIndexOrgId := None;
         PodcastChanges.podcastIndexOrgLastEpisodeFetch :=
           Some (Some (Some now));
         PodcastChanges.value := None |})
    (fun _ => Concurrent.ret tt)))))).

(** [addPodcasts]: [Promise.all] of one call of [addPodcast] for each
    podcast; [now i] is the value of [new Date()] in the call for
    [podcasts[i]]. *)
Definition addPodcasts (now : nat -> Z)
           (podcasts : list PodcastToAdd.t)
  : Concurrent.Pool S unit :=
  Concurrent.all
    (map (fun job : nat * PodcastToAdd.t =>
            addPodcastCall (now (fst job)) (snd job))
         (combine (seq 0 (List.length podcasts)) podcasts)).

Definition deletePodcastById (podcastId : Z) : Task S unit :=
  await (Storage.deletePodcastById offlineStorageHandler podcastId).

(** [getPodcasts]: the stored podcasts, each with a title (its feed URL
    when the stored title is falsy). *)
Definition getPodcasts : Task S (list PodcastView) :=
  podcasts <- await (Storage.getPodcasts offlineStorageHandler) ;;
  ret (map (fun storedPodcast : Podcast.t Z =>
              {| Podcast.id := Podcast.id storedPodcast;
                 Podcast.status := Podcast.status storedPodcast;
                 Podcast.feedUrl := Podcast.feedUrl storedPodcast;
                 Podcast.alternateFeedUrls :=
                   Podcast.alternateFeedUrls storedPodcast;
                 Podcast.lastBuildDate := Podcast.lastBuildDate storedPodcast;
                 Podcast.lastItemPubDate :=
                   Podcast.lastItemPubDate storedPodcast;
                 Podcast.firstItemPubDate :=
                   Podcast.firstItemPubDate storedPodcast;
                 Podcast.title :=
                   if Js.truthy (Podcast.title storedPodcast)
                   then Podcast.title storedPodcast
                   else Some (Podcast.feedUrl storedPodcast);
                 Podcast.description := Podcast.description storedPodcast;
                 Podcast.link := Podcast.link storedPodcast;
                 Podcast.imageUrl := Podcast.imageUrl storedPodcast;
                 Podcast.subscribed := Podcast.subscribed storedPodcast;
                 Podcast.podcastIndexOrgId :=
                   Podcast.podcastIndexOrgId storedPodcast;
                 Podcast.podcastIndexOrgLastEpisodeFetch :=
                   Podcast.podcastIndexOrgLastEpisodeFetch storedPodcast;
                 Podcast.value := Podcast.value storedPodcast |})
           podcasts).

Definition getPodcast (feedUrl : string) : Task S (option PodcastView) :=
  await (Storage.getPodcast offlineStorageHandler feedUrl).

Definition getPodcastById (id : Z) : Task S (option PodcastView) :=
  await (Storage.getPodcastById offlineStorageHandler id).

(** [getEpisodes(feedUrl)]; the stored episodes are handed out as
    [EpisodeView], whose [id] is optional. *)
Definition getEpisodes (feedUrl : string) : Task S (list EpisodeView) :=
  podcast <- await (Storage.getPodcast offlineStorageHandler feedUrl) ;;
  match podcast with
  | Some podcast =>
      episodes <- await (Storage.getEpisodes offlineStorageHandler
                           (Podcast.id podcast)) ;;
      ret (map (fun e => Episode.withId (Some (Episode.id e)) e) episodes)
  | None => ret []
  end.

(** The callback of [episodes.forEach] in [updatePodcasts], on the
    array [storedEpisodes] it updates. *)
Definition reconcile (podcast : PodcastView)
           (storedEpisodes : list EpisodeView)
           (episode : PodcastindexOrgClient.Episode.t)
  : list EpisodeView :=
  let matchIndex :=
    Js.findIndex
      (fun storedEpisode =>
         Episode.podcastIndexOrgId storedEpisode
         =? PodcastindexOrgClient.Episode.id episode)
      storedEpisodes in
  if matchIndex >=? 0 then
    match Js.get storedEpisodes matchIndex with
    | Some storedEpisode =>
        Js.set storedEpisodes matchIndex
               (overlay storedEpisode
                        (mapPodcastIndexOrgEpisodeToStorage episode))
    | None => storedEpisodes
    end
  else
    Js.push storedEpisodes
            (tagged (mapPodcastIndexOrgEpisodeToStorage episode)
                    (Podcast.id podcast)).

(** One pass of the loop of [updatePodcasts]. *)
Definition refresh (podcast : PodcastView) : Task S unit :=
  fetched <- try (request (PodcastindexOrgClient.getEpisodes
                             podcastIndexOrgClient
                             (Podcast.feedUrl podcast))) ;;
  match fetched with
  | Rejected _ => ret tt                              (* continue *)
  | Fulfilled episodes =>
      storedEpisodes <- getEpisodes (Podcast.feedUrl podcast) ;;
      let storedEpisodes :=
        fold_left (reconcile podcast) episodes storedEpisodes in
      detach (Storage.putEpisodes offlineStorageHandler storedEpisodes)
  end.

Definition updatePodcasts : Task S unit :=
  podcasts <- await (Storage.getPodcasts offlineStorageHandler) ;;
  forIn podcasts refresh.

Definition addPodcastToEpisodes (episodes : list (Episode.t Z))
           (podcasts : list PodcastView)
  : list EpisodeWithPodcastView.t :=
  map (fun episode =>
         let podcast :=
           find (fun p => Podcast.id p =? Episode.podcastId episode)
                podcasts in
         {| EpisodeWithPodcastView.episode := episode;
            EpisodeWithPodcastView.podcast := podcast |})
      episodes.

Definition getAllEpisodes (count : Z) (asOfPubDate : Z)
  : Task S (list EpisodeWithPodcastView.t) :=
  podcasts <- await (Storage.getPodcasts offlineStorageHandler) ;;
  episodes <- await (Storage.getAllEpisodes offlineStorageHandler
                       count asOfPubDate) ;;
  ret (addPodcastToEpisodes episodes podcasts).

Definition getEpisodesInProgress : Task S (list EpisodeWithPodcastView.t) :=
  podcasts <- await (Storage.getPodcasts offlineStorageHandler) ;;
  episodesInProgress <-
    await (Storage.getEpisodesInProgress offlineStorageHandler) ;;
  ret (addPodcastToEpisodes episodesInProgress podcasts).

(** [updateEpisodeCurrentTime]; [now] is the value of [new Date()].
    The method is not [async]: it issues the update and returns. *)
Definition updateEpisodeCurrentTime (now : Z) (episodeId : Z)
           (position : Z) : Task S unit :=
  detach (Storage.updateEpisode offlineStorageHandler
    {| EpisodeChanges.id := episodeId;
       EpisodeChanges.podcastId := None;
       EpisodeChanges.title := None;
       EpisodeChanges.link := None;
       EpisodeChanges.description := None;
       EpisodeChanges.imageUrl := None;
       EpisodeChanges.categories := None;
       EpisodeChanges.pubDate := None;
       EpisodeChanges.enclosure := None;
       EpisodeChanges.duration := None;
       EpisodeChanges.guid := None;
       EpisodeChanges.podcastIndexOrgId := None;
       EpisodeChanges.position := Some (Some position);
       EpisodeChanges.lastTimeListened := Some (Some (Some now));
       EpisodeChanges.finished := None |}).
End PodcastsControllerImplementation.

End Controller.

(* ================================================================== *)
(** * Definitions used to state and prove the properties *)

(** [f] applied to the first element of [l] that satisfies [p]: what
    [l[l.findIndex(p)] = f(l[l.findIndex(p)])] does when there is a match. *)
Fixpoint alterFirst {A : Type} (p : A -> bool) (f : A -> A) (l : list A)
  : list A :=
  match l with
  | [] => []
  | x :: l' => if p x then f x :: l' else x :: alterFirst p f l'
  end.

(** ** Tables *)

Section TableNotions.
Context {In R : Type}.
Variable keyPath : In -> option Z.
Variable primKey : R -> Z.
Variable stored : Z -> In -> R.

(** The invariant of an object store: the records are in strictly
    ascending key order, and the key generator is above every key. *)
Definition keysAscending (rs : list R) : Prop :=
  StronglySorted Z.lt (map primKey rs).

Definition wfTable (t : Dexie.Table R) : Prop :=
  keysAscending (Dexie.rows t)
  /\ Forall (fun r => primKey r < Dexie.keyGenerator t) (Dexie.rows t).

(** A stored record after the objects [os] were put, when the objects
    carry distinct keys: the object of its key, if there is one. *)
Definition replaced (os : list In) (x : R) : R :=
  match find (fun o => match keyPath o with
                       | Some k => k =? primKey x
                       | None => false
                       end) os with
  | Some o => stored (primKey x) o
  | None => x
  end.

(** The records added for objects without a key, from the key [k] on. *)
Fixpoint numbered (k : Z) (os : list In) : list R :=
  match os with
  | [] => []
  | o :: os' => stored k o :: numbered (k + 1) os'
  end.
End TableNotions.

(** ** Reconciliation *)

Section ReconcileNotions.
Variable Date_parse : string -> Date.

(** One directory episode laid over a stored episode of its directory id:
    what a match of [reconcile] does to the matched element. *)
Definition overlaid {I : Type} (s : Episode.t I)
           (e : PodcastindexOrgClient.Episode.t) : Episode.t I :=
  if Episode.podcastIndexOrgId s =? PodcastindexOrgClient.Episode.id e
  then Controller.overlay
         s (Controller.mapPodcastIndexOrgEpisodeToStorage Date_parse e)
  else s.

(** A stored episode after a whole directory list went by. *)
Definition refreshed {I : Type} (episodes : list PodcastindexOrgClient.Episode.t)
           (s : Episode.t I) : Episode.t I :=
  fold_left overlaid episodes s.

(** The episodes a directory list adds to stored episodes whose directory
    ids are [seen]: one for each new directory id, in the order the ids
    first occur, refreshed by the rest of the list. *)
Fixpoint appended (podcastId : Z)
         (episodes : list PodcastindexOrgClient.Episode.t) (seen : list Z)
  : list Controller.EpisodeView :=
  match episodes with
  | [] => []
  | e :: rest =>
      if existsb (Z.eqb (PodcastindexOrgClient.Episode.id e)) seen
      then appended podcastId rest seen
      else refreshed rest
             (Controller.tagged
                (Controller.mapPodcastIndexOrgEpisodeToStorage Date_parse e)
                podcastId)
           :: appended podcastId rest
                       (seen ++ [PodcastindexOrgClient.Episode.id e])
  end.
End ReconcileNotions.

(** Two episodes that are the same record as far as the store and the
    user are concerned: same [id], same podcast, same user data. *)
Definition sameRecord {I : Type} (a b : Episode.t I) : Prop :=
  Episode.id a = Episode.id b
  /\ Episode.podcastId a = Episode.podcastId b
  /\ Episode.categories a = Episode.categories b
  /\ Episode.duration a = Episode.duration b
  /\ Episode.position a = Episode.position b
  /\ Episode.lastTimeListened a = Episode.lastTimeListened b
  /\ Episode.finished a = Episode.finished b.

(** An episode that carries the data of a directory episode in the eight
    properties [mapPodcastIndexOrgEpisodeToStorage] fills. *)
Definition carries {I : Type} (Date_parse : string -> Date)
           (e : PodcastindexOrgClient.Episode.t) (r : Episode.t I) : Prop :=
  Episode.title r = Some (PodcastindexOrgClient.Episode.title e)
  /\ Episode.link r = Some (PodcastindexOrgClient.Episode.link e)
  /\ Episode.description r
     = Some (PodcastindexOrgClient.Episode.description e)
  /\ Episode.pubDate r
     = Some (Date_parse (PodcastindexOrgClient.Episode.pubDate e))
  /\ Episode.imageUrl r = Some (PodcastindexOrgClient.Episode.imageUrl e)
  /\ Episode.enclosure r = PodcastindexOrgClient.Episode.enclosure e
  /\ Episode.guid r = Some (PodcastindexOrgClient.Episode.guid e)
  /\ Episode.podcastIndexOrgId r = PodcastindexOrgClient.Episode.id e.

(** ** The store *)

(** The invariant of the database: both tables are well formed and the
    unique index on [feedUrl] holds. *)
Definition wfDatabase (db : Storage.Database) : Prop :=
  wfTable (@Podcast.id Z) (Storage.podcasts db)
  /\ wfTable (@Episode.id Z) (Storage.episodes db)
  /\ NoDup (map (@Podcast.feedUrl Z) (Dexie.rows (Storage.podcasts db))).

(** Every episode belongs to a stored podcast. *)
Definition referential (db : Storage.Database) : Prop :=
  Forall (fun e => List.In (Episode.podcastId e)
                           (map (@Podcast.id Z)
                                (Dexie.rows (Storage.podcasts db))))
         (Dexie.rows (Storage.episodes db)).

(** The stored episodes of a podcast, in key order. *)
Definition episodesOf (podcastId : Z) (db : Storage.Database)
  : list (Episode.t Z) :=
  filter (fun e => Episode.podcastId e =? podcastId)
         (Dexie.rows (Storage.episodes db)).

(** No two stored episodes of a podcast share a directory id. *)
Definition distinctDirectoryIds (db : Storage.Database) : Prop :=
  forall podcastId,
    NoDup (map (@Episode.podcastIndexOrgId Z) (episodesOf podcastId db)).

(** ** The refresh, once every write has settled *)

Section Settled.
Variable podcastIndexOrgClient : PodcastindexOrgClient.t.
Variable Date_parse : string -> Date.

(** What [getEpisodes(feedUrl)] of the controller resolves to on the
    implementation of the store. *)
Definition storedEpisodes (feedUrl : string) (db : Storage.Database)
  : list Controller.EpisodeView :=
  match Dexie.first (Dexie.equals Storage.feedUrlIndex
                                  (Dexie.KString feedUrl)
                                  (Storage.podcasts db)) with
  | Some podcast =>
      map (fun e => Episode.withId (Some (Episode.id e)) e)
          (Dexie.sortBy (@Episode.pubDate Z)
             (Dexie.reverse
                (Dexie.equals Storage.podcastIdIndex
                              (Dexie.KNumber (Podcast.id podcast))
                              (Storage.episodes db))))
  | None => []
  end.

(** One pass of the loop of [updatePodcasts] with its write settled. *)
Definition refreshed_store (db : Storage.Database)
           (podcast : Controller.PodcastView) : Storage.Database :=
  match PodcastindexOrgClient.getEpisodes podcastIndexOrgClient
          (Podcast.feedUrl podcast) with
  | Rejected _ => db
  | Fulfilled episodes =>
      snd (Storage.Implementation.putEpisodes
             (fold_left (Controller.reconcile Date_parse podcast) episodes
                        (storedEpisodes (Podcast.feedUrl podcast) db))
             db)
  end.

(** The stored episodes of a podcast hold what the directory answers for
    it: refreshing them changes nothing, and every directory episode has a
    stored counterpart. *)
Definition upToDate (db : Storage.Database) (podcast : Podcast.t Z) : Prop :=
  forall episodes,
    PodcastindexOrgClient.getEpisodes podcastIndexOrgClient
      (Podcast.feedUrl podcast) = Fulfilled episodes ->
    (forall x, List.In x (episodesOf (Podcast.id podcast) db) ->
               refreshed Date_parse episodes x = x)
    /\ (forall e, List.In e episodes ->
                  List.In (PodcastindexOrgClient.Episode.id e)
                          (map (@Episode.podcastIndexOrgId Z)
                               (episodesOf (Podcast.id podcast) db))).
End Settled.

(** The publish date of an episode that has a valid one, in milliseconds. *)
Definition pubDateMs {I : Type} (e : Episode.t I) : Z :=
  match Episode.pubDate e with
  | Some (Some ms) => ms
  | _ => 0
  end.

(** Two episodes that differ at most in [position] and
    [lastTimeListened]. *)
Definition sameButPlayback {I : Type} (a b : Episode.t I) : Prop :=
  Episode.id a = Episode.id b
  /\ Episode.podcastId a = Episode.podcastId b
  /\ Episode.title a = Episode.title b
  /\ Episode.link a = Episode.link b
  /\ Episode.description a = Episode.description b
  /\ Episode.imageUrl a = Episode.imageUrl b
  /\ Episode.categories a = Episode.categories b
  /\ Episode.pubDate a = Episode.pubDate b
  /\ Episode.enclosure a = Episode.enclosure b
  /\ Episode.duration a = Episode.duration b
  /\ Episode.guid a = Episode.guid b
  /\ Episode.podcastIndexOrgId a = Episode.podcastIndexOrgId b
  /\ Episode.finished a = Episode.finished b.

(** The reads of a store never fail. *)
Definition readsFulfil {S : Type} (h : Storage.OfflineStorageHandler S)
  : Prop :=
  (forall s, isRejected (fst (Storage.getPodcasts h s)) = false)
  /\ (forall feedUrl s,
        isRejected (fst (Storage.getPodcast h feedUrl s)) = false)
  /\ (forall podcastId s,
        isRejected (fst (Storage.getEpisodes h podcastId s)) = false).

(** ** Reading episodes *)

(** The date an episode was last listened to, for an episode that has a
    valid one, in milliseconds. *)
Definition listenedMs {I : Type} (e : Episode.t I) : Z :=
  match Episode.lastTimeListened e with
  | Some (Some ms) => ms
  | _ => 0
  end.

(** An episode with a position that is not negative. *)
Definition inProgress {I : Type} (e : Episode.t I) : bool :=
  match Episode.position e with
  | Some position => 0 <=? position
  | None => false
  end.

(** An episode with a valid publish date that is not after [asOfPubDate]. *)
Definition publishedBy {I : Type} (asOfPubDate : Z) (e : Episode.t I) : bool :=
  match Episode.pubDate e with
  | Some (Some ms) => ms <=? asOfPubDate
  | _ => false
  end.

(** ** Podcasts as they are listed and stored *)

(** Two podcasts that differ at most in [title]. *)
Definition sameButTitle {I : Type} (a b : Podcast.t I) : Prop :=
  Podcast.id a = Podcast.id b
  /\ Podcast.status a = Podcast.status b
  /\ Podcast.feedUrl a = Podcast.feedUrl b
  /\ Podcast.alternateFeedUrls a = Podcast.alternateFeedUrls b
  /\ Podcast.lastBuildDate a = Podcast.lastBuildDate b
  /\ Podcast.lastItemPubDate a = Podcast.lastItemPubDate b
  /\ Podcast.firstItemPubDate a = Podcast.firstItemPubDate b
  /\ Podcast.description a = Podcast.description b
  /\ Podcast.link a = Podcast.link b
  /\ Podcast.imageUrl a = Podcast.imageUrl b
  /\ Podcast.subscribed a = Podcast.subscribed b
  /\ Podcast.podcastIndexOrgId a = Podcast.podcastIndexOrgId b
  /\ Podcast.podcastIndexOrgLastEpisodeFetch a
     = Podcast.podcastIndexOrgLastEpisodeFetch b
  /\ Podcast.value a = Podcast.value b.

(** The podcast [addPodcast] leaves in the store for [podcast], the
    directory answering [directoryPodcast]. *)
Definition processedPodcast (now : Z) (podcast : Controller.PodcastToAdd.t)
           (directoryPodcast : PodcastindexOrgClient.Podcast.t)
           (podcastId : Z) : Podcast.t Z :=
  {| Podcast.id := podcastId;
     Podcast.status := processed;
     Podcast.feedUrl := Controller.PodcastToAdd.feedUrl podcast;
     Podcast.alternateFeedUrls := None;
     Podcast.lastBuildDate := None;
     Podcast.lastItemPubDate := None;
     Podcast.firstItemPubDate := None;
     Podcast.title :=
       Some (PodcastindexOrgClient.Podcast.title directoryPodcast);
     Podcast.description :=
       Some (PodcastindexOrgClient.Podcast.description directoryPodcast);
     Podcast.link := Some (PodcastindexOrgClient.Podcast.link directoryPodcast);
     Podcast.imageUrl :=
       Some (PodcastindexOrgClient.Podcast.imageUrl directoryPodcast);
     Podcast.subscribed := Controller.PodcastToAdd.subscribed podcast;
     Podcast.podcastIndexOrgId :=
       Some (PodcastindexOrgClient.Podcast.id directoryPodcast);
     Podcast.podcastIndexOrgLastEpisodeFetch := Some (Some now);
     Podcast.value :=
       match PodcastindexOrgClient.Podcast.value directoryPodcast with
       | Some value => Some [value]
       | None => None
       end |}.

(** An episode without user data. *)
Definition unplayed {I : Type} (e : Episode.t I) : Prop :=
  Episode.position e = None
  /\ Episode.lastTimeListened e = None
  /\ Episode.finished e = None.

(** ** The calls of [addPodcasts] *)

(** The changes of the first [updatePodcast] of [addPodcast]. *)
Definition directoryData (podcastId : Z)
           (podcastAtPodcastindexOrg : PodcastindexOrgClient.Podcast.t)
  : PodcastChanges.t :=
  {| PodcastChanges.id := podcastId;
     PodcastChanges.status := None;
     PodcastChanges.feedUrl := None;
     PodcastChanges.alternateFeedUrls := None;
     PodcastChanges.lastBuildDate := None;
     PodcastChanges.lastItemPubDate := None;
     PodcastChanges.firstItemPubDate := None;
     PodcastChanges.title :=
       Some (Some (PodcastindexOrgClient.Podcast.title
                     podcastAtPodcastindexOrg));
     PodcastChanges.description :=
       Some (Some (PodcastindexOrgClient.Podcast.description
                     podcastAtPodcastindexOrg));
     PodcastChanges.link :=
       Some (Some (PodcastindexOrgClient.Podcast.link
                     podcastAtPodcastindexOrg));
     PodcastChanges.imageUrl :=
       Some (Some (PodcastindexOrgClient.Podcast.imageUrl
                     podcastAtPodcastindexOrg));
     PodcastChanges.subscribed := None;
     PodcastChanges.podcastIndexOrgId :=
       Some (Some (PodcastindexOrgClient.Podcast.id
                     podcastAtPodcastindexOrg));
     PodcastChanges.podcastIndexOrgLastEpisodeFetch := None;
     PodcastChanges.value :=
       match PodcastindexOrgClient.Podcast.value
               podcastAtPodcastindexOrg with
       | Some value => Some (Some [value])
       | None => None
       end |}.

(** The changes of its last [updatePodcast]. *)
Definition processedStamp (podcastId : Z) (now : Z) : PodcastChanges.t :=
  {| PodcastChanges.id := podcastId;
     PodcastChanges.status := Some processed;
     PodcastChanges.feedUrl := None;
     PodcastChanges.alternateFeedUrls := None;
     PodcastChanges.lastBuildDate := None;
     PodcastChanges.lastItemPubDate := None;
     PodcastChanges.firstItemPubDate := None;
     PodcastChanges.title := None;
     PodcastChanges.description := None;
     PodcastChanges.link := None;
     PodcastChanges.imageUrl := None;
     PodcastChanges.subscribed := None;
     PodcastChanges.podcastIndexOrgId := None;
     PodcastChanges.podcastIndexOrgLastEpisodeFetch := Some (Some (Some now));
     PodcastChanges.value := None |}.

(** How far a call of [addPodcast] has come. *)
Inductive Stage : Type :=
| Starting
| Added (podcastId : Z)
| Found (podcastId : Z) (directoryPodcast : PodcastindexOrgClient.Podcast.t)
| Described (podcastId : Z)
| Fetched (podcastId : Z) (episodes : list PodcastindexOrgClient.Episode.t)
| Filled (podcastId : Z)
| Processed
| Failed (e : Error).

(** The turns a call at a stage still takes, at most, before it has
    settled. *)
Definition turnsLeft (stage : Stage) : nat :=
  match stage with
  | Starting => 6
  | Added _ => 5
  | Found _ _ => 4
  | Described _ => 3
  | Fetched _ _ => 2
  | Filled _ => 1
  | Processed | Failed _ => 0
  end.

Section AddPodcastsNotions.
Variable podcastIndexOrgClient : PodcastindexOrgClient.t.
Variable Date_parse : string -> Date.

Local Abbreviation handler := Storage.Implementation.handler.
Local Abbreviation Call := (Concurrent.Proc Storage.Database unit).

(** The call of [addPodcast(podcast)] at a stage: what it waits for and
    how it goes on. *)
Definition callAt (now : Z) (podcast : Controller.PodcastToAdd.t)
           (stage : Stage) : Call :=
  let feedUrl := Controller.PodcastToAdd.feedUrl podcast in
  let filled podcastId : Call :=
    Concurrent.call
      (Storage.updatePodcast handler (processedStamp podcastId now))
      (fun _ => Concurrent.ret tt) in
  let fetched podcastId episodes : Call :=
    Concurrent.call
      (Storage.putEpisodes handler
         (map (fun episode =>
                 Controller.tagged
                   (Controller.mapPodcastIndexOrgEpisodeToStorage
                      Date_parse episode)
                   podcastId)
              episodes))
      (fun _ => filled podcastId) in
  let described podcastId : Call :=
    Concurrent.request
      (PodcastindexOrgClient.getEpisodes podcastIndexOrgClient feedUrl)
      (fetched podcastId) in
  let found podcastId directoryPodcast : Call :=
    Concurrent.call
      (Storage.updatePodcast handler
                             (directoryData podcastId directoryPodcast))
      (fun _ => described podcastId) in
  let added podcastId : Call :=
    Concurrent.request
      (PodcastindexOrgClient.getPodcastByFeedUrl podcastIndexOrgClient
                                                 feedUrl)
      (found podcastId) in
  match stage with
  | Starting =>
      Concurrent.call
        (Storage.addPodcast handler (Controller.newPodcast podcast)) added
  | Added podcastId => added podcastId
  | Found podcastId directoryPodcast => found podcastId directoryPodcast
  | Described podcastId => described podcastId
  | Fetched podcastId episodes => fetched podcastId episodes
  | Filled podcastId => filled podcastId
  | Processed => Concurrent.Settled (Fulfilled tt)
  | Failed e => Concurrent.Settled (Rejected e)
  end.

(** The store holds the podcast of a feed URL under an id, with a status
    and a fetch date, and these episodes for it. *)
Definition holds (db : Storage.Database) (feedUrl : string) (podcastId : Z)
           (status : Status) (fetchDate : option Date)
           (episodes : list (Episode.t Z)) : Prop :=
  exists P,
    List.In P (Dexie.rows (Storage.podcasts db))
    /\ Podcast.feedUrl P = feedUrl
    /\ Podcast.id P = podcastId
    /\ Podcast.status P = status
    /\ Podcast.podcastIndexOrgLastEpisodeFetch P = fetchDate
    /\ episodesOf podcastId db = episodes.

(** The episodes stored for a podcast are the ones the directory lists. *)
Definition listed (feedUrl : string) (stored : list (Episode.t Z)) : Prop :=
  exists episodes,
    PodcastindexOrgClient.getEpisodes podcastIndexOrgClient feedUrl
    = Fulfilled episodes
    /\ Forall2 (fun e r => carries Date_parse e r /\ unplayed r)
               episodes stored.

(** What the store holds for a call at a stage. *)
Definition storedAt (now : Z) (podcast : Controller.PodcastToAdd.t)
           (stage : Stage) (db : Storage.Database) : Prop :=
  let feedUrl := Controller.PodcastToAdd.feedUrl podcast in
  match stage with
  | Starting =>
      ~ List.In feedUrl
                (map (@Podcast.feedUrl Z) (Dexie.rows (Storage.podcasts db)))
  | Added podcastId =>
      holds db feedUrl podcastId new None []
  | Found podcastId _ | Described podcastId =>
      holds db feedUrl podcastId new None []
      /\ isRejected (PodcastindexOrgClient.getPodcastByFeedUrl
                       podcastIndexOrgClient feedUrl) = false
  | Fetched podcastId episodes =>
      holds db feedUrl podcastId new None []
      /\ isRejected (PodcastindexOrgClient.getPodcastByFeedUrl
                       podcastIndexOrgClient feedUrl) = false
      /\ PodcastindexOrgClient.getEpisodes podcastIndexOrgClient feedUrl
         = Fulfilled episodes
  | Filled podcastId =>
      (exists stored, holds db feedUrl podcastId new None stored
                      /\ listed feedUrl stored)
      /\ isRejected (PodcastindexOrgClient.getPodcastByFeedUrl
                       podcastIndexOrgClient feedUrl) = false
  | Processed =>
      (exists podcastId stored,
          holds db feedUrl podcastId processed (Some (Some now)) stored
          /\ listed feedUrl stored)
      /\ isRejected (PodcastindexOrgClient.getPodcastByFeedUrl
                       podcastIndexOrgClient feedUrl) = false
  | Failed e =>
      (exists podcastId, holds db feedUrl podcastId new None [])
      /\ (PodcastindexOrgClient.getPodcastByFeedUrl podcastIndexOrgClient
                                                    feedUrl = Rejected e
          \/ PodcastindexOrgClient.getEpisodes podcastIndexOrgClient feedUrl
             = Rejected e)
  end.
End AddPodcastsNotions.

(** From [db] to [db'] nothing changed for the podcasts whose feed URL
    is not in [feeds]: they are stored as they were, with the episodes
    they had, and no podcast was added for another feed URL. *)
Definition framed (feeds : list string) (db db' : Storage.Database) : Prop :=
  (forall P, List.In P (Dexie.rows (Storage.podcasts db)) ->
             ~ List.In (Podcast.feedUrl P) feeds ->
             List.In P (Dexie.rows (Storage.podcasts db'))
             /\ episodesOf (Podcast.id P) db' = episodesOf (Podcast.id P) db)
  /\ (forall f, ~ List.In f feeds ->
                ~ List.In f (map (@Podcast.feedUrl Z)
                                 (Dexie.rows (Storage.podcasts db))) ->
                ~ List.In f (map (@Podcast.feedUrl Z)
                                 (Dexie.rows (Storage.podcasts db')))).

(** One more turn for the call of index [i]. *)
Definition bump (i : nat) (turns : nat -> nat) : nat -> nat :=
  fun p => if Nat.eqb p i then Datatypes.S (turns p) else turns p.

(** The error a pool remembers is the error of one of its calls, and it
    remembers one as soon as a call is rejected. *)
Definition remembers {S A : Type} (pool : Concurrent.Pool S A) : Prop :=
  match Concurrent.earliest pool with
  | Some e =>
      Exists (fun c => Concurrent.rejection c = Some e) (Concurrent.calls pool)
  | None =>
      Forall (fun c => Concurrent.rejection c = None) (Concurrent.calls pool)
  end.

Section PoolNotions.
Variable podcastIndexOrgClient : PodcastindexOrgClient.t.
Variable Date_parse : string -> Date.
Variable now : nat -> Z.

(** The call for [podcasts[i]] after [turns i] turns: it is at a stage
    that leaves it at most [6 - turns i] turns to take, and the store
    holds what that stage says. *)
Definition standing (turns : nat -> nat) (db : Storage.Database)
           (job : nat * Controller.PodcastToAdd.t)
           (c : Concurrent.Proc Storage.Database unit) : Prop :=
  exists stage,
    c = callAt podcastIndexOrgClient Date_parse (now (fst job)) (snd job)
               stage
    /\ storedAt podcastIndexOrgClient Date_parse (now (fst job)) (snd job)
                stage db
    /\ (turnsLeft stage <= 6 - turns (fst job))%nat.

(** What holds of the calls of [addPodcasts] and of the store, whatever
    turns were taken since the store was [db0]. *)
Definition poolOk (jobs : list (nat * Controller.PodcastToAdd.t))
           (db0 : Storage.Database) (turns : nat -> nat)
           (state : Concurrent.Pool Storage.Database unit * Storage.Database)
  : Prop :=
  wfDatabase (snd state) /\ referential (snd state)
  /\ Forall2 (standing turns (snd state)) jobs (Concurrent.calls (fst state))
  /\ framed (map (fun job : nat * Controller.PodcastToAdd.t =>
                    Controller.PodcastToAdd.feedUrl (snd job))
                 jobs)
            db0 (snd state)
  /\ remembers (fst state).
End PoolNotions.

(** ** Sample data *)

Module Sample.
Open Scope string_scope.

(** [new Date(s)] on the few strings the samples use. *)
Definition Date_parse (s : string) : Date :=
  if s =? "1970-01-01T00:00:00.005Z" then Some 5
  else if s =? "1970-01-01T00:00:00.010Z" then Some 10
  else if s =? "1970-01-01T00:00:00.020Z" then Some 20
  else if s =? "1970-01-01T00:00:00.030Z" then Some 30
  else None.

Definition feedUrl : string := "https://example.com/feed.xml".

Definition toAdd : Controller.PodcastToAdd.t :=
  {| Controller.PodcastToAdd.feedUrl := feedUrl;
     Controller.PodcastToAdd.title := None;
     Controller.PodcastToAdd.description := None;
     Controller.PodcastToAdd.imageUrl := None;
     Controller.PodcastToAdd.subscribed := true;
     Controller.PodcastToAdd.podcastIndexOrgId := None |}.

Definition directoryPodcast : PodcastindexOrgClient.Podcast.t :=
  {| PodcastindexOrgClient.Podcast.id := 920666;
     PodcastindexOrgClient.Podcast.title := "Example";
     PodcastindexOrgClient.Podcast.description := "An example feed";
     PodcastindexOrgClient.Podcast.link := "https://example.com";
     PodcastindexOrgClient.Podcast.imageUrl := "https://example.com/cover.png";
     PodcastindexOrgClient.Podcast.value := None |}.

Definition episode (id : Z) (title pubDate : string)
  : PodcastindexOrgClient.Episode.t :=
  {| PodcastindexOrgClient.Episode.id := id;
     PodcastindexOrgClient.Episode.title := title;
     PodcastindexOrgClient.Episode.link := "https://example.com/episode";
     PodcastindexOrgClient.Episode.description := "";
     PodcastindexOrgClient.Episode.pubDate := pubDate;
     PodcastindexOrgClient.Episode.imageUrl := "";
     PodcastindexOrgClient.Episode.enclosure := None;
     PodcastindexOrgClient.Episode.guid := title |}.

(** A directory that answers every feed URL with the same episodes. *)
Definition directory (episodes : list PodcastindexOrgClient.Episode.t)
  : PodcastindexOrgClient.t :=
  {| PodcastindexOrgClient.getPodcastByFeedUrl :=
       fun _ => Fulfilled directoryPodcast;
     PodcastindexOrgClient.getEpisodes := fun _ => Fulfilled episodes |}.

(** A directory that is down. *)
Definition unreachable : PodcastindexOrgClient.t :=
  {| PodcastindexOrgClient.getPodcastByFeedUrl :=
       fun _ => Rejected (RequestError "503");
     PodcastindexOrgClient.getEpisodes :=
       fun _ => Rejected (RequestError "503") |}.

Definition handler := Storage.Implementation.handler.

(** The podcast [addPodcast toAdd] stores in an empty database at time
    1000, the directory answering [directoryPodcast]. *)
Definition storedPodcast : Podcast.t Z :=
  {| Podcast.id := 1;
     Podcast.status := processed;
     Podcast.feedUrl := feedUrl;
     Podcast.alternateFeedUrls := None;
     Podcast.lastBuildDate := None;
     Podcast.lastItemPubDate := None;
     Podcast.firstItemPubDate := None;
     Podcast.title := Some "Example";
     Podcast.description := Some "An example feed";
     Podcast.link := Some "https://example.com";
     Podcast.imageUrl := Some "https://example.com/cover.png";
     Podcast.subscribed := true;
     Podcast.podcastIndexOrgId := Some 920666;
     Podcast.podcastIndexOrgLastEpisodeFetch := Some (Some 1000);
     Podcast.value := None |}.

(** The store after [addPodcast] on an empty database, the directory
    holding the given episodes. *)
Definition added (episodes : list PodcastindexOrgClient.Episode.t)
  : Async.World Storage.Database :=
  snd (Controller.addPodcast handler (directory episodes) Date_parse 1000
                             toAdd (Async.quiet Storage.emptyDatabase)).

Definition one := episode 1 "one" "1970-01-01T00:00:00.010Z".
Definition two := episode 2 "two" "1970-01-01T00:00:00.020Z".
Definition three := episode 3 "three" "1970-01-01T00:00:00.030Z".
Definition twoRevised := episode 2 "two, revised" "1970-01-01T00:00:00.005Z".
Definition threeRevised := episode 3 "three, revised" "1970-01-01T00:00:00.030Z".
Definition four := episode 4 "four" "1970-01-01T00:00:00.020Z".

Definition threeEpisodes : list PodcastindexOrgClient.Episode.t :=
  [one; two; three].

Definition laterEpisodes : list PodcastindexOrgClient.Episode.t :=
  [twoRevised; threeRevised; four].

(** A directory that lists one directory id twice. *)
Definition twins : list PodcastindexOrgClient.Episode.t :=
  [episode 7 "first" "1970-01-01T00:00:00.010Z";
   episode 7 "second" "1970-01-01T00:00:00.020Z"].

Definition revised : list PodcastindexOrgClient.Episode.t :=
  [episode 7 "revised" "1970-01-01T00:00:00.005Z"].

(** A store whose [putEpisodes] always fails (say, for lack of space) and
    is otherwise the implementation. *)
Definition fullDisk : Storage.OfflineStorageHandler Storage.Database :=
  {| Storage.addPodcast := Storage.addPodcast handler;
     Storage.updatePodcast := Storage.updatePodcast handler;
     Storage.deletePodcastById := Storage.deletePodcastById handler;
     Storage.getPodcasts := Storage.getPodcasts handler;
     Storage.getPodcast := Storage.getPodcast handler;
     Storage.getPodcastById := Storage.getPodcastById handler;
     Storage.putEpisodes := fun _ db => (Rejected BulkError, db);
     Storage.updateEpisode := Storage.updateEpisode handler;
     Storage.getEpisodes := Storage.getEpisodes handler;
     Storage.getAllEpisodes := Storage.getAllEpisodes handler;
     Storage.getEpisodesInProgress := Storage.getEpisodesInProgress handler;
     Storage.deleteDatabase := Storage.deleteDatabase handler |}.

(** A second podcast, of another feed. *)
Definition otherFeed : Controller.PodcastToAdd.t :=
  {| Controller.PodcastToAdd.feedUrl := "https://example.org/other.xml";
     Controller.PodcastToAdd.title := Some "Other";
     Controller.PodcastToAdd.description := None;
     Controller.PodcastToAdd.imageUrl := None;
     Controller.PodcastToAdd.subscribed := false;
     Controller.PodcastToAdd.podcastIndexOrgId := None |}.

(** An episode with audio; [one] is the same episode as the directory
    lists it without an enclosure. *)
Definition audio : Enclosure.t :=
  {| Enclosure.url := "https://example.com/one.mp3";
     Enclosure.length := 1024;
     Enclosure.type := "audio/mpeg" |}.

Definition withAudio : PodcastindexOrgClient.Episode.t :=
  {| PodcastindexOrgClient.Episode.id := 1;
     PodcastindexOrgClient.Episode.title := "one";
     PodcastindexOrgClient.Episode.link := "https://example.com/episode";
     PodcastindexOrgClient.Episode.description := "";
     PodcastindexOrgClient.Episode.pubDate := "1970-01-01T00:00:00.010Z";
     PodcastindexOrgClient.Episode.imageUrl := "";
     PodcastindexOrgClient.Episode.enclosure := Some audio;
     PodcastindexOrgClient.Episode.guid := "one" |}.

(** A directory that is down for one feed URL and answers every other
    feed URL with the given episodes. *)
Definition downFor (feedUrl : string)
           (episodes : list PodcastindexOrgClient.Episode.t)
  : PodcastindexOrgClient.t :=
  {| PodcastindexOrgClient.getPodcastByFeedUrl :=
       fun _ => Fulfilled directoryPodcast;
     PodcastindexOrgClient.getEpisodes :=
       fun f => if f =? feedUrl then Rejected (RequestError "503")
                else Fulfilled episodes |}.

(** The store after [addPodcast] of [toAdd] and then of [otherFeed], the
    directory holding [threeEpisodes] for both. *)
Definition addedBoth : Async.World Storage.Database :=
  snd (Controller.addPodcast handler (directory threeEpisodes) Date_parse
                             2000 otherFeed (added threeEpisodes)).

End Sample.

(* ================================================================== *)
(** * Arrays *)

Unset Implicit Arguments.

Section ArrayFacts.
Context {A : Type}.

Lemma findIndex_cases (p : A -> bool) (l : list A) :
  (Js.findIndex p l = -1 /\ existsb p l = false) \/
  (0 <= Js.findIndex p l /\ existsb p l = true /\
   exists x, nth_error l (Z.to_nat (Js.findIndex p l)) = Some x /\
             forall f, Js.set_nat l (Z.to_nat (Js.findIndex p l)) (f x)
                       = alterFirst p f l).
Proof.
  induction l as [|y l IH]; simpl.
  - left; auto.
  - destruct (p y) eqn:Hy; simpl.
    + right. repeat split; try lia. exists y. split; auto.
    + destruct IH as [[Hi He]|(Hi & He & x & Hx & Hset)].
      * left. rewrite Hi. simpl. auto.
      * right. destruct (Js.findIndex p l <? 0) eqn:Hlt; [lia|].
        repeat split; try lia; auto.
        exists x. rewrite Z2Nat.inj_add by lia. rewrite Nat.add_1_r. simpl.
        split; auto. intros f. now rewrite Hset.
Qed.

(** The assignment at the index [findIndex] found is [alterFirst]. *)
Lemma set_findIndex (p : A -> bool) (f : A -> A) (l : list A) :
  existsb p l = true ->
  (Js.findIndex p l >=? 0) = true /\
  exists x, Js.get l (Js.findIndex p l) = Some x /\
            Js.set l (Js.findIndex p l) (f x) = alterFirst p f l.
Proof.
  intros He. destruct (findIndex_cases p l) as [[_ H]|(Hi & _ & x & Hx & Hset)].
  - congruence.
  - split; [lia|]. exists x. unfold Js.get, Js.set.
    destruct (Js.findIndex p l <? 0) eqn:Hlt; [lia|]. auto.
Qed.

Lemma findIndex_none (p : A -> bool) (l : list A) :
  existsb p l = false -> (Js.findIndex p l >=? 0) = false.
Proof.
  intros He. destruct (findIndex_cases p l) as [[H _]|(_ & H & _)].
  - rewrite H. reflexivity.
  - congruence.
Qed.

Lemma alterFirst_none (p : A -> bool) (f : A -> A) (l : list A) :
  existsb p l = false -> alterFirst p f l = l.
Proof.
  induction l as [|x l IH]; simpl; auto.
  destruct (p x); simpl; [discriminate|]. intros H. now rewrite IH.
Qed.

Lemma alterFirst_app (p : A -> bool) (f : A -> A) (l1 l2 : list A) :
  alterFirst p f (l1 ++ l2)
  = if existsb p l1 then alterFirst p f l1 ++ l2
    else l1 ++ alterFirst p f l2.
Proof.
  induction l1 as [|x l1 IH]; simpl; auto.
  destruct (p x); simpl; auto. rewrite IH. now destruct (existsb p l1).
Qed.

Lemma alterFirst_length (p : A -> bool) (f : A -> A) (l : list A) :
  List.length (alterFirst p f l) = List.length l.
Proof.
  induction l as [|x l IH]; simpl; auto. destruct (p x); simpl; auto.
Qed.

(** Relation to the unaltered list, element by element. *)
Lemma alterFirst_Forall2 (R : A -> A -> Prop) (p : A -> bool) (f : A -> A)
      (l : list A) :
  (forall x, R x x) -> (forall x, p x = true -> R x (f x)) ->
  Forall2 R l (alterFirst p f l).
Proof.
  intros Hrefl Hf. induction l as [|x l IH]; simpl; [constructor|].
  destruct (p x) eqn:Hp; constructor; auto.
  clear IH. induction l; constructor; auto.
Qed.

Lemma insert_Permutation (cmp : A -> A -> Z) (x : A) (l : list A) :
  Permutation (Js.insert cmp x l) (x :: l).
Proof.
  induction l as [|y l IH]; simpl; auto.
  destruct (cmp x y <=? 0); auto.
  rewrite IH. apply perm_swap.
Qed.

(** Sorting an array rearranges it. *)
Lemma sort_Permutation (cmp : A -> A -> Z) (l : list A) :
  Permutation (Js.sort cmp l) l.
Proof.
  induction l as [|x l IH]; simpl; auto.
  rewrite insert_Permutation. now constructor.
Qed.

Lemma sort_In (cmp : A -> A -> Z) (l : list A) (x : A) :
  In x (Js.sort cmp l) <-> In x l.
Proof.
  split; apply Permutation_in; [|symmetry]; apply sort_Permutation.
Qed.

Lemma sort_length (cmp : A -> A -> Z) (l : list A) :
  List.length (Js.sort cmp l) = List.length l.
Proof. apply Permutation_length, sort_Permutation. Qed.

Lemma existsb_all_false (f : A -> bool) (l : list A) :
  (forall x, In x l -> f x = false) -> existsb f l = false.
Proof.
  induction l as [|x l IH]; simpl; intros H; auto.
  rewrite H by auto. simpl. apply IH. auto.
Qed.

Lemma map_unchanged (f : A -> A) (l : list A) :
  (forall x, In x l -> f x = x) -> map f l = l.
Proof.
  intros H. rewrite <- (map_id l) at 2. apply map_ext_in. exact H.
Qed.

End ArrayFacts.

(* ================================================================== *)
(** * Object stores *)

Section TableFacts.
Context {In R : Type}.
Variable keyPath : In -> option Z.
Variable primKey : R -> Z.
Variable stored : Z -> In -> R.
Variable unique : R -> R -> bool.
Hypothesis primKey_stored : forall k o, primKey (stored k o) = k.

Let writes (os : list In) (t : Dexie.Table R) : Dexie.Table R :=
  fold_left (fun t o => Dexie.write primKey stored
                                    (Dexie.keyFor keyPath o t) o t) os t.

Lemma keysAscending_cons (x : R) (rs : list R) :
  keysAscending primKey (x :: rs)
  <-> keysAscending primKey rs /\ Forall (fun y => primKey x < primKey y) rs.
Proof.
  unfold keysAscending; simpl. split.
  - intros H. apply StronglySorted_inv in H. destruct H as [H1 H2].
    split; auto. now rewrite Forall_map in H2.
  - intros [H1 H2]. constructor; auto. now rewrite Forall_map.
Qed.

Lemma keysAscending_app (l1 l2 : list R) :
  keysAscending primKey l1 -> keysAscending primKey l2 ->
  (forall x y, List.In x l1 -> List.In y l2 -> primKey x < primKey y) ->
  keysAscending primKey (l1 ++ l2).
Proof.
  induction l1 as [|x l1 IH]; simpl; intros H1 H2 H12; auto.
  apply keysAscending_cons in H1. destruct H1 as [H1 Hx].
  apply keysAscending_cons. split.
  - apply IH; auto.
  - apply Forall_app. split; auto.
    apply Forall_forall. intros y Hy. apply H12; auto.
Qed.

Lemma keysAscending_NoDup (rs : list R) :
  keysAscending primKey rs -> NoDup (map primKey rs).
Proof.
  induction rs as [|x rs IH]; simpl; intros H; [constructor|].
  apply keysAscending_cons in H. destruct H as [H Hx].
  constructor; auto. intros Hin. apply in_map_iff in Hin.
  destruct Hin as [y [Hy Hin]]. rewrite Forall_forall in Hx.
  specialize (Hx y Hin). lia.
Qed.

(** In a well-formed table a key names one record. *)
Lemma keysAscending_unique (rs : list R) (x y : R) :
  keysAscending primKey rs -> List.In x rs -> List.In y rs ->
  primKey x = primKey y -> x = y.
Proof.
  induction rs as [|z rs IH]; simpl; intros H Hx Hy Hk; [contradiction|].
  apply keysAscending_cons in H. destruct H as [H Hz].
  rewrite Forall_forall in Hz.
  destruct Hx as [->|Hx], Hy as [->|Hy]; auto.
  - specialize (Hz y Hy). lia.
  - specialize (Hz x Hx). lia.
Qed.

Lemma upsert_above (r : R) (rs : list R) :
  Forall (fun x => primKey x < primKey r) rs ->
  Dexie.upsert primKey r rs = rs ++ [r].
Proof.
  induction rs as [|x rs IH]; simpl; intros H; auto.
  inversion H; subst.
  destruct (primKey r <? primKey x) eqn:E1; [lia|].
  destruct (primKey r =? primKey x) eqn:E2; [lia|].
  now rewrite IH.
Qed.

Lemma upsert_replace (r : R) (rs : list R) :
  keysAscending primKey rs ->
  existsb (fun x => primKey x =? primKey r) rs = true ->
  Dexie.upsert primKey r rs
  = map (fun x => if primKey x =? primKey r then r else x) rs.
Proof.
  induction rs as [|x rs IH]; simpl; [discriminate|]. intros Hs He.
  apply keysAscending_cons in Hs. destruct Hs as [Hs Hx].
  rewrite Forall_forall in Hx.
  destruct (primKey r <? primKey x) eqn:E1.
  - exfalso. apply orb_true_iff in He. destruct He as [He|He]; [lia|].
    apply existsb_exists in He. destruct He as [y [Hy Hk]].
    specialize (Hx y Hy). lia.
  - destruct (primKey r =? primKey x) eqn:E2.
    + rewrite Z.eqb_sym, E2. f_equal. symmetry. apply map_unchanged.
      intros y Hy. specialize (Hx y Hy).
      destruct (primKey y =? primKey r) eqn:E3; auto. lia.
    + rewrite Z.eqb_sym, E2 in He. simpl in He.
      rewrite Z.eqb_sym, E2. f_equal. auto.
Qed.

Lemma upsert_In_self (r : R) (rs : list R) :
  List.In r (Dexie.upsert primKey r rs).
Proof.
  induction rs as [|x rs IH]; simpl; auto.
  destruct (primKey r <? primKey x); simpl; auto.
  destruct (primKey r =? primKey x); simpl; auto.
Qed.

(** A record stored under a key no record has joins the others. *)
Lemma upsert_fresh_Permutation (r : R) (rs : list R) :
  existsb (fun x => primKey x =? primKey r) rs = false ->
  Permutation (Dexie.upsert primKey r rs) (r :: rs).
Proof.
  induction rs as [|x rs IH]; simpl; intros He; auto.
  apply orb_false_iff in He. destruct He as [Hx He].
  destruct (primKey r <? primKey x); auto.
  rewrite Z.eqb_sym, Hx. rewrite IH by auto. apply perm_swap.
Qed.

Lemma upsert_fresh_ascending (r : R) (rs : list R) :
  keysAscending primKey rs ->
  existsb (fun x => primKey x =? primKey r) rs = false ->
  keysAscending primKey (Dexie.upsert primKey r rs).
Proof.
  induction rs as [|x rs IH]; simpl; intros Hs He.
  - apply keysAscending_cons. split; auto.
  - apply orb_false_iff in He. destruct He as [Hx He].
    pose proof Hs as Hs'.
    apply keysAscending_cons in Hs. destruct Hs as [Hs Hall].
    destruct (primKey r <? primKey x) eqn:E1.
    + apply keysAscending_cons. split; auto.
      constructor; [lia|]. eapply Forall_impl; [|exact Hall].
      simpl. intros; lia.
    + rewrite Z.eqb_sym, Hx. apply keysAscending_cons. split; auto.
      apply Forall_forall. intros y Hy.
      eapply Permutation_in in Hy; [|apply upsert_fresh_Permutation; auto].
      destruct Hy as [<-|Hy].
      * apply Z.eqb_neq in Hx. lia.
      * rewrite Forall_forall in Hall. auto.
Qed.

(** Without a unique index a put is never refused. *)
Lemma bulkPut_no_unique (os : list In) (t : Dexie.Table R) :
  (forall a b, unique a b = false) ->
  Dexie.bulkPut keyPath primKey stored unique os t
  = (Fulfilled tt, writes os t).
Proof.
  intros Hu. unfold Dexie.bulkPut. revert t.
  induction os as [|o os IH]; intros t; simpl; auto.
  unfold Dexie.put.
  rewrite existsb_all_false.
  - apply IH.
  - intros x _. rewrite Hu. apply andb_false_r.
Qed.

Lemma wfTable_map (g : R -> R) (t : Dexie.Table R) :
  wfTable primKey t -> (forall x, primKey (g x) = primKey x) ->
  wfTable primKey {| Dexie.rows := map g (Dexie.rows t);
                     Dexie.keyGenerator := Dexie.keyGenerator t |}.
Proof.
  intros [Hs Hk] Hg. split; simpl.
  - unfold keysAscending in *. rewrite map_map.
    erewrite map_ext; [exact Hs|]. intros; apply Hg.
  - rewrite Forall_map. eapply Forall_impl; [|exact Hk].
    simpl. intros x Hx. now rewrite Hg.
Qed.

(** Objects that carry distinct keys of stored records replace them. *)
Lemma writes_keyed (L : list In) (t : Dexie.Table R) :
  wfTable primKey t ->
  Forall (fun o => exists k, keyPath o = Some k
                             /\ List.In k (map primKey (Dexie.rows t))) L ->
  NoDup (map keyPath L) ->
  writes L t
  = {| Dexie.rows := map (replaced keyPath primKey stored L) (Dexie.rows t);
       Dexie.keyGenerator := Dexie.keyGenerator t |}.
Proof.
  revert t. induction L as [|o L IH]; intros t Hwf HL Hnd.
  - destruct t as [rs kg]; simpl. f_equal. symmetry.
    apply map_unchanged. reflexivity.
  - inversion HL as [|? ? [k [Hk Hin]] HL']; subst.
    inversion Hnd as [|? ? Hnotin Hnd']; subst.
    unfold writes in *. simpl.
    replace (Dexie.keyFor keyPath o t) with k
      by (unfold Dexie.keyFor; now rewrite Hk).
    set (g := fun x => if primKey x =? k then stored k o else x).
    assert (Hg : forall x, primKey (g x) = primKey x).
    { intros x. unfold g. destruct (primKey x =? k) eqn:E; auto.
      rewrite primKey_stored. lia. }
    assert (Hw : Dexie.write primKey stored k o t
                 = {| Dexie.rows := map g (Dexie.rows t);
                      Dexie.keyGenerator := Dexie.keyGenerator t |}).
    { unfold Dexie.write. destruct Hwf as [Hs Hkg]. f_equal.
      - rewrite upsert_replace; auto.
        + apply map_ext. intros x. unfold g. now rewrite primKey_stored.
        + apply existsb_exists. apply in_map_iff in Hin.
          destruct Hin as [x [Hx Hin]]. exists x. split; auto.
          rewrite primKey_stored. lia.
      - apply in_map_iff in Hin. destruct Hin as [x [Hx Hin]].
        rewrite Forall_forall in Hkg. specialize (Hkg x Hin). lia. }
    rewrite Hw. rewrite IH; simpl; auto.
    + f_equal. rewrite map_map. apply map_ext. intros x.
      unfold replaced at 2. simpl. rewrite Hk. rewrite (Z.eqb_sym k).
      unfold g. destruct (primKey x =? k) eqn:E.
      * apply Z.eqb_eq in E. subst k.
        unfold replaced. rewrite primKey_stored.
        destruct (find _ L) as [o'|] eqn:Hf; auto.
        apply find_some in Hf. destruct Hf as [Hin' Hk'].
        destruct (keyPath o') as [k'|] eqn:Hko; [|discriminate].
        apply Z.eqb_eq in Hk'. subst k'.
        exfalso. apply Hnotin. rewrite Hk, <- Hko. now apply in_map.
      * reflexivity.
    + now apply wfTable_map.
    + eapply Forall_impl; [|exact HL']. simpl.
      intros o' [k' [Hk' Hin']]. exists k'. split; auto.
      rewrite map_map. erewrite map_ext; [exact Hin'|]. apply Hg.
Qed.

(** Objects without a key are added under the keys the generator gives. *)
Lemma writes_fresh (N : list In) (t : Dexie.Table R) :
  wfTable primKey t ->
  Forall (fun o => keyPath o = None) N ->
  writes N t
  = {| Dexie.rows := Dexie.rows t ++ numbered stored (Dexie.keyGenerator t) N;
       Dexie.keyGenerator :=
         Dexie.keyGenerator t + Z.of_nat (List.length N) |}.
Proof.
  revert t. induction N as [|o N IH]; intros t Hwf HN.
  - destruct t as [rs kg]; simpl. f_equal; [now rewrite app_nil_r|lia].
  - inversion HN as [|? ? Hk HN']; subst.
    unfold writes in *. simpl fold_left.
    replace (Dexie.keyFor keyPath o t) with (Dexie.keyGenerator t)
      by (unfold Dexie.keyFor; now rewrite Hk).
    destruct Hwf as [Hs Hkg].
    assert (Hw : Dexie.write primKey stored (Dexie.keyGenerator t) o t
                 = {| Dexie.rows := Dexie.rows t
                                    ++ [stored (Dexie.keyGenerator t) o];
                      Dexie.keyGenerator := Dexie.keyGenerator t + 1 |}).
    { unfold Dexie.write. f_equal; [|lia].
      apply upsert_above. eapply Forall_impl; [|exact Hkg].
      simpl. intros x Hx. now rewrite primKey_stored. }
    rewrite Hw. rewrite IH; simpl; auto.
    + f_equal; [now rewrite <- app_assoc|lia].
    + split; simpl.
      * apply keysAscending_app; auto.
        -- apply keysAscending_cons. split; [constructor|constructor].
        -- intros x y Hx [<-|[]]. rewrite primKey_stored.
           rewrite Forall_forall in Hkg. auto.
      * apply Forall_app. split.
        -- eapply Forall_impl; [|exact Hkg]. simpl. intros; lia.
        -- constructor; auto. rewrite primKey_stored. lia.
Qed.

Lemma numbered_keys (k : Z) (N : list In) :
  Forall (fun r => k <= primKey r < k + Z.of_nat (List.length N))
         (numbered stored k N)
  /\ keysAscending primKey (numbered stored k N).
Proof.
  revert k. induction N as [|o N IH]; intros k; simpl.
  - split; constructor.
  - destruct (IH (k + 1)) as [H1 H2]. split.
    + constructor; [rewrite primKey_stored; lia|].
      eapply Forall_impl; [|exact H1]. simpl. intros; lia.
    + apply keysAscending_cons. split; auto.
      eapply Forall_impl; [|exact H1]. simpl. intros r Hr.
      rewrite primKey_stored. lia.
Qed.

Lemma wfTable_numbered (N : list In) (t : Dexie.Table R) :
  wfTable primKey t ->
  wfTable primKey
    {| Dexie.rows := Dexie.rows t ++ numbered stored (Dexie.keyGenerator t) N;
       Dexie.keyGenerator :=
         Dexie.keyGenerator t + Z.of_nat (List.length N) |}.
Proof.
  intros [Hs Hkg].
  destruct (numbered_keys (Dexie.keyGenerator t) N) as [H1 H2].
  rewrite Forall_forall in Hkg, H1. split; simpl.
  - apply keysAscending_app; auto.
    intros x y Hx Hy. specialize (Hkg x Hx). specialize (H1 y Hy). lia.
  - apply Forall_app. split; apply Forall_forall.
    + intros x Hx. specialize (Hkg x Hx). lia.
    + intros y Hy. specialize (H1 y Hy). lia.
Qed.

End TableFacts.

(* ================================================================== *)
(** * Reconciliation of directory episodes with stored ones *)

Lemma alterFirst_unique {A : Type} (key : A -> Z) (d : Z) (f : A -> A)
      (l : list A) :
  NoDup (map key l) ->
  alterFirst (fun s => key s =? d) f l
  = map (fun s => if key s =? d then f s else s) l.
Proof.
  induction l as [|x l IH]; simpl; intros H; auto.
  inversion H as [|? ? Hx Hl]; subst.
  destruct (key x =? d) eqn:E; f_equal; auto.
  symmetry. apply map_unchanged. intros y Hy.
  destruct (key y =? d) eqn:E2; auto.
  exfalso. apply Hx. apply Z.eqb_eq in E, E2. rewrite E, <- E2.
  now apply in_map.
Qed.

Section ReconcileFacts.
Variable Date_parse : string -> Date.
Variable podcast : Controller.PodcastView.

Local Abbreviation mapE := (Controller.mapPodcastIndexOrgEpisodeToStorage Date_parse).
Local Abbreviation rid := PodcastindexOrgClient.Episode.id.
Local Abbreviation reconcileAll := (fold_left (Controller.reconcile Date_parse podcast)).
Local Abbreviation matches e :=
  (fun s : Episode.t (option Z) => Episode.podcastIndexOrgId s =? rid e).

Lemma overlay_overlay {I : Type} (s : Episode.t I) (m m' : Controller.Mapped.t) :
  Controller.overlay (Controller.overlay s m) m' = Controller.overlay s m'.
Proof. reflexivity. Qed.

Lemma overlay_tagged (m m' : Controller.Mapped.t) (pid : Z) :
  Controller.overlay (Controller.tagged m pid) m' = Controller.tagged m' pid.
Proof. reflexivity. Qed.

Lemma overlay_sameRecord {I : Type} (s : Episode.t I) (m : Controller.Mapped.t) :
  sameRecord s (Controller.overlay s m).
Proof. repeat split. Qed.

Lemma sameRecord_refl {I : Type} (s : Episode.t I) : sameRecord s s.
Proof. repeat split. Qed.

Lemma sameRecord_trans {I : Type} (a b c : Episode.t I) :
  sameRecord a b -> sameRecord b c -> sameRecord a c.
Proof.
  unfold sameRecord. intros H1 H2.
  repeat match goal with H : _ /\ _ |- _ => destruct H end.
  repeat split; congruence.
Qed.

(** The callback of [forEach], without indices. *)
Lemma reconcile_unfold (l : list Controller.EpisodeView)
      (e : PodcastindexOrgClient.Episode.t) :
  Controller.reconcile Date_parse podcast l e
  = if existsb (matches e) l
    then alterFirst (matches e) (fun s => Controller.overlay s (mapE e)) l
    else l ++ [Controller.tagged (mapE e) (Podcast.id podcast)].
Proof.
  unfold Controller.reconcile. cbv zeta.
  destruct (existsb (matches e) l) eqn:He.
  - destruct (set_findIndex _ (fun s => Controller.overlay s (mapE e)) _ He)
      as [Hi [x [Hx Hset]]].
    rewrite Hi, Hx. exact Hset.
  - rewrite (findIndex_none _ _ He). reflexivity.
Qed.

Lemma overlaid_directoryId {I : Type} (s : Episode.t I)
      (e : PodcastindexOrgClient.Episode.t) :
  Episode.podcastIndexOrgId (overlaid Date_parse s e)
  = Episode.podcastIndexOrgId s.
Proof.
  unfold overlaid.
  destruct (Episode.podcastIndexOrgId s =? rid e) eqn:E; auto.
  simpl. apply Z.eqb_eq in E. auto.
Qed.

Lemma overlaid_sameRecord {I : Type} (s : Episode.t I)
      (e : PodcastindexOrgClient.Episode.t) :
  sameRecord s (overlaid Date_parse s e).
Proof.
  unfold overlaid. destruct (_ =? _).
  - apply overlay_sameRecord.
  - apply sameRecord_refl.
Qed.

Lemma overlay_overlaid {I : Type} (s : Episode.t I)
      (e : PodcastindexOrgClient.Episode.t) (m : Controller.Mapped.t) :
  Controller.overlay (overlaid Date_parse s e) m = Controller.overlay s m.
Proof. unfold overlaid. now destruct (_ =? _). Qed.

Lemma refreshed_directoryId {I : Type}
      (eps : list PodcastindexOrgClient.Episode.t) (s : Episode.t I) :
  Episode.podcastIndexOrgId (refreshed Date_parse eps s)
  = Episode.podcastIndexOrgId s.
Proof.
  revert s. induction eps as [|e eps IH]; intros s; simpl; auto.
  unfold refreshed in *. simpl. rewrite IH. apply overlaid_directoryId.
Qed.

Lemma refreshed_sameRecord {I : Type}
      (eps : list PodcastindexOrgClient.Episode.t) (s : Episode.t I) :
  sameRecord s (refreshed Date_parse eps s).
Proof.
  revert s. induction eps as [|e eps IH]; intros s.
  - apply sameRecord_refl.
  - unfold refreshed in *. simpl.
    eapply sameRecord_trans; [apply overlaid_sameRecord|apply IH].
Qed.

Lemma overlay_refreshed {I : Type}
      (eps : list PodcastindexOrgClient.Episode.t) (s : Episode.t I)
      (m : Controller.Mapped.t) :
  Controller.overlay (refreshed Date_parse eps s) m = Controller.overlay s m.
Proof.
  revert s. induction eps as [|e eps IH]; intros s; auto.
  unfold refreshed in *. simpl. rewrite IH. apply overlay_overlaid.
Qed.

Lemma refreshed_snoc {I : Type}
      (eps : list PodcastindexOrgClient.Episode.t)
      (e : PodcastindexOrgClient.Episode.t) (s : Episode.t I) :
  refreshed Date_parse (eps ++ [e]) s
  = overlaid Date_parse (refreshed Date_parse eps s) e.
Proof. unfold refreshed. now rewrite fold_left_app. Qed.

(** Refreshing again with the same directory list changes nothing. *)
Lemma refreshed_idempotent {I : Type}
      (eps : list PodcastindexOrgClient.Episode.t) (s : Episode.t I) :
  refreshed Date_parse eps (refreshed Date_parse eps s)
  = refreshed Date_parse eps s.
Proof.
  revert s. induction eps as [|e eps IH] using rev_ind; intros s; auto.
  rewrite !refreshed_snoc.
  set (y := refreshed Date_parse eps s).
  unfold overlaid at 2 3.
  destruct (Episode.podcastIndexOrgId y =? rid e) eqn:E.
  - unfold overlaid.
    rewrite refreshed_directoryId. simpl.
    rewrite Z.eqb_refl. rewrite overlay_refreshed. reflexivity.
  - unfold y at 1. rewrite IH. fold y. unfold overlaid. now rewrite E.
Qed.

Lemma refreshed_withId {I J : Type} (j : J)
      (eps : list PodcastindexOrgClient.Episode.t) (s : Episode.t I) :
  refreshed Date_parse eps (Episode.withId j s)
  = Episode.withId j (refreshed Date_parse eps s).
Proof.
  revert s. induction eps as [|e eps IH]; intros s; auto.
  unfold refreshed in *. simpl. rewrite <- IH. f_equal.
  unfold overlaid. simpl. now destruct (_ =? _).
Qed.

Lemma refreshed_no_match {I : Type}
      (eps : list PodcastindexOrgClient.Episode.t) (s : Episode.t I) :
  (forall e, List.In e eps -> rid e <> Episode.podcastIndexOrgId s) ->
  refreshed Date_parse eps s = s.
Proof.
  revert s. induction eps as [|e eps IH]; intros s H; auto.
  unfold refreshed in *. simpl.
  assert (Hs : overlaid Date_parse s e = s).
  { unfold overlaid. destruct (_ =? _) eqn:E; auto.
    apply Z.eqb_eq in E. exfalso. apply (H e); simpl; auto. }
  rewrite Hs. apply IH. intros e' He'. apply H. simpl; auto.
Qed.

Lemma existsb_matches (e : PodcastindexOrgClient.Episode.t)
      (l : list Controller.EpisodeView) :
  existsb (matches e) l
  = existsb (Z.eqb (rid e)) (map (@Episode.podcastIndexOrgId _) l).
Proof.
  induction l as [|x l IH]; simpl; auto.
  now rewrite IH, Z.eqb_sym.
Qed.

(** The whole [forEach] on stored episodes of distinct directory ids. *)
Lemma reconcile_distinct (eps : list PodcastindexOrgClient.Episode.t)
      (l : list Controller.EpisodeView) :
  NoDup (map (@Episode.podcastIndexOrgId _) l) ->
  reconcileAll eps l
  = map (refreshed Date_parse eps) l
    ++ appended Date_parse (Podcast.id podcast) eps
                (map (@Episode.podcastIndexOrgId _) l).
Proof.
  revert l. induction eps as [|e eps IH]; intros l Hnd.
  - simpl. rewrite app_nil_r. symmetry. now apply map_unchanged.
  - simpl fold_left. rewrite reconcile_unfold.
    simpl appended. rewrite <- existsb_matches.
    destruct (existsb (matches e) l) eqn:He.
    + rewrite (alterFirst_unique (@Episode.podcastIndexOrgId _)) by auto.
      assert (Hids : map (@Episode.podcastIndexOrgId _)
                         (map (fun s => if matches e s
                                        then Controller.overlay s (mapE e)
                                        else s) l)
                     = map (@Episode.podcastIndexOrgId _) l).
      { rewrite map_map. apply map_ext. intros s.
        destruct (Episode.podcastIndexOrgId s =? rid e) eqn:E; auto.
        simpl. apply Z.eqb_eq in E. auto. }
      rewrite IH by (rewrite Hids; auto).
      rewrite Hids, map_map. reflexivity.
    + rewrite IH.
      * rewrite !map_app. simpl. rewrite <- app_assoc. simpl.
        f_equal. apply map_ext_in. intros s Hs.
        unfold refreshed. simpl. f_equal. unfold overlaid.
        destruct (Episode.podcastIndexOrgId s =? rid e) eqn:E; auto.
        exfalso. assert (existsb (matches e) l = true); [|congruence].
        apply existsb_exists. eauto.
      * rewrite map_app. simpl. apply NoDup_app; auto.
        -- constructor; [simpl; tauto|constructor].
        -- intros d Hd [<-|[]]. apply in_map_iff in Hd.
           destruct Hd as [s [Hs Hin]].
           assert (existsb (matches e) l = true); [|congruence].
           apply existsb_exists. exists s. split; auto.
           now apply Z.eqb_eq.
Qed.

Lemma existsb_eqb_In (d : Z) (seen : list Z) :
  existsb (Z.eqb d) seen = true <-> List.In d seen.
Proof.
  rewrite existsb_exists. split.
  - intros [x [Hx E]]. apply Z.eqb_eq in E. now subst.
  - intros H. exists d. split; auto. apply Z.eqb_refl.
Qed.

Lemma overlaid_other {I : Type} (s : Episode.t I)
      (e : PodcastindexOrgClient.Episode.t) :
  Episode.podcastIndexOrgId s <> rid e -> overlaid Date_parse s e = s.
Proof.
  intros H. unfold overlaid. destruct (_ =? _) eqn:E; auto.
  apply Z.eqb_eq in E. contradiction.
Qed.

(** The appended episodes: new records of the podcast, of directory ids
    not seen before, up to date with the directory list. *)
Lemma appended_facts (eps : list PodcastindexOrgClient.Episode.t)
      (seen : list Z) (y : Controller.EpisodeView) :
  List.In y (appended Date_parse (Podcast.id podcast) eps seen) ->
  refreshed Date_parse eps y = y
  /\ ~ List.In (Episode.podcastIndexOrgId y) seen
  /\ Episode.id y = None
  /\ Episode.podcastId y = Podcast.id podcast.
Proof.
  revert seen. induction eps as [|e eps IH]; intros seen Hy; simpl in Hy.
  - contradiction.
  - destruct (existsb (Z.eqb (rid e)) seen) eqn:He.
    + destruct (IH _ Hy) as (H1 & H2 & H3 & H4). repeat split; auto.
      unfold refreshed in *. simpl. rewrite overlaid_other; auto.
      intros E. apply H2. rewrite E. now apply existsb_eqb_In.
    + destruct Hy as [<-|Hy].
      * set (t := Controller.tagged (mapE e) (Podcast.id podcast)).
        pose proof (refreshed_sameRecord eps t) as Hsame.
        pose proof (refreshed_directoryId eps t) as Hd.
        destruct Hsame as (Hid & Hpid & _).
        repeat split; auto.
        -- change (refreshed Date_parse (e :: eps) (refreshed Date_parse eps t))
             with (refreshed Date_parse eps
                     (overlaid Date_parse (refreshed Date_parse eps t) e)).
           unfold overlaid. rewrite Hd. simpl. rewrite Z.eqb_refl.
           rewrite overlay_refreshed. reflexivity.
        -- rewrite Hd. simpl. intros Hin.
           apply existsb_eqb_In in Hin. congruence.
      * destruct (IH _ Hy) as (H1 & H2 & H3 & H4). repeat split; auto.
        -- unfold refreshed in *. simpl. rewrite overlaid_other; auto.
           intros E. apply H2. rewrite E. apply in_or_app. simpl. auto.
        -- intros Hin. apply H2. apply in_or_app. auto.
Qed.

Lemma appended_NoDup (eps : list PodcastindexOrgClient.Episode.t)
      (seen : list Z) :
  NoDup (map (@Episode.podcastIndexOrgId _)
             (appended Date_parse (Podcast.id podcast) eps seen)).
Proof.
  revert seen. induction eps as [|e eps IH]; intros seen; simpl.
  - constructor.
  - destruct (existsb (Z.eqb (rid e)) seen); auto.
    simpl. constructor; auto.
    rewrite refreshed_directoryId. simpl. intros Hin.
    apply in_map_iff in Hin. destruct Hin as [y [Hd Hy]].
    apply appended_facts in Hy. destruct Hy as (_ & H2 & _).
    apply H2. rewrite Hd. apply in_or_app. simpl. auto.
Qed.

(** Every directory episode has a stored counterpart afterwards. *)
Lemma appended_covers (eps : list PodcastindexOrgClient.Episode.t)
      (seen : list Z) (e : PodcastindexOrgClient.Episode.t) :
  List.In e eps ->
  List.In (rid e) seen
  \/ List.In (rid e)
             (map (@Episode.podcastIndexOrgId _)
                  (appended Date_parse (Podcast.id podcast) eps seen)).
Proof.
  revert seen. induction eps as [|e' eps IH]; intros seen He; simpl in *.
  - contradiction.
  - destruct (existsb (Z.eqb (rid e')) seen) eqn:E.
    + destruct He as [->|He]; auto. left. now apply existsb_eqb_In.
    + simpl. rewrite refreshed_directoryId. simpl.
      destruct He as [->|He]; auto.
      destruct (IH (seen ++ [rid e']) He) as [H|H]; auto.
      apply in_app_or in H. destruct H as [H|[H|[]]]; auto.
Qed.

(** Nothing is appended when every directory id is stored already. *)
Lemma appended_covered (eps : list PodcastindexOrgClient.Episode.t)
      (seen : list Z) :
  (forall e, List.In e eps -> List.In (rid e) seen) ->
  appended Date_parse (Podcast.id podcast) eps seen = [].
Proof.
  induction eps as [|e eps IH]; intros H; simpl; auto.
  replace (existsb (Z.eqb (rid e)) seen) with true.
  - apply IH. intros e' He'. apply H. simpl; auto.
  - symmetry. apply existsb_eqb_In. apply H. simpl; auto.
Qed.

(** Only the set of stored directory ids matters. *)
Lemma appended_ext (eps : list PodcastindexOrgClient.Episode.t)
      (seen seen' : list Z) :
  (forall d, List.In d seen <-> List.In d seen') ->
  appended Date_parse (Podcast.id podcast) eps seen
  = appended Date_parse (Podcast.id podcast) eps seen'.
Proof.
  revert seen seen'. induction eps as [|e eps IH]; intros seen seen' H; auto.
  simpl.
  assert (E : existsb (Z.eqb (rid e)) seen = existsb (Z.eqb (rid e)) seen').
  { destruct (existsb (Z.eqb (rid e)) seen) eqn:E1;
      destruct (existsb (Z.eqb (rid e)) seen') eqn:E2; auto.
    - apply existsb_eqb_In, H, existsb_eqb_In in E1. congruence.
    - apply existsb_eqb_In, H, existsb_eqb_In in E2. congruence. }
  rewrite E. destruct (existsb (Z.eqb (rid e)) seen'); auto.
  f_equal. apply IH. intros d. rewrite !in_app_iff. now rewrite H.
Qed.

Lemma Forall2_sameRecord_trans {I : Type} (a b c : list (Episode.t I)) :
  Forall2 sameRecord a b -> Forall2 sameRecord b c -> Forall2 sameRecord a c.
Proof.
  intros Hab. revert c. induction Hab; intros c Hbc; inversion Hbc; subst.
  - constructor.
  - constructor; eauto using sameRecord_trans.
Qed.

(** The whole [forEach] on any stored episodes: the stored episodes stay
    the same records, in the same places, and new records of the podcast
    follow them. *)
Lemma reconcile_shape (eps : list PodcastindexOrgClient.Episode.t)
      (l : list Controller.EpisodeView) :
  exists L N,
    reconcileAll eps l = L ++ N
    /\ Forall2 sameRecord l L
    /\ Forall (fun n => Episode.id n = None
                        /\ Episode.podcastId n = Podcast.id podcast) N.
Proof.
  revert l. induction eps as [|e eps IH]; intros l.
  - exists l, []. rewrite app_nil_r. repeat split; auto.
    induction l; constructor; auto using sameRecord_refl.
  - simpl fold_left. rewrite reconcile_unfold.
    destruct (existsb (matches e) l).
    + destruct (IH (alterFirst (matches e)
                      (fun s => Controller.overlay s (mapE e)) l))
        as (L & N & Heq & HL & HN).
      exists L, N. repeat split; auto.
      eapply Forall2_sameRecord_trans; [|exact HL].
      apply alterFirst_Forall2.
      * apply sameRecord_refl.
      * intros; apply overlay_sameRecord.
    + destruct (IH (l ++ [Controller.tagged (mapE e) (Podcast.id podcast)]))
        as (L & N & Heq & HL & HN).
      apply Forall2_app_inv_l in HL.
      destruct HL as (L1 & L2 & HL1 & HL2 & ->).
      inversion HL2 as [|? t' ? ? Ht Hnil]; subst.
      inversion Hnil; subst.
      exists L1, (t' :: N). repeat split; auto.
      * rewrite Heq. now rewrite <- app_assoc.
      * constructor; auto. destruct Ht as (H1 & H2 & _).
        simpl in H1, H2. split; congruence.
Qed.

End ReconcileFacts.

(* ================================================================== *)
(** * The refresh on the implementation of the store *)

Section RefreshSettles.
Variable podcastIndexOrgClient : PodcastindexOrgClient.t.
Variable Date_parse : string -> Date.

Local Abbreviation handler := Storage.Implementation.handler.
Local Abbreviation World := (Async.World Storage.Database).

(** A pass of the loop never rejects; once its write has settled the
    store is [refreshed_store] of the store it started from. *)
Lemma refresh_settles (podcast : Controller.PodcastView) (w : World) :
  fst (Controller.refresh handler podcastIndexOrgClient Date_parse podcast w)
  = Fulfilled tt
  /\ Async.settle
       (snd (Controller.refresh handler podcastIndexOrgClient Date_parse
                                podcast w))
     = refreshed_store podcastIndexOrgClient Date_parse (Async.settle w)
                       podcast.
Proof.
  unfold Controller.refresh, refreshed_store, storedEpisodes,
    Controller.getEpisodes, Async.bind, Async.try, Async.request, Async.await,
    Async.detach, Async.ret.
  destruct (PodcastindexOrgClient.getEpisodes podcastIndexOrgClient
              (Podcast.feedUrl podcast)) as [episodes|err]; simpl.
  - destruct (Dexie.first _) as [p|]; simpl; auto.
  - auto.
Qed.

Lemma forIn_refresh_settles (podcasts : list Controller.PodcastView)
      (w : World) :
  fst (Async.forIn podcasts
         (Controller.refresh handler podcastIndexOrgClient Date_parse) w)
  = Fulfilled tt
  /\ Async.settle
       (snd (Async.forIn podcasts
               (Controller.refresh handler podcastIndexOrgClient Date_parse)
               w))
     = fold_left (refreshed_store podcastIndexOrgClient Date_parse)
                 podcasts (Async.settle w).
Proof.
  revert w. induction podcasts as [|p ps IH]; intros w; simpl; auto.
  unfold Async.bind.
  destruct (refresh_settles p w) as [H1 H2].
  destruct (Controller.refresh handler podcastIndexOrgClient Date_parse p w)
    as [r w'].
  simpl in H1, H2. subst r. rewrite <- H2. apply IH.
Qed.

(** [updatePodcasts] on the implementation: it is fulfilled, and once
    its writes have settled every stored podcast has been refreshed in
    turn. *)
Lemma updatePodcasts_settles (w : World) :
  fst (Controller.updatePodcasts handler podcastIndexOrgClient Date_parse w)
  = Fulfilled tt
  /\ Async.settle
       (snd (Controller.updatePodcasts handler podcastIndexOrgClient
                                       Date_parse w))
     = fold_left (refreshed_store podcastIndexOrgClient Date_parse)
                 (Dexie.rows (Storage.podcasts (Async.settle w)))
                 (Async.settle w).
Proof.
  unfold Controller.updatePodcasts, Async.bind, Async.await. simpl.
  apply (forIn_refresh_settles
           (Dexie.rows (Storage.podcasts (Async.settle w)))
           (Async.quiet (Async.settle w))).
Qed.

End RefreshSettles.

(* ================================================================== *)
(** * Reads and writes of the store *)

Section StoreFacts.

Local Abbreviation view :=
  (fun e : Episode.t Z => Episode.withId (Some (Episode.id e)) e).
Local Abbreviation putAll :=
  (fold_left (fun t o => Dexie.write (@Episode.id Z) Episode.withId
                           (Dexie.keyFor (@Episode.id (option Z)) o t) o t)).

Lemma eqb_KNumber (a b : Z) :
  Dexie.eqb (Dexie.KNumber a) (Dexie.KNumber b) = (a =? b).
Proof.
  unfold Dexie.eqb. simpl. destruct (Z.compare_spec a b); symmetry.
  - now apply Z.eqb_eq.
  - apply Z.eqb_neq. lia.
  - apply Z.eqb_neq. lia.
Qed.

Lemma eqb_KString (a b : string) :
  Dexie.eqb (Dexie.KString a) (Dexie.KString b) = (a =? b)%string.
Proof.
  unfold Dexie.eqb. simpl.
  destruct (String.eqb_spec a b) as [->|Hne].
  - pose proof (String.compare_antisym b b) as H.
    destruct (String.compare b b); auto; discriminate.
  - destruct (String.compare a b) eqn:E; auto.
    apply String.compare_eq_iff in E. contradiction.
Qed.

(** Under the unique index a feed URL finds its podcast. *)
Lemma first_by_feedUrl (t : Dexie.Table (Podcast.t Z)) (p : Podcast.t Z) :
  NoDup (map (@Podcast.feedUrl Z) (Dexie.rows t)) ->
  List.In p (Dexie.rows t) ->
  Dexie.first (Dexie.equals Storage.feedUrlIndex
                            (Dexie.KString (Podcast.feedUrl p)) t)
  = Some p.
Proof.
  unfold Dexie.first, Dexie.collect, Dexie.equals, Storage.feedUrlIndex.
  simpl. induction (Dexie.rows t) as [|x rs IH]; simpl; intros Hnd Hin.
  - contradiction.
  - inversion Hnd as [|? ? Hx Hrs]; subst. rewrite eqb_KString.
    destruct (String.eqb_spec (Podcast.feedUrl x) (Podcast.feedUrl p))
      as [E|E]; simpl.
    + destruct Hin as [->|Hin]; auto.
      exfalso. apply Hx. rewrite E. now apply in_map.
    + destruct Hin as [->|Hin]; [congruence|]. auto.
Qed.

Lemma first_by_feedUrl_none (t : Dexie.Table (Podcast.t Z)) (f : string) :
  ~ List.In f (map (@Podcast.feedUrl Z) (Dexie.rows t)) ->
  Dexie.first (Dexie.equals Storage.feedUrlIndex (Dexie.KString f) t) = None.
Proof.
  unfold Dexie.first, Dexie.collect, Dexie.equals, Storage.feedUrlIndex.
  simpl. induction (Dexie.rows t) as [|x rs IH]; simpl; intros Hin; auto.
  rewrite eqb_KString.
  destruct (String.eqb_spec (Podcast.feedUrl x) f) as [E|E]; simpl.
  - exfalso. apply Hin. auto.
  - apply IH. intros H. apply Hin. auto.
Qed.

(** The records [where('podcastId').equals(id)] selects. *)
Lemma equals_podcastId (podcastId : Z) (db : Storage.Database) :
  Dexie.entries (Dexie.equals Storage.podcastIdIndex
                              (Dexie.KNumber podcastId)
                              (Storage.episodes db))
  = episodesOf podcastId db.
Proof.
  unfold Dexie.equals, episodesOf, Storage.podcastIdIndex. simpl.
  apply filter_ext. intros e. apply eqb_KNumber.
Qed.

(** The store's [getEpisodes]: the episodes of the podcast, rearranged. *)
Lemma getEpisodes_Permutation (podcastId : Z) (db : Storage.Database) :
  exists es,
    Storage.Implementation.getEpisodes podcastId db = (Fulfilled es, db)
    /\ Permutation es (episodesOf podcastId db).
Proof.
  eexists. split; [reflexivity|].
  change (Permutation
            (Js.sort (Dexie.sorter (-1) (@Episode.pubDate Z))
               (rev (Dexie.entries
                       (Dexie.equals Storage.podcastIdIndex
                                     (Dexie.KNumber podcastId)
                                     (Storage.episodes db)))))
            (episodesOf podcastId db)).
  rewrite sort_Permutation. rewrite equals_podcastId.
  symmetry. apply Permutation_rev.
Qed.

Lemma storedEpisodes_Permutation (p : Podcast.t Z) (db : Storage.Database) :
  NoDup (map (@Podcast.feedUrl Z) (Dexie.rows (Storage.podcasts db))) ->
  List.In p (Dexie.rows (Storage.podcasts db)) ->
  exists es,
    storedEpisodes (Podcast.feedUrl p) db = map view es
    /\ Permutation es (episodesOf (Podcast.id p) db).
Proof.
  intros Hnd Hin. unfold storedEpisodes.
  rewrite first_by_feedUrl by auto.
  destruct (getEpisodes_Permutation (Podcast.id p) db) as [es [Hes Hperm]].
  exists es. split; auto.
  unfold Storage.Implementation.getEpisodes in Hes. congruence.
Qed.

Lemma withId_view (x : Episode.t Z) : Episode.withId (Episode.id x) (view x) = x.
Proof. now destruct x. Qed.

Lemma sameRecord_withId (x : Episode.t Z) (o : Episode.t (option Z)) :
  sameRecord (view x) o -> sameRecord x (Episode.withId (Episode.id x) o).
Proof.
  unfold sameRecord. simpl. intros H.
  repeat match goal with H : _ /\ _ |- _ => destruct H end.
  repeat split; auto.
Qed.

Lemma Forall2_sameRecord_ids {I : Type} (a b : list (Episode.t I)) :
  Forall2 sameRecord a b -> map (@Episode.id I) a = map (@Episode.id I) b.
Proof.
  induction 1 as [|x y a b Hxy Hab IH]; simpl; auto.
  destruct Hxy as [Hid _]. congruence.
Qed.

Lemma Forall2_In_r {A B : Type} (R : A -> B -> Prop) (a : list A)
      (b : list B) (y : B) :
  Forall2 R a b -> List.In y b -> exists x, List.In x a /\ R x y.
Proof.
  induction 1 as [|x0 y0 a b Hxy Hab IH]; simpl; intros Hin; [contradiction|].
  destruct Hin as [<-|Hin]; eauto.
  destruct (IH Hin) as [x [Hx HR]]. eauto.
Qed.

Lemma episodesOf_In (podcastId : Z) (db : Storage.Database)
      (x : Episode.t Z) :
  List.In x (episodesOf podcastId db)
  <-> List.In x (Dexie.rows (Storage.episodes db))
      /\ Episode.podcastId x = podcastId.
Proof.
  unfold episodesOf. rewrite filter_In. now rewrite Z.eqb_eq.
Qed.

Lemma episodesOf_NoDup_ids (podcastId : Z) (db : Storage.Database) :
  wfTable (@Episode.id Z) (Storage.episodes db) ->
  NoDup (map (@Episode.id Z) (episodesOf podcastId db)).
Proof.
  intros [Hs _]. apply keysAscending_NoDup in Hs.
  unfold episodesOf.
  induction (Dexie.rows (Storage.episodes db)) as [|x rs IH]; simpl.
  - constructor.
  - inversion Hs as [|? ? Hx Hrs]; subst.
    destruct (Episode.podcastId x =? podcastId); simpl; auto.
    constructor; auto. intros Hin. apply Hx.
    apply in_map_iff in Hin. destruct Hin as [y [Hy Hin]].
    apply filter_In in Hin. rewrite <- Hy. apply in_map. tauto.
Qed.

(** Writing back a reconciled list: [L] holds the stored episodes of the
    podcast (the same records, in some order), [N] the new ones. *)
Lemma putEpisodes_reconciled (podcastId : Z) (db : Storage.Database)
      (es : list (Episode.t Z)) (L N : list (Episode.t (option Z))) :
  wfTable (@Episode.id Z) (Storage.episodes db) ->
  Permutation es (episodesOf podcastId db) ->
  Forall2 sameRecord (map view es) L ->
  Forall (fun n => Episode.id n = None) N ->
  Storage.Implementation.putEpisodes (L ++ N) db
  = (Fulfilled tt,
     Storage.withEpisodes db
       {| Dexie.rows :=
            map (replaced (@Episode.id (option Z)) (@Episode.id Z)
                          Episode.withId L)
                (Dexie.rows (Storage.episodes db))
            ++ numbered Episode.withId
                        (Dexie.keyGenerator (Storage.episodes db)) N;
          Dexie.keyGenerator :=
            Dexie.keyGenerator (Storage.episodes db)
            + Z.of_nat (List.length N) |}).
Proof.
  intros Hwf Hperm HL HN.
  unfold Storage.Implementation.putEpisodes.
  rewrite bulkPut_no_unique by reflexivity.
  f_equal. f_equal. rewrite fold_left_app.
  pose proof (Forall2_sameRecord_ids _ _ HL) as Hids.
  rewrite map_map in Hids. simpl in Hids.
  rewrite (@writes_keyed _ _ (@Episode.id (option Z)) (@Episode.id Z)
                         (@Episode.withId (option Z) Z)
                         (fun _ _ => eq_refl) L (Storage.episodes db)).
  - rewrite (@writes_fresh _ _ (@Episode.id (option Z)) (@Episode.id Z)
                           (@Episode.withId (option Z) Z)
                           (fun _ _ => eq_refl)); auto.
    apply wfTable_map; auto.
    intros x. unfold replaced. now destruct (find _ L).
  - exact Hwf.
  - apply Forall_forall. intros o Ho.
    destruct (@Forall2_In_r _ _ _ _ _ o HL Ho) as [v [Hv [Hid _]]].
    apply in_map_iff in Hv. destruct Hv as [s [<- Hs]].
    exists (Episode.id s). split; auto.
    apply in_map. eapply Permutation_in in Hs; [|exact Hperm].
    apply episodesOf_In in Hs. tauto.
  - rewrite <- Hids. rewrite <- (map_map (@Episode.id Z) Some).
    apply Finite.Injective_map_NoDup; [intros a b; congruence|].
    eapply Permutation_NoDup;
      [apply Permutation_map, Permutation_sym, Hperm|].
    now apply episodesOf_NoDup_ids.
Qed.

Lemma find_by_id (h : Episode.t Z -> Episode.t (option Z))
      (es : list (Episode.t Z)) (x : Episode.t Z) :
  (forall s, Episode.id (h s) = Some (Episode.id s)) ->
  NoDup (map (@Episode.id Z) es) ->
  List.In x es ->
  find (fun o => match Episode.id o with
                 | Some k => k =? Episode.id x
                 | None => false
                 end) (map h es)
  = Some (h x).
Proof.
  intros Hh. induction es as [|s es IH]; simpl; intros Hnd Hin.
  - contradiction.
  - inversion Hnd as [|? ? Hs Hes]; subst. rewrite Hh.
    destruct Hin as [->|Hin].
    + now rewrite Z.eqb_refl.
    + destruct (Episode.id s =? Episode.id x) eqn:E; auto.
      exfalso. apply Hs. apply Z.eqb_eq in E. rewrite E. now apply in_map.
Qed.

Lemma Forall2_map_same {A B : Type} (R : A -> B -> Prop) (f : A -> B)
      (l : list A) :
  (forall x, R x (f x)) -> Forall2 R l (map f l).
Proof. intros H. induction l; simpl; constructor; auto. Qed.

(** Records that are left alone by [g] pass a filter as before. *)
Lemma filter_map_frame {A : Type} (q : A -> bool) (g : A -> A) (l : list A) :
  (forall x, List.In x l -> q (g x) = q x /\ (q x = true -> g x = x)) ->
  filter q (map g l) = filter q l.
Proof.
  induction l as [|x l IH]; simpl; intros H; auto.
  destruct (H x (or_introl eq_refl)) as [H1 H2]. rewrite H1.
  destruct (q x) eqn:E.
  - rewrite H2 by auto. f_equal. apply IH. auto.
  - apply IH. auto.
Qed.

End StoreFacts.

(* ================================================================== *)
(** * One pass of the refresh on the store *)

Section RefreshFacts.
Variable podcastIndexOrgClient : PodcastindexOrgClient.t.
Variable Date_parse : string -> Date.

Local Abbreviation view :=
  (fun e : Episode.t Z => Episode.withId (Some (Episode.id e)) e).
Local Abbreviation step :=
  (refreshed_store podcastIndexOrgClient Date_parse).
Local Abbreviation fetch p :=
  (PodcastindexOrgClient.getEpisodes podcastIndexOrgClient (Podcast.feedUrl p)).

(** A pass leaves every stored episode the same record, touches only the
    episodes of its podcast, and adds new records of its podcast. *)
Lemma refreshed_store_shape (db : Storage.Database) (p : Podcast.t Z) :
  wfDatabase db ->
  List.In p (Dexie.rows (Storage.podcasts db)) ->
  exists g N,
    step db p
    = Storage.withEpisodes db
        {| Dexie.rows :=
             map g (Dexie.rows (Storage.episodes db))
             ++ numbered Episode.withId
                         (Dexie.keyGenerator (Storage.episodes db)) N;
           Dexie.keyGenerator :=
             Dexie.keyGenerator (Storage.episodes db)
             + Z.of_nat (List.length N) |}
    /\ (forall x, Episode.id (g x) = Episode.id x)
    /\ (forall x, List.In x (Dexie.rows (Storage.episodes db)) ->
                  sameRecord x (g x)
                  /\ (Episode.podcastId x <> Podcast.id p -> g x = x))
    /\ Forall (fun n : Episode.t (option Z) =>
                 Episode.id n = None
                 /\ Episode.podcastId n = Podcast.id p) N.
Proof.
  intros (Hwp & Hwe & Hfeed) Hin. unfold refreshed_store.
  destruct (fetch p) as [eps|err].
  - destruct (storedEpisodes_Permutation p db Hfeed Hin) as [es [Hes Hperm]].
    rewrite Hes.
    destruct (reconcile_shape Date_parse p eps (map view es))
      as (L & N & Heq & HL & HN).
    rewrite Heq.
    rewrite (@putEpisodes_reconciled (Podcast.id p) db es L N); auto.
    + exists (replaced (@Episode.id (option Z)) (@Episode.id Z)
                       (@Episode.withId (option Z) Z) L), N.
      split; [reflexivity|]. split; [|split; [|exact HN]].
      { intros x. unfold replaced. now destruct (find _ L). }
      intros x H. split.
      * unfold replaced.
        destruct (find _ L) as [o|] eqn:Hf; [|apply sameRecord_refl].
        apply find_some in Hf. destruct Hf as [Ho Hk].
        destruct (Episode.id o) as [k|] eqn:Hid; [|discriminate].
        apply Z.eqb_eq in Hk. subst k.
        destruct (@Forall2_In_r _ _ _ _ _ o HL Ho) as [v [Hv Hsame]].
        apply in_map_iff in Hv. destruct Hv as [s [<- Hs]].
        assert (s = x) as ->.
        { destruct Hwe as [Hasc _].
          eapply keysAscending_unique; [exact Hasc| |assumption|].
          - eapply Permutation_in in Hs; [|exact Hperm].
            apply episodesOf_In in Hs. tauto.
          - destruct Hsame as [Hi _]. simpl in Hi. congruence. }
        now apply sameRecord_withId.
      * intros Hne. unfold replaced.
        destruct (find _ L) as [o|] eqn:Hf; auto.
        apply find_some in Hf. destruct Hf as [Ho Hk].
        destruct (Episode.id o) as [k|] eqn:Hid; [|discriminate].
        apply Z.eqb_eq in Hk. subst k.
        destruct (@Forall2_In_r _ _ _ _ _ o HL Ho) as [v [Hv Hsame]].
        apply in_map_iff in Hv. destruct Hv as [s [<- Hs]].
        eapply Permutation_in in Hs; [|exact Hperm].
        apply episodesOf_In in Hs. destruct Hs as [Hs Hpid].
        assert (s = x) as ->.
        { destruct Hwe as [Hasc _].
          eapply keysAscending_unique; [exact Hasc|assumption|assumption|].
          destruct Hsame as [Hi _]. simpl in Hi. congruence. }
        contradiction.
    + eapply Forall_impl; [|exact HN]. simpl. tauto.
  - exists (fun x => x), []. simpl.
    split; [|split; [|split]]; auto.
    + destruct db as [ps [rs kg]]. unfold Storage.withEpisodes. simpl.
      rewrite map_id, app_nil_r, Z.add_0_r. reflexivity.
    + intros x _. split; auto. apply sameRecord_refl.
Qed.

Lemma refreshed_store_podcasts (db : Storage.Database) (p : Podcast.t Z) :
  Storage.podcasts (step db p) = Storage.podcasts db.
Proof.
  unfold refreshed_store. destruct (fetch p); auto.
  unfold Storage.Implementation.putEpisodes.
  now destruct (Dexie.bulkPut _ _ _ _ _ _).
Qed.

Lemma refreshed_store_rejected (db : Storage.Database) (p : Podcast.t Z)
      (err : Error) :
  fetch p = Rejected err -> step db p = db.
Proof. unfold refreshed_store. now intros ->. Qed.

Lemma numbered_podcastId (k : Z) (N : list (Episode.t (option Z)))
      (q : Z) :
  Forall (fun n => Episode.podcastId n = q) N ->
  Forall (fun r : Episode.t Z => Episode.podcastId r = q)
         (numbered Episode.withId k N).
Proof.
  revert k. induction N as [|n N IH]; intros k H; simpl; constructor.
  - now inversion H.
  - apply IH. now inversion H.
Qed.

Lemma filter_none {A : Type} (q : A -> bool) (l : list A) :
  Forall (fun x => q x = false) l -> filter q l = [].
Proof.
  induction 1 as [|x l Hx Hl IH]; simpl; auto. now rewrite Hx.
Qed.

Lemma filter_all {A : Type} (q : A -> bool) (l : list A) :
  Forall (fun x => q x = true) l -> filter q l = l.
Proof.
  induction 1 as [|x l Hx Hl IH]; simpl; auto. rewrite Hx. now f_equal.
Qed.

(** A pass keeps the database well formed. *)
Lemma refreshed_store_wf (db : Storage.Database) (p : Podcast.t Z) :
  wfDatabase db -> List.In p (Dexie.rows (Storage.podcasts db)) ->
  wfDatabase (step db p).
Proof.
  intros Hwf Hin.
  destruct (refreshed_store_shape db p Hwf Hin) as (g & N & Heq & Hg & _).
  destruct Hwf as (Hwp & Hwe & Hfeed).
  rewrite Heq. split; [exact Hwp|]. split; [|exact Hfeed].
  apply (@wfTable_numbered _ _ (@Episode.id Z)
           (@Episode.withId (option Z) Z) (fun _ _ => eq_refl) N
           {| Dexie.rows := map g (Dexie.rows (Storage.episodes db));
              Dexie.keyGenerator :=
                Dexie.keyGenerator (Storage.episodes db) |}).
  now apply wfTable_map.
Qed.

(** A pass leaves the episodes of every other podcast as they are. *)
Lemma refreshed_store_frame (db : Storage.Database) (p : Podcast.t Z)
      (q : Z) :
  wfDatabase db -> List.In p (Dexie.rows (Storage.podcasts db)) ->
  q <> Podcast.id p ->
  episodesOf q (step db p) = episodesOf q db.
Proof.
  intros Hwf Hin Hq.
  destruct (refreshed_store_shape db p Hwf Hin)
    as (g & N & Heq & _ & Hg & HN).
  rewrite Heq. unfold episodesOf. simpl. rewrite filter_app.
  rewrite filter_map_frame.
  - rewrite (filter_none _ (numbered _ _ N)); [apply app_nil_r|].
    eapply Forall_impl;
      [|apply (numbered_podcastId _ N (Podcast.id p));
        eapply Forall_impl; [|exact HN]; simpl; tauto].
    simpl. intros r Hr. apply Z.eqb_neq. congruence.
  - intros x Hx. destruct (Hg x Hx) as [(_ & Hpid & _) Hother].
    rewrite <- Hpid. split; auto.
    intros E. apply Hother. apply Z.eqb_eq in E. congruence.
Qed.

(** A pass on a podcast whose stored episodes have distinct directory
    ids: every stored episode of the podcast is refreshed where it is, and
    the episodes of new directory ids are added. *)
Lemma refreshed_store_distinct (db : Storage.Database) (p : Podcast.t Z)
      (eps : list PodcastindexOrgClient.Episode.t) :
  wfDatabase db -> List.In p (Dexie.rows (Storage.podcasts db)) ->
  fetch p = Fulfilled eps ->
  NoDup (map (@Episode.podcastIndexOrgId Z) (episodesOf (Podcast.id p) db)) ->
  step db p
  = Storage.withEpisodes db
      {| Dexie.rows :=
           map (fun x => if Episode.podcastId x =? Podcast.id p
                         then refreshed Date_parse eps x else x)
               (Dexie.rows (Storage.episodes db))
           ++ numbered Episode.withId
                (Dexie.keyGenerator (Storage.episodes db))
                (appended Date_parse (Podcast.id p) eps
                   (map (@Episode.podcastIndexOrgId Z)
                        (episodesOf (Podcast.id p) db)));
         Dexie.keyGenerator :=
           Dexie.keyGenerator (Storage.episodes db)
           + Z.of_nat
               (List.length
                  (appended Date_parse (Podcast.id p) eps
                     (map (@Episode.podcastIndexOrgId Z)
                          (episodesOf (Podcast.id p) db)))) |}.
Proof.
  intros (Hwp & Hwe & Hfeed) Hin Hfetch Hnd. unfold refreshed_store.
  rewrite Hfetch.
  destruct (storedEpisodes_Permutation p db Hfeed Hin) as [es [Hes Hperm]].
  rewrite Hes.
  assert (Hdir : map (@Episode.podcastIndexOrgId (option Z)) (map view es)
                 = map (@Episode.podcastIndexOrgId Z) es).
  { rewrite map_map. reflexivity. }
  rewrite reconcile_distinct.
  2:{ rewrite Hdir. eapply Permutation_NoDup; [|exact Hnd].
      apply Permutation_map. now symmetry. }
  rewrite (appended_ext Date_parse p eps _
             (map (@Episode.podcastIndexOrgId Z)
                  (episodesOf (Podcast.id p) db))).
  2:{ intros d. rewrite Hdir.
      split; apply Permutation_in; apply Permutation_map; auto.
      now symmetry. }
  rewrite (putEpisodes_reconciled (Podcast.id p) db es _ _ Hwe Hperm).
  2:{ apply Forall2_map_same. intros x. apply refreshed_sameRecord. }
  2:{ apply Forall_forall. intros y Hy.
      apply appended_facts in Hy. tauto. }
  simpl. do 3 f_equal.
  assert (Hnoid : NoDup (map (@Episode.id Z) es)).
  { eapply Permutation_NoDup;
      [apply Permutation_map, Permutation_sym, Hperm|].
    now apply episodesOf_NoDup_ids. }
  apply map_ext_in. intros x Hx. unfold replaced. rewrite map_map.
  destruct (Episode.podcastId x =? Podcast.id p) eqn:E.
  - rewrite (find_by_id (fun s => refreshed Date_parse eps (view s)) es x);
      auto.
    + rewrite refreshed_withId.
      destruct (refreshed_sameRecord Date_parse eps x) as [Hid _].
      destruct (refreshed Date_parse eps x). simpl in *. now rewrite Hid.
    + intros s0. destruct (refreshed_sameRecord Date_parse eps (view s0))
        as [Hid _]. simpl in Hid. congruence.
    + eapply Permutation_in; [symmetry; exact Hperm|].
      apply episodesOf_In. split; auto. now apply Z.eqb_eq.
  - destruct (find _ _) as [o|] eqn:Hf; auto.
    apply find_some in Hf. destruct Hf as [Ho Hk].
    apply in_map_iff in Ho. destruct Ho as [s0 [<- Hs]].
    destruct (refreshed_sameRecord Date_parse eps (view s0)) as [Hid _].
    rewrite <- Hid in Hk. simpl in Hk. apply Z.eqb_eq in Hk.
    eapply Permutation_in in Hs; [|exact Hperm].
    apply episodesOf_In in Hs. destruct Hs as [Hs Hpid].
    assert (s0 = x) as ->.
    { destruct Hwe as [Hasc _].
      eapply keysAscending_unique; [exact Hasc|assumption|assumption|].
      exact Hk. }
    apply Z.eqb_neq in E. contradiction.
Qed.

Lemma filter_map_if {A : Type} (q : A -> bool) (f : A -> A) (l : list A) :
  (forall x, q (f x) = q x) ->
  filter q (map (fun x => if q x then f x else x) l) = map f (filter q l).
Proof.
  intros H. induction l as [|x l IH]; simpl; auto.
  destruct (q x) eqn:E.
  - rewrite H, E. simpl. now f_equal.
  - now rewrite E.
Qed.

Lemma numbered_directoryIds (k : Z) (N : list (Episode.t (option Z))) :
  map (@Episode.podcastIndexOrgId Z) (numbered Episode.withId k N)
  = map (@Episode.podcastIndexOrgId (option Z)) N.
Proof.
  revert k. induction N as [|n N IH]; intros k; simpl; auto.
  now rewrite IH.
Qed.

Lemma numbered_In (k : Z) (N : list (Episode.t (option Z)))
      (r : Episode.t Z) :
  List.In r (numbered Episode.withId k N) ->
  exists n j, List.In n N /\ r = Episode.withId j n.
Proof.
  revert k. induction N as [|n N IH]; intros k; simpl; [contradiction|].
  intros [<-|H]; eauto.
  destruct (IH _ H) as (n' & j & Hn & ->). eauto.
Qed.

(** The episodes of the podcast after a pass, when their directory ids
    were distinct. *)
Lemma episodesOf_refreshed_store (db : Storage.Database) (p : Podcast.t Z)
      (eps : list PodcastindexOrgClient.Episode.t) :
  wfDatabase db -> List.In p (Dexie.rows (Storage.podcasts db)) ->
  fetch p = Fulfilled eps ->
  NoDup (map (@Episode.podcastIndexOrgId Z) (episodesOf (Podcast.id p) db)) ->
  episodesOf (Podcast.id p) (step db p)
  = map (refreshed Date_parse eps) (episodesOf (Podcast.id p) db)
    ++ numbered Episode.withId
         (Dexie.keyGenerator (Storage.episodes db))
         (appended Date_parse (Podcast.id p) eps
            (map (@Episode.podcastIndexOrgId Z)
                 (episodesOf (Podcast.id p) db))).
Proof.
  intros Hwf Hin Hfetch Hnd.
  rewrite (refreshed_store_distinct db p eps Hwf Hin Hfetch Hnd).
  unfold episodesOf at 1. simpl. rewrite filter_app. f_equal.
  - apply (filter_map_if (fun e => Episode.podcastId e =? Podcast.id p)).
    intros x. destruct (refreshed_sameRecord Date_parse eps x)
      as (_ & Hpid & _). now rewrite <- Hpid.
  - apply filter_all.
    eapply Forall_impl; [|apply (numbered_podcastId _ _ (Podcast.id p))].
    + simpl. intros r Hr. now apply Z.eqb_eq.
    + apply Forall_forall. intros y Hy. apply appended_facts in Hy. tauto.
Qed.

(** After its pass a podcast is up to date. *)
Lemma refreshed_store_upToDate (db : Storage.Database) (p : Podcast.t Z) :
  wfDatabase db -> List.In p (Dexie.rows (Storage.podcasts db)) ->
  NoDup (map (@Episode.podcastIndexOrgId Z) (episodesOf (Podcast.id p) db)) ->
  upToDate podcastIndexOrgClient Date_parse (step db p) p.
Proof.
  intros Hwf Hin Hnd eps Hfetch.
  rewrite (episodesOf_refreshed_store db p eps Hwf Hin Hfetch Hnd).
  split.
  - intros x Hx. apply in_app_or in Hx. destruct Hx as [Hx|Hx].
    + apply in_map_iff in Hx. destruct Hx as [s [<- _]].
      apply refreshed_idempotent.
    + apply numbered_In in Hx. destruct Hx as (n & j & Hn & ->).
      rewrite refreshed_withId. f_equal.
      apply appended_facts in Hn. tauto.
  - intros e He. rewrite map_app, map_map, numbered_directoryIds.
    apply in_or_app.
    destruct (appended_covers Date_parse p eps
                (map (@Episode.podcastIndexOrgId Z)
                     (episodesOf (Podcast.id p) db)) e He) as [H|H]; auto.
    left. erewrite map_ext; [exact H|].
    intros x. apply refreshed_directoryId.
Qed.

(** A pass on a podcast that is up to date changes nothing. *)
Lemma refreshed_store_fixed (db : Storage.Database) (p : Podcast.t Z) :
  wfDatabase db -> List.In p (Dexie.rows (Storage.podcasts db)) ->
  NoDup (map (@Episode.podcastIndexOrgId Z) (episodesOf (Podcast.id p) db)) ->
  upToDate podcastIndexOrgClient Date_parse db p ->
  step db p = db.
Proof.
  intros Hwf Hin Hnd Hup.
  destruct (fetch p) as [eps|err] eqn:Hfetch.
  - rewrite (refreshed_store_distinct db p eps Hwf Hin Hfetch Hnd).
    destruct (Hup eps Hfetch) as [Hsame Hcov].
    rewrite appended_covered by exact Hcov.
    rewrite map_unchanged.
    + destruct db as [ps [rs kg]]. unfold Storage.withEpisodes. simpl.
      now rewrite app_nil_r, Z.add_0_r.
    + intros x Hx.
      destruct (Episode.podcastId x =? Podcast.id p) eqn:E; auto.
      apply Hsame. apply episodesOf_In. split; auto. now apply Z.eqb_eq.
  - now apply refreshed_store_rejected with err.
Qed.

(** A pass keeps directory ids distinct within every podcast. *)
Lemma refreshed_store_distinctDirectoryIds (db : Storage.Database)
      (p : Podcast.t Z) :
  wfDatabase db -> List.In p (Dexie.rows (Storage.podcasts db)) ->
  distinctDirectoryIds db -> distinctDirectoryIds (step db p).
Proof.
  intros Hwf Hin Hd q.
  destruct (Z.eq_dec q (Podcast.id p)) as [->|Hq].
  - destruct (fetch p) as [eps|err] eqn:Hfetch.
    + rewrite (episodesOf_refreshed_store db p eps Hwf Hin Hfetch (Hd _)).
      rewrite map_app, map_map, numbered_directoryIds.
      erewrite map_ext; [|intros x; apply refreshed_directoryId].
      apply NoDup_app.
      * apply Hd.
      * apply appended_NoDup.
      * intros d Hd1 Hd2. apply in_map_iff in Hd2.
        destruct Hd2 as [y [<- Hy]]. apply appended_facts in Hy.
        tauto.
    + rewrite (refreshed_store_rejected db p err Hfetch). apply Hd.
  - rewrite refreshed_store_frame; auto.
Qed.

(** A pass on another podcast leaves a podcast up to date. *)
Lemma upToDate_frame (db : Storage.Database) (p q : Podcast.t Z) :
  wfDatabase db -> List.In p (Dexie.rows (Storage.podcasts db)) ->
  Podcast.id q <> Podcast.id p ->
  upToDate podcastIndexOrgClient Date_parse db q ->
  upToDate podcastIndexOrgClient Date_parse (step db p) q.
Proof.
  intros Hwf Hin Hne Hup eps Hfetch.
  rewrite refreshed_store_frame; auto.
Qed.

(** ** The whole loop *)

Lemma refreshAll_wf (ps : list (Podcast.t Z)) (db : Storage.Database) :
  wfDatabase db ->
  (forall p, List.In p ps -> List.In p (Dexie.rows (Storage.podcasts db))) ->
  wfDatabase (fold_left step ps db)
  /\ Storage.podcasts (fold_left step ps db) = Storage.podcasts db.
Proof.
  revert db. induction ps as [|p ps IH]; intros db Hwf Hps; simpl; auto.
  destruct (IH (step db p)) as [H1 H2].
  - apply refreshed_store_wf; auto. apply Hps. simpl; auto.
  - intros q Hq. rewrite refreshed_store_podcasts. apply Hps. simpl; auto.
  - split; auto. rewrite H2. apply refreshed_store_podcasts.
Qed.

Lemma refreshAll_frame (ps : list (Podcast.t Z)) (db : Storage.Database)
      (q : Z) :
  wfDatabase db ->
  (forall p, List.In p ps -> List.In p (Dexie.rows (Storage.podcasts db))) ->
  ~ List.In q (map (@Podcast.id Z) ps) ->
  episodesOf q (fold_left step ps db) = episodesOf q db.
Proof.
  revert db. induction ps as [|p ps IH]; intros db Hwf Hps Hq; simpl; auto.
  rewrite IH.
  - apply refreshed_store_frame; auto.
    + apply Hps. simpl; auto.
    + intros E. apply Hq. simpl; auto.
  - apply refreshed_store_wf; auto. apply Hps. simpl; auto.
  - intros p' Hp'. rewrite refreshed_store_podcasts. apply Hps. simpl; auto.
  - intros H. apply Hq. simpl; auto.
Qed.

Lemma refreshAll_distinctDirectoryIds (ps : list (Podcast.t Z))
      (db : Storage.Database) :
  wfDatabase db ->
  (forall p, List.In p ps -> List.In p (Dexie.rows (Storage.podcasts db))) ->
  distinctDirectoryIds db ->
  distinctDirectoryIds (fold_left step ps db).
Proof.
  revert db. induction ps as [|p ps IH]; intros db Hwf Hps Hd; simpl; auto.
  apply IH.
  - apply refreshed_store_wf; auto. apply Hps. simpl; auto.
  - intros p' Hp'. rewrite refreshed_store_podcasts. apply Hps. simpl; auto.
  - apply refreshed_store_distinctDirectoryIds; auto. apply Hps. simpl; auto.
Qed.

(** After the loop every podcast it went through is up to date, and so is
    every podcast that was up to date and that it did not go through. *)
Lemma refreshAll_upToDate (ps : list (Podcast.t Z)) (db : Storage.Database)
      (done : Podcast.t Z -> Prop) :
  wfDatabase db -> distinctDirectoryIds db ->
  (forall p, List.In p ps -> List.In p (Dexie.rows (Storage.podcasts db))) ->
  NoDup (map (@Podcast.id Z) ps) ->
  (forall q, done q ->
             upToDate podcastIndexOrgClient Date_parse db q
             /\ ~ List.In (Podcast.id q) (map (@Podcast.id Z) ps)) ->
  forall q, done q \/ List.In q ps ->
            upToDate podcastIndexOrgClient Date_parse (fold_left step ps db) q.
Proof.
  revert db done.
  induction ps as [|p ps IH]; intros db done Hwf Hd Hps Hnd Hdone q Hq;
    simpl.
  - destruct Hq as [Hq|Hq]; [|destruct Hq]. now apply Hdone.
  - inversion Hnd as [|? ? Hp Hnd']; subst.
    assert (Hinp : List.In p (Dexie.rows (Storage.podcasts db)))
      by (apply Hps; simpl; auto).
    apply (IH (step db p) (fun q => done q \/ q = p)).
    + now apply refreshed_store_wf.
    + now apply refreshed_store_distinctDirectoryIds.
    + intros p' Hp'. rewrite refreshed_store_podcasts.
      apply Hps. simpl; auto.
    + exact Hnd'.
    + intros q' [Hq' | ->].
      * destruct (Hdone q' Hq') as [Hup Hnot]. split.
        -- apply upToDate_frame; auto. intros E. apply Hnot. simpl; auto.
        -- intros H. apply Hnot. simpl; auto.
      * split; auto. apply refreshed_store_upToDate; auto.
    + destruct Hq as [Hq|[<-|Hq]]; auto.
Qed.

Lemma refreshAll_fixed (ps : list (Podcast.t Z)) (db : Storage.Database) :
  wfDatabase db -> distinctDirectoryIds db ->
  (forall p, List.In p ps ->
             List.In p (Dexie.rows (Storage.podcasts db))
             /\ upToDate podcastIndexOrgClient Date_parse db p) ->
  fold_left step ps db = db.
Proof.
  intros Hwf Hd. induction ps as [|p ps IH]; intros Hps; simpl; auto.
  destruct (Hps p (or_introl eq_refl)) as [Hin Hup].
  rewrite refreshed_store_fixed; auto.
  apply IH. intros q Hq. apply Hps. simpl; auto.
Qed.

(** The loop is the loop over the podcasts whose fetch succeeds. *)
Lemma refreshAll_skips (ps : list (Podcast.t Z)) (db : Storage.Database) :
  fold_left step ps db
  = fold_left step (filter (fun q => negb (isRejected (fetch q))) ps) db.
Proof.
  revert db. induction ps as [|p ps IH]; intros db; simpl; auto.
  destruct (fetch p) as [eps|err] eqn:Hfetch; simpl.
  - apply IH.
  - rewrite (refreshed_store_rejected db p err Hfetch). apply IH.
Qed.

End RefreshFacts.

(* ================================================================== *)
(** * Idempotence of the refresh *)

(** C3, as the specification states it, fails: run twice against an
    unchanged directory, [updatePodcasts] changes the stored episodes
    again in its second run.  The podcast was added while the directory
    listed directory id 7 twice, so two stored episodes carry it; the
    first run refreshes the one with the later publish date, which moves
    it behind the other, and the second run refreshes the other. *)
Lemma updatePodcasts_twice_differs :
  let client := Sample.directory Sample.revised in
  let first :=
    snd (Controller.updatePodcasts Sample.handler client Sample.Date_parse
                                   (Sample.added Sample.twins)) in
  let second :=
    snd (Controller.updatePodcasts Sample.handler client Sample.Date_parse
                                   first) in
  map (fun e => (Episode.id e, Episode.title e))
      (episodesOf 1 (Async.settle first))
  = [(1, Some "first"%string); (2, Some "revised"%string)]
  /\ map (fun e => (Episode.id e, Episode.title e))
         (episodesOf 1 (Async.settle second))
     = [(1, Some "revised"%string); (2, Some "revised"%string)]
  /\ Async.settle second <> Async.settle first.
Proof.
  cbv zeta. split; [|split].
  - vm_compute. reflexivity.
  - vm_compute. reflexivity.
  - intros H.
    apply (f_equal (fun db => map (@Episode.title Z) (episodesOf 1 db))) in H.
    vm_compute in H. discriminate H.
Qed.

(** C3, amended: when no two stored episodes of a podcast share a
    directory id, running [updatePodcasts] twice in succession against an
    unchanged directory leaves the store after the second run as it was
    after the first. *)
Theorem updatePodcasts_idempotent
        (client : PodcastindexOrgClient.t) (Date_parse : string -> Date)
        (w : Async.World Storage.Database) :
  wfDatabase (Async.settle w) ->
  distinctDirectoryIds (Async.settle w) ->
  let first :=
    snd (Controller.updatePodcasts Storage.Implementation.handler client
                                   Date_parse w) in
  let second :=
    snd (Controller.updatePodcasts Storage.Implementation.handler client
                                   Date_parse first) in
  Async.settle second = Async.settle first.
Proof.
  intros Hwf Hd first second. subst second.
  destruct (updatePodcasts_settles client Date_parse first) as [_ ->].
  subst first.
  destruct (updatePodcasts_settles client Date_parse w) as [_ ->].
  set (db := Async.settle w) in *.
  set (ps := Dexie.rows (Storage.podcasts db)).
  destruct (refreshAll_wf client Date_parse ps db Hwf) as [Hwf1 Hps1];
    [auto|].
  rewrite Hps1. fold ps.
  apply refreshAll_fixed; auto.
  - apply refreshAll_distinctDirectoryIds; auto.
  - intros p Hp. split; [rewrite Hps1; exact Hp|].
    apply (refreshAll_upToDate client Date_parse ps db (fun _ => False));
      auto.
    + destruct Hwf as [[Hasc _] _].
      apply (keysAscending_NoDup _ _ Hasc).
    + intros q [].
Qed.

Lemma wfDatabase_added_threeEpisodes :
  wfDatabase (Async.settle (Sample.added Sample.threeEpisodes)).
Proof.
  vm_compute. repeat split; repeat constructor; simpl; try lia; intuition discriminate.
Qed.

Lemma updatePodcasts_idempotent_witness :
  wfDatabase (Async.settle (Sample.added Sample.threeEpisodes))
  /\ distinctDirectoryIds (Async.settle (Sample.added Sample.threeEpisodes))
  /\ let client := Sample.directory Sample.threeEpisodes in
     let first :=
       snd (Controller.updatePodcasts Storage.Implementation.handler client
              Sample.Date_parse (Sample.added Sample.threeEpisodes)) in
     let second :=
       snd (Controller.updatePodcasts Storage.Implementation.handler client
                                      Sample.Date_parse first) in
     Async.settle second = Async.settle first.
Proof.
  assert (Hd : distinctDirectoryIds
                 (Async.settle (Sample.added Sample.threeEpisodes))).
  { intros q. unfold episodesOf.
    let rows :=
      eval vm_compute in
        (Dexie.rows (Storage.episodes
                       (Async.settle (Sample.added Sample.threeEpisodes)))) in
    change (Dexie.rows (Storage.episodes
                          (Async.settle (Sample.added Sample.threeEpisodes))))
      with rows.
    cbn -[Z.eqb]. destruct (1 =? q); simpl; repeat constructor; simpl;
      intuition discriminate. }
  split; [exact wfDatabase_added_threeEpisodes|]. split; [exact Hd|].
  exact (updatePodcasts_idempotent (Sample.directory Sample.threeEpisodes)
           Sample.Date_parse (Sample.added Sample.threeEpisodes)
           wfDatabase_added_threeEpisodes Hd).
Defined.


(* ================================================================== *)
(** * The merge of one directory episode *)

Lemma alterFirst_split {A : Type} (p : A -> bool) (l : list A) :
  existsb p l = true ->
  exists before s after,
    l = before ++ s :: after
    /\ existsb p before = false
    /\ p s = true
    /\ forall f, alterFirst p f l = before ++ f s :: after.
Proof.
  induction l as [|x l IH]; simpl; [discriminate|].
  destruct (p x) eqn:E; simpl.
  - intros _. exists [], x, l. simpl. rewrite E. auto.
  - intros H. destruct (IH H) as (before & s & after & -> & Hb & Hs & Hf).
    exists (x :: before), s, after. simpl. rewrite E, Hb.
    repeat split; auto. intros f. now rewrite Hf.
Qed.

Lemma overlay_carries {I : Type} (Date_parse : string -> Date)
      (s : Episode.t I) (e : PodcastindexOrgClient.Episode.t) :
  carries Date_parse e
    (Controller.overlay
       s (Controller.mapPodcastIndexOrgEpisodeToStorage Date_parse e)).
Proof.
  unfold carries. simpl. repeat split.
  destruct (PodcastindexOrgClient.Episode.enclosure e) as [[u n t]|]; auto.
Qed.

Lemma tagged_carries (Date_parse : string -> Date) (podcastId : Z)
      (e : PodcastindexOrgClient.Episode.t) :
  carries Date_parse e
    (Controller.tagged
       (Controller.mapPodcastIndexOrgEpisodeToStorage Date_parse e)
       podcastId).
Proof.
  unfold carries. simpl. repeat split.
  destruct (PodcastindexOrgClient.Episode.enclosure e) as [[u n t]|]; auto.
Qed.

(** C2, as the specification states it, fails: a stored property that
    the directory episode does not specify is not always left unchanged.
    The podcast was added while the directory listed an episode with an
    enclosure; then the directory lists the same episode without one, and
    [updatePodcasts] clears the enclosure of the stored episode:
    [mapPodcastIndexOrgEpisodeToStorage] sets [enclosure] in every mapped
    object, to [undefined] when the directory episode has none. *)
Lemma updatePodcasts_clears_enclosure :
  let before := Sample.added [Sample.withAudio] in
  let after :=
    snd (Controller.updatePodcasts Sample.handler
                                   (Sample.directory [Sample.one])
                                   Sample.Date_parse before) in
  PodcastindexOrgClient.Episode.id Sample.one
  = PodcastindexOrgClient.Episode.id Sample.withAudio
  /\ PodcastindexOrgClient.Episode.enclosure Sample.one = None
  /\ map (fun e => (Episode.id e, Episode.enclosure e))
         (episodesOf 1 (Async.settle before))
     = [(1, Some Sample.audio)]
  /\ map (fun e => (Episode.id e, Episode.enclosure e))
         (episodesOf 1 (Async.settle after))
     = [(1, None)].
Proof.
  cbv zeta. split; [reflexivity|]. split; [reflexivity|]. split.
  - vm_compute. reflexivity.
  - vm_compute. reflexivity.
Qed.

(** C2, amended: in the reconciliation of [updatePodcasts], a directory
    episode that matches a stored episode by directory id is laid over
    the first such episode, in its place: the result has the title, link,
    description, publish date, image, enclosure, guid and directory id of
    the directory episode (no enclosure when the directory episode has
    none), and [id], [podcastId], [categories], [duration], [position],
    [lastTimeListened] and [finished] are those of the stored episode; no
    other element changes.  A directory episode without a match is
    appended as a new record (no [id], no user data) with the [id] of the
    podcast as [podcastId]. *)
Theorem reconcile_overlays_or_appends
        (Date_parse : string -> Date) (podcast : Podcast.t Z)
        (storedEpisodes : list (Episode.t (option Z)))
        (episode : PodcastindexOrgClient.Episode.t) :
  let matching := fun s : Episode.t (option Z) =>
                    Episode.podcastIndexOrgId s
                    =? PodcastindexOrgClient.Episode.id episode in
  let result :=
    Controller.reconcile Date_parse podcast storedEpisodes episode in
  (exists before stored after merged,
      storedEpisodes = before ++ stored :: after
      /\ existsb matching before = false
      /\ matching stored = true
      /\ result = before ++ merged :: after
      /\ sameRecord stored merged
      /\ carries Date_parse episode merged)
  \/ (existsb matching storedEpisodes = false
      /\ exists added,
          result = storedEpisodes ++ [added]
          /\ carries Date_parse episode added
          /\ Episode.podcastId added = Podcast.id podcast
          /\ Episode.id added = None
          /\ Episode.categories added = None
          /\ Episode.duration added = None
          /\ Episode.position added = None
          /\ Episode.lastTimeListened added = None
          /\ Episode.finished added = None).
Proof.
  intros matching result. subst result. rewrite reconcile_unfold.
  fold matching. destruct (existsb matching storedEpisodes) eqn:He.
  - left. destruct (alterFirst_split matching storedEpisodes He)
      as (before & s & after & Hl & Hb & Hs & Hf).
    exists before, s, after,
      (Controller.overlay
         s (Controller.mapPodcastIndexOrgEpisodeToStorage Date_parse episode)).
    repeat split; auto. apply overlay_carries.
  - right. split; auto. eexists. split; [reflexivity|].
    split; [apply tagged_carries|]. repeat split.
Qed.

(* ================================================================== *)
(** * Adding a podcast *)

Section AwaitFacts.
Context {S A B : Type}.

Lemma await_bind (call : S -> outcome A * S) (k : A -> Async.Task S B)
      (w : Async.World S) (a : A) (s : S) :
  call (Async.settle w) = (Fulfilled a, s) ->
  Async.bind (Async.await call) k w = k a (Async.quiet s).
Proof. intros H. unfold Async.bind, Async.await. now rewrite H. Qed.

Lemma await_bind_rejected (call : S -> outcome A * S)
      (k : A -> Async.Task S B) (w : Async.World S) (e : Error) (s : S) :
  call (Async.settle w) = (Rejected e, s) ->
  Async.bind (Async.await call) k w = (Rejected e, Async.quiet s).
Proof. intros H. unfold Async.bind, Async.await. now rewrite H. Qed.

Lemma request_bind (a : A) (k : A -> Async.Task S B) (w : Async.World S) :
  Async.bind (Async.request (Fulfilled a)) k w = k a w.
Proof. reflexivity. Qed.

Lemma await_quiet (call : S -> outcome A * S) (w : Async.World S)
      (r : outcome A) (s : S) :
  call (Async.settle w) = (r, s) -> Async.await call w = (r, Async.quiet s).
Proof. intros H. unfold Async.await. now rewrite H. Qed.
End AwaitFacts.

Section PodcastTableFacts.

Local Abbreviation pid := (@Podcast.id Z).

Lemma find_above (k : Z) (rs : list (Podcast.t Z)) (P : Podcast.t Z) :
  Forall (fun r => pid r < k) rs -> pid P = k ->
  find (fun x => pid x =? k) (rs ++ [P]) = Some P.
Proof.
  intros Hrs HP. induction Hrs as [|x rs Hx Hrs IH]; simpl.
  - rewrite HP, Z.eqb_refl. reflexivity.
  - destruct (pid x =? k) eqn:E; auto. lia.
Qed.

(** [Table.add] of a podcast without [id] whose feed URL is not stored. *)
Lemma add_podcast_fresh (t : Dexie.Table (Podcast.t Z))
      (o : Podcast.t (option Z)) :
  wfTable pid t -> Podcast.id o = None ->
  ~ List.In (Podcast.feedUrl o) (map (@Podcast.feedUrl Z) (Dexie.rows t)) ->
  Dexie.add (@Podcast.id (option Z)) pid Podcast.withId Storage.sameFeedUrl
            o t
  = (Fulfilled (Dexie.keyGenerator t),
     {| Dexie.rows :=
          Dexie.rows t ++ [Podcast.withId (Dexie.keyGenerator t) o];
        Dexie.keyGenerator := Dexie.keyGenerator t + 1 |}).
Proof.
  intros [Hasc Hkg] Hid Hfresh. unfold Dexie.add, Dexie.keyFor.
  rewrite Hid. rewrite existsb_all_false.
  - unfold Dexie.write. f_equal. f_equal; [|lia].
    apply upsert_above. exact Hkg.
  - intros x Hx. rewrite Forall_forall in Hkg. specialize (Hkg x Hx).
    apply orb_false_iff. split; [apply Z.eqb_neq; lia|].
    unfold Storage.sameFeedUrl. simpl. apply String.eqb_neq.
    intros E. apply Hfresh. rewrite E. now apply in_map.
Qed.

(** [Table.update] of the last podcast, its feed URL left alone. *)
Lemma update_last_podcast (rs : list (Podcast.t Z)) (g : Z)
      (P : Podcast.t Z) (changes : PodcastChanges.t) :
  Forall (fun r => pid r < pid P) rs ->
  PodcastChanges.id changes = pid P ->
  PodcastChanges.feedUrl changes = None ->
  ~ List.In (Podcast.feedUrl P) (map (@Podcast.feedUrl Z) rs) ->
  Dexie.update pid Storage.sameFeedUrl (PodcastChanges.id changes)
               (PodcastChanges.apply changes)
               {| Dexie.rows := rs ++ [P]; Dexie.keyGenerator := g |}
  = (Fulfilled tt,
     {| Dexie.rows := rs ++ [PodcastChanges.apply changes P];
        Dexie.keyGenerator := g |}).
Proof.
  intros Hrs Hid Hfeed Hfresh. unfold Dexie.update, Dexie.get. simpl.
  rewrite Hid. rewrite (find_above (pid P) rs P Hrs eq_refl).
  rewrite existsb_all_false.
  - f_equal. f_equal. rewrite map_app. simpl. rewrite Z.eqb_refl.
    f_equal. apply map_unchanged. intros x Hx.
    rewrite Forall_forall in Hrs. specialize (Hrs x Hx).
    destruct (pid x =? pid P) eqn:E; auto. lia.
  - intros x Hx. apply in_app_or in Hx. destruct Hx as [Hx|[<-|[]]].
    + apply andb_false_iff. right. unfold Storage.sameFeedUrl. simpl.
      rewrite Hfeed. simpl. apply String.eqb_neq. intros E.
      apply Hfresh. rewrite E. now apply in_map.
    + now rewrite Z.eqb_refl.
Qed.

End PodcastTableFacts.

Section AddPodcastFacts.
Variable podcastIndexOrgClient : PodcastindexOrgClient.t.
Variable Date_parse : string -> Date.

Local Abbreviation handler := Storage.Implementation.handler.

(** [addPodcast] of a feed URL that is not stored, the directory
    answering: the podcast is stored last, processed and stamped, and its
    episodes are stored after the others. *)
Lemma addPodcast_settles (now : Z) (podcast : Controller.PodcastToAdd.t)
      (w : Async.World Storage.Database)
      (directoryPodcast : PodcastindexOrgClient.Podcast.t)
      (episodes : list PodcastindexOrgClient.Episode.t) :
  let db := Async.settle w in
  let feedUrl := Controller.PodcastToAdd.feedUrl podcast in
  let podcastId := Dexie.keyGenerator (Storage.podcasts db) in
  wfDatabase db ->
  ~ List.In feedUrl
            (map (@Podcast.feedUrl Z) (Dexie.rows (Storage.podcasts db))) ->
  PodcastindexOrgClient.getPodcastByFeedUrl podcastIndexOrgClient feedUrl
  = Fulfilled directoryPodcast ->
  PodcastindexOrgClient.getEpisodes podcastIndexOrgClient feedUrl
  = Fulfilled episodes ->
  exists P,
    Controller.addPodcast handler podcastIndexOrgClient Date_parse now
                          podcast w
    = (Fulfilled tt,
       Async.quiet
         {| Storage.podcasts :=
              {| Dexie.rows := Dexie.rows (Storage.podcasts db) ++ [P];
                 Dexie.keyGenerator := podcastId + 1 |};
            Storage.episodes :=
              {| Dexie.rows :=
                   Dexie.rows (Storage.episodes db)
                   ++ numbered Episode.withId
                        (Dexie.keyGenerator (Storage.episodes db))
                        (map (fun e =>
                                Controller.tagged
                                  (Controller.mapPodcastIndexOrgEpisodeToStorage
                                     Date_parse e) podcastId)
                             episodes);
                 Dexie.keyGenerator :=
                   Dexie.keyGenerator (Storage.episodes db)
                   + Z.of_nat (List.length episodes) |} |})
    /\ Podcast.id P = podcastId
    /\ Podcast.feedUrl P = feedUrl
    /\ Podcast.status P = processed
    /\ Podcast.podcastIndexOrgLastEpisodeFetch P = Some (Some now).
Proof.
  intros db feedUrl podcastId (Hwp & Hwe & Hfeed) Hfresh Hrp Heps.
  unfold Controller.addPodcast. fold feedUrl.
  set (P0 := Podcast.withId podcastId
               (Podcast.withId (@None Z) (Controller.newPodcast podcast))).
  erewrite await_bind.
  2:{ fold db. cbn [Storage.addPodcast Storage.Implementation.handler].
      unfold Storage.Implementation.addPodcast.
      rewrite add_podcast_fresh; auto. }
  rewrite Hrp, request_bind.
  assert (Hbelow : Forall (fun r => Podcast.id r < Podcast.id P0)
                          (Dexie.rows (Storage.podcasts db)))
    by (destruct Hwp as [_ Hkg]; exact Hkg).
  erewrite await_bind.
  2:{ cbn [Async.settle Async.quiet Async.store Async.unsettled fold_left
           Storage.updatePodcast Storage.Implementation.handler].
      unfold Storage.Implementation.updatePodcast, Storage.withPodcasts.
      cbn [Storage.podcasts Storage.episodes].
      match goal with
      | |- context [Dexie.update _ _ _ (PodcastChanges.apply ?c) _] =>
          rewrite (update_last_podcast _ _ P0 c Hbelow eq_refl eq_refl Hfresh)
      end.
      reflexivity. }
  rewrite Heps, request_bind.
  set (P1 := PodcastChanges.apply _ P0).
  erewrite await_bind.
  2:{ cbn [Async.settle Async.quiet Async.store Async.unsettled fold_left
           Storage.putEpisodes Storage.Implementation.handler].
      unfold Storage.Implementation.putEpisodes, Storage.withEpisodes.
      cbn [Storage.podcasts Storage.episodes].
      rewrite bulkPut_no_unique by reflexivity.
      rewrite (@writes_fresh _ _ (@Episode.id (option Z)) (@Episode.id Z)
                 (@Episode.withId (option Z) Z) (fun _ _ => eq_refl));
        [reflexivity|exact Hwe|].
      apply Forall_forall. intros o Ho. apply in_map_iff in Ho.
      now destruct Ho as [e [<- _]]. }
  erewrite await_quiet.
  2:{ cbn [Async.settle Async.quiet Async.store Async.unsettled fold_left
           Storage.updatePodcast Storage.Implementation.handler].
      unfold Storage.Implementation.updatePodcast, Storage.withPodcasts.
      cbn [Storage.podcasts Storage.episodes].
      match goal with
      | |- context [Dexie.update _ _ _ (PodcastChanges.apply ?c) _] =>
          rewrite (update_last_podcast _ _ P1 c Hbelow eq_refl eq_refl Hfresh)
      end.
      reflexivity. }
  eexists. split; [rewrite length_map; reflexivity|].
  repeat split; reflexivity.
Qed.

(** The store [addPodcast] leaves is well formed, and the episodes of the
    new podcast are the ones just stored. *)
Lemma addPodcast_store (now : Z) (podcast : Controller.PodcastToAdd.t)
      (w : Async.World Storage.Database)
      (directoryPodcast : PodcastindexOrgClient.Podcast.t)
      (episodes : list PodcastindexOrgClient.Episode.t) :
  let db := Async.settle w in
  let feedUrl := Controller.PodcastToAdd.feedUrl podcast in
  let podcastId := Dexie.keyGenerator (Storage.podcasts db) in
  wfDatabase db -> referential db ->
  ~ List.In feedUrl
            (map (@Podcast.feedUrl Z) (Dexie.rows (Storage.podcasts db))) ->
  PodcastindexOrgClient.getPodcastByFeedUrl podcastIndexOrgClient feedUrl
  = Fulfilled directoryPodcast ->
  PodcastindexOrgClient.getEpisodes podcastIndexOrgClient feedUrl
  = Fulfilled episodes ->
  exists P db',
    Controller.addPodcast handler podcastIndexOrgClient Date_parse now
                          podcast w
    = (Fulfilled tt, Async.quiet db')
    /\ wfDatabase db'
    /\ Dexie.rows (Storage.podcasts db')
       = Dexie.rows (Storage.podcasts db) ++ [P]
    /\ Podcast.id P = podcastId
    /\ Podcast.feedUrl P = feedUrl
    /\ episodesOf podcastId db'
       = numbered Episode.withId
           (Dexie.keyGenerator (Storage.episodes db))
           (map (fun e =>
                   Controller.tagged
                     (Controller.mapPodcastIndexOrgEpisodeToStorage
                        Date_parse e) podcastId)
                episodes).
Proof.
  intros db feedUrl podcastId Hwf Href Hfresh Hrp Heps.
  destruct (addPodcast_settles now podcast w directoryPodcast episodes
              Hwf Hfresh Hrp Heps) as (P & Hadd & Hid & Hf & _).
  fold db feedUrl podcastId in Hadd, Hid, Hf.
  destruct Hwf as (Hwp & Hwe & Hfeed).
  eexists P, _. split; [exact Hadd|]. simpl.
  assert (Htagged :
            Forall (fun n : Episode.t (option Z) =>
                      Episode.podcastId n = podcastId)
                   (map (fun e =>
                           Controller.tagged
                             (Controller.mapPodcastIndexOrgEpisodeToStorage
                                Date_parse e) podcastId) episodes)).
  { apply Forall_forall. intros o Ho. apply in_map_iff in Ho.
    now destruct Ho as [e [<- _]]. }
  split; [|repeat split; auto].
  - split; [|split]; simpl.
    + destruct Hwp as [Hasc Hkg]. split; simpl.
      * apply keysAscending_app; auto.
        -- apply keysAscending_cons. split; constructor.
        -- intros x y Hx [<-|[]]. rewrite Forall_forall in Hkg.
           rewrite Hid. now apply Hkg.
      * apply Forall_app. split.
        -- eapply Forall_impl; [|exact Hkg]. simpl. intros. lia.
        -- constructor; auto. rewrite Hid. fold podcastId. lia.
    + rewrite <- (length_map
                   (fun e =>
                      Controller.tagged
                        (Controller.mapPodcastIndexOrgEpisodeToStorage
                           Date_parse e) podcastId) episodes).
      apply (@wfTable_numbered _ _ (@Episode.id Z)
               (@Episode.withId (option Z) Z) (fun _ _ => eq_refl) _
               (Storage.episodes db) Hwe).
    + rewrite map_app. simpl. apply NoDup_app; auto.
      * repeat constructor. simpl. tauto.
      * intros f Hin [<-|[]]. rewrite Hf in Hin. contradiction.
  - unfold episodesOf. simpl. rewrite filter_app.
    rewrite filter_none, filter_all; auto.
    + eapply Forall_impl; [|apply (numbered_podcastId _ _ podcastId Htagged)].
      simpl. intros r Hr. now apply Z.eqb_eq.
    + unfold referential in Href. fold db in Href.
      eapply Forall_impl; [|exact Href]. simpl. intros e He.
      apply Z.eqb_neq. intros E. rewrite E in He.
      apply in_map_iff in He. destruct He as [q [Hq Hin]].
      destruct Hwp as [_ Hkg]. rewrite Forall_forall in Hkg.
      specialize (Hkg q Hin). fold podcastId in Hkg. lia.
Qed.

End AddPodcastFacts.

Lemma wfDatabase_empty : wfDatabase Storage.emptyDatabase.
Proof. repeat split; constructor. Qed.

(** C6: after [addPodcast] of a feed URL that is not stored yet, the
    directory answering both requests, [addPodcast] is fulfilled and
    [getPodcast(feedUrl)] resolves to a podcast of that feed URL with
    status ['processed'] and [podcastIndexOrgLastEpisodeFetch] set (to the
    date of the last step). *)
Theorem addPodcast_marks_processed
        (client : PodcastindexOrgClient.t) (Date_parse : string -> Date)
        (now : Z) (podcast : Controller.PodcastToAdd.t)
        (w : Async.World Storage.Database)
        (directoryPodcast : PodcastindexOrgClient.Podcast.t)
        (episodes : list PodcastindexOrgClient.Episode.t) :
  let feedUrl := Controller.PodcastToAdd.feedUrl podcast in
  wfDatabase (Async.settle w) ->
  ~ List.In feedUrl
            (map (@Podcast.feedUrl Z)
                 (Dexie.rows (Storage.podcasts (Async.settle w)))) ->
  PodcastindexOrgClient.getPodcastByFeedUrl client feedUrl
  = Fulfilled directoryPodcast ->
  PodcastindexOrgClient.getEpisodes client feedUrl = Fulfilled episodes ->
  exists w' P,
    Controller.addPodcast Storage.Implementation.handler client Date_parse
                          now podcast w
    = (Fulfilled tt, w')
    /\ fst (Controller.getPodcast Storage.Implementation.handler feedUrl w')
       = Fulfilled (Some P)
    /\ Podcast.feedUrl P = feedUrl
    /\ Podcast.status P = processed
    /\ Podcast.podcastIndexOrgLastEpisodeFetch P = Some (Some now).
Proof.
  intros feedUrl Hwf Hfresh Hrp Heps. subst feedUrl.
  destruct (addPodcast_settles client Date_parse now podcast w
              directoryPodcast episodes Hwf Hfresh Hrp Heps)
    as (P & Hadd & Hid & Hf & Hstatus & Hstamp).
  eexists _, P. split; [exact Hadd|]. repeat split; auto.
  unfold Controller.getPodcast, Async.await. simpl. f_equal.
  rewrite <- Hf. apply first_by_feedUrl; simpl.
  - destruct Hwf as (_ & _ & Hfeed). rewrite map_app. simpl.
    apply NoDup_app; auto.
    + repeat constructor. simpl. tauto.
    + intros f Hin [<-|[]]. rewrite Hf in Hin. contradiction.
  - apply in_or_app. simpl. auto.
Qed.

Lemma addPodcast_marks_processed_witness :
  exists w' P,
    Controller.addPodcast Storage.Implementation.handler
      (Sample.directory Sample.threeEpisodes) Sample.Date_parse 1000
      Sample.toAdd (Async.quiet Storage.emptyDatabase)
    = (Fulfilled tt, w')
    /\ fst (Controller.getPodcast Storage.Implementation.handler
              Sample.feedUrl w')
       = Fulfilled (Some P)
    /\ Podcast.feedUrl P = Sample.feedUrl
    /\ Podcast.status P = processed
    /\ Podcast.podcastIndexOrgLastEpisodeFetch P = Some (Some 1000).
Proof.
  apply (addPodcast_marks_processed
           (Sample.directory Sample.threeEpisodes) Sample.Date_parse 1000
           Sample.toAdd (Async.quiet Storage.emptyDatabase)
           Sample.directoryPodcast Sample.threeEpisodes).
  - exact wfDatabase_empty.
  - simpl. tauto.
  - reflexivity.
  - reflexivity.
Defined.

(* ================================================================== *)
(** * The scenario: add, then refresh *)

(** C1: a podcast is added while the directory lists three episodes of
    directory ids 1, 2 and 3; then [updatePodcasts] runs while the
    directory lists directory ids 2, 3 and 4 for it.  Both calls are
    fulfilled.  After the first the podcast has the three episodes
    [s1], [s2], [s3]; after the second it has four: [s1] as it was; in
    the places of [s2] and [s3] the same records (same [id], podcast and
    user data) with the title, link, description, publish date, image,
    enclosure and guid the directory lists now for the directory ids 2
    and 3; and a new record for directory id 4, with the data of the
    directory episode, a new [id], the [id] of the podcast as
    [podcastId] and no user data. *)
Theorem updatePodcasts_after_addPodcast
        (first second : PodcastindexOrgClient.t)
        (Date_parse : string -> Date) (now : Z)
        (podcast : Controller.PodcastToAdd.t)
        (w : Async.World Storage.Database)
        (directoryPodcast : PodcastindexOrgClient.Podcast.t)
        (e1 e2 e3 e2' e3' e4 : PodcastindexOrgClient.Episode.t) :
  let db := Async.settle w in
  let feedUrl := Controller.PodcastToAdd.feedUrl podcast in
  let mapped := Controller.mapPodcastIndexOrgEpisodeToStorage Date_parse in
  wfDatabase db -> referential db ->
  ~ List.In feedUrl
            (map (@Podcast.feedUrl Z) (Dexie.rows (Storage.podcasts db))) ->
  PodcastindexOrgClient.getPodcastByFeedUrl first feedUrl
  = Fulfilled directoryPodcast ->
  PodcastindexOrgClient.getEpisodes first feedUrl = Fulfilled [e1; e2; e3] ->
  PodcastindexOrgClient.Episode.id e1 = 1 ->
  PodcastindexOrgClient.Episode.id e2 = 2 ->
  PodcastindexOrgClient.Episode.id e3 = 3 ->
  PodcastindexOrgClient.getEpisodes second feedUrl
  = Fulfilled [e2'; e3'; e4] ->
  PodcastindexOrgClient.Episode.id e2' = 2 ->
  PodcastindexOrgClient.Episode.id e3' = 3 ->
  PodcastindexOrgClient.Episode.id e4 = 4 ->
  let adding :=
    Controller.addPodcast Storage.Implementation.handler first Date_parse
                          now podcast w in
  let updating :=
    Controller.updatePodcasts Storage.Implementation.handler second
                              Date_parse (snd adding) in
  let podcastId := Dexie.keyGenerator (Storage.podcasts db) in
  let k := Dexie.keyGenerator (Storage.episodes db) in
  let s1 := Episode.withId k (Controller.tagged (mapped e1) podcastId) in
  let s2 := Episode.withId (k + 1)
                           (Controller.tagged (mapped e2) podcastId) in
  let s3 := Episode.withId (k + 2)
                           (Controller.tagged (mapped e3) podcastId) in
  fst adding = Fulfilled tt
  /\ fst updating = Fulfilled tt
  /\ episodesOf podcastId (Async.settle (snd adding)) = [s1; s2; s3]
  /\ exists r2 r3 r4,
      episodesOf podcastId (Async.settle (snd updating)) = [s1; r2; r3; r4]
      /\ Episode.id r2 = k + 1
      /\ sameRecord s2 r2 /\ carries Date_parse e2' r2
      /\ Episode.id r3 = k + 2
      /\ sameRecord s3 r3 /\ carries Date_parse e3' r3
      /\ k + 2 < Episode.id r4
      /\ Episode.podcastId r4 = podcastId
      /\ carries Date_parse e4 r4 /\ unplayed r4
      /\ Episode.categories r4 = None /\ Episode.duration r4 = None.
Proof.
  intros db feedUrl mapped Hwf Href Hfresh Hrp Heps H1 H2 H3 Heps' H2' H3' H4
         adding updating podcastId k s1 s2 s3.
  destruct (addPodcast_store first Date_parse now podcast w directoryPodcast
              [e1; e2; e3] Hwf Href Hfresh Hrp Heps)
    as (P & db1 & Hadd & Hwf1 & Hrows & Hid & Hf & Hown).
  fold db feedUrl podcastId k in Hrows, Hid, Hf, Hown.
  simpl in Hown. fold mapped in Hown.
  replace (k + 1 + 1) with (k + 2) in Hown by lia. fold s1 s2 s3 in Hown.
  subst updating adding. rewrite Hadd. simpl fst. simpl snd.
  destruct (updatePodcasts_settles second Date_parse (Async.quiet db1))
    as [Hok Hsettle].
  split; [reflexivity|]. split; [exact Hok|]. split; [exact Hown|].
  rewrite Hsettle. change (Async.settle (Async.quiet db1)) with db1.
  rewrite Hrows. rewrite fold_left_app. simpl fold_left.
  set (old := Dexie.rows (Storage.podcasts db)) in *.
  set (dbm := fold_left (refreshed_store second Date_parse) old db1).
  assert (Hold : forall p, List.In p old ->
                           List.In p (Dexie.rows (Storage.podcasts db1))).
  { intros p Hp. rewrite Hrows. apply in_or_app. auto. }
  destruct (refreshAll_wf second Date_parse old db1 Hwf1 Hold)
    as [Hwfm Hpm]. fold dbm in Hwfm, Hpm.
  assert (HinP : List.In P (Dexie.rows (Storage.podcasts dbm))).
  { rewrite Hpm, Hrows. apply in_or_app. simpl. auto. }
  assert (Hframe : episodesOf podcastId dbm = [s1; s2; s3]).
  { unfold dbm. rewrite refreshAll_frame; auto.
    intros Hin. apply in_map_iff in Hin. destruct Hin as [q [Hq Hin]].
    destruct Hwf as [[_ Hkg] _]. fold db in Hkg. rewrite Forall_forall in Hkg.
    specialize (Hkg q Hin). fold podcastId in Hkg. lia. }
  assert (Hk4 : k + 2 < Dexie.keyGenerator (Storage.episodes dbm)).
  { destruct Hwfm as (_ & [_ Hkg] & _). rewrite Forall_forall in Hkg.
    assert (Hs3 : List.In s3 (Dexie.rows (Storage.episodes dbm))).
    { assert (Hs : List.In s3 (episodesOf podcastId dbm))
        by (rewrite Hframe; simpl; auto).
      apply episodesOf_In in Hs. tauto. }
    apply (Hkg s3 Hs3). }
  exists (Controller.overlay s2 (mapped e2')),
         (Controller.overlay s3 (mapped e3')),
         (Episode.withId (Dexie.keyGenerator (Storage.episodes dbm))
                         (Controller.tagged (mapped e4) podcastId)).
  split; [|split; [reflexivity|]; split; [repeat split|];
           split; [apply overlay_carries|];
           split; [reflexivity|]; split; [repeat split|];
           split; [apply overlay_carries|];
           split; [exact Hk4|]; split; [reflexivity|];
           split; [apply (tagged_carries Date_parse podcastId e4)|];
           repeat split].
  - rewrite <- Hid.
    rewrite (episodesOf_refreshed_store second Date_parse dbm P
               [e2'; e3'; e4] Hwfm HinP).
    + rewrite Hid, Hframe. unfold refreshed, overlaid. simpl.
      repeat (first [rewrite H1 | rewrite H2 | rewrite H3
                    | rewrite H2' | rewrite H3' | rewrite H4]; simpl).
      reflexivity.
    + rewrite Hf. exact Heps'.
    + rewrite Hid, Hframe. simpl. rewrite H1, H2, H3.
      repeat constructor; simpl; intuition discriminate.
Qed.

Lemma updatePodcasts_after_addPodcast_witness :
  let mapped :=
    Controller.mapPodcastIndexOrgEpisodeToStorage Sample.Date_parse in
  let adding :=
    Controller.addPodcast Storage.Implementation.handler
      (Sample.directory Sample.threeEpisodes) Sample.Date_parse 1000
      Sample.toAdd (Async.quiet Storage.emptyDatabase) in
  let updating :=
    Controller.updatePodcasts Storage.Implementation.handler
      (Sample.directory Sample.laterEpisodes) Sample.Date_parse
      (snd adding) in
  let s1 := Episode.withId 1 (Controller.tagged (mapped Sample.one) 1) in
  let s2 := Episode.withId 2 (Controller.tagged (mapped Sample.two) 1) in
  let s3 := Episode.withId 3 (Controller.tagged (mapped Sample.three) 1) in
  fst adding = Fulfilled tt
  /\ fst updating = Fulfilled tt
  /\ episodesOf 1 (Async.settle (snd adding)) = [s1; s2; s3]
  /\ map (@Episode.title Z) [s1; s2; s3]
     = [Some "one"; Some "two"; Some "three"]%string
  /\ exists r2 r3 r4,
      episodesOf 1 (Async.settle (snd updating)) = [s1; r2; r3; r4]
      /\ (Episode.id r2 = 2
          /\ Episode.title r2 = Some "two, revised"%string
          /\ Episode.pubDate r2 = Some (Some 5)
          /\ sameRecord s2 r2 /\ carries Sample.Date_parse Sample.twoRevised r2)
      /\ (Episode.id r3 = 3
          /\ Episode.title r3 = Some "three, revised"%string
          /\ Episode.pubDate r3 = Some (Some 30)
          /\ sameRecord s3 r3
          /\ carries Sample.Date_parse Sample.threeRevised r3)
      /\ (3 < Episode.id r4
          /\ Episode.title r4 = Some "four"%string
          /\ Episode.podcastId r4 = 1
          /\ carries Sample.Date_parse Sample.four r4 /\ unplayed r4).
Proof.
  intros mapped adding updating s1 s2 s3.
  destruct (updatePodcasts_after_addPodcast
              (Sample.directory Sample.threeEpisodes)
              (Sample.directory Sample.laterEpisodes) Sample.Date_parse 1000
              Sample.toAdd (Async.quiet Storage.emptyDatabase)
              Sample.directoryPodcast
              Sample.one Sample.two Sample.three
              Sample.twoRevised Sample.threeRevised Sample.four
              wfDatabase_empty (Forall_nil _) (fun H => H)
              eq_refl eq_refl eq_refl eq_refl eq_refl
              eq_refl eq_refl eq_refl eq_refl)
    as (Hadd & Hupdate & Hthree & r2 & r3 & r4 & Hfour & Hid2 & Hs2 & Hc2
        & Hid3 & Hs3 & Hc3 & Hid4 & Hp4 & Hc4 & Hu4 & _).
  split; [exact Hadd|]. split; [exact Hupdate|]. split; [exact Hthree|].
  split; [reflexivity|].
  exists r2, r3, r4. split; [exact Hfour|]. split; [|split].
  - split; [exact Hid2|]. split; [exact (proj1 Hc2)|].
    split; [exact (proj1 (proj2 (proj2 (proj2 Hc2))))|].
    split; [exact Hs2|exact Hc2].
  - split; [exact Hid3|]. split; [exact (proj1 Hc3)|].
    split; [exact (proj1 (proj2 (proj2 (proj2 Hc3))))|].
    split; [exact Hs3|exact Hc3].
  - split; [exact Hid4|]. split; [exact (proj1 Hc4)|].
    split; [exact Hp4|]. split; [exact Hc4|exact Hu4].
Defined.

(* ================================================================== *)
(** * A fetch that fails during the refresh *)

Lemma getEpisodes_episodesOf (podcastId : Z) (db : Storage.Database) :
  fst (Storage.Implementation.getEpisodes podcastId db)
  = Fulfilled (Js.sort (Dexie.sorter (-1) (@Episode.pubDate Z))
                       (rev (episodesOf podcastId db))).
Proof.
  rewrite <- equals_podcastId. reflexivity.
Qed.

(** C4: when the directory fails for a stored podcast during
    [updatePodcasts], [updatePodcasts] is fulfilled all the same, the
    stored episodes of that podcast are as before (and [getEpisodes]
    resolves to what it did), and the store ends as the refresh of the
    podcasts whose fetch succeeded leaves it. *)
Theorem updatePodcasts_skips_failed_fetch
        (client : PodcastindexOrgClient.t) (Date_parse : string -> Date)
        (w : Async.World Storage.Database) (p : Podcast.t Z) (err : Error) :
  let db := Async.settle w in
  wfDatabase db ->
  List.In p (Dexie.rows (Storage.podcasts db)) ->
  PodcastindexOrgClient.getEpisodes client (Podcast.feedUrl p)
  = Rejected err ->
  let updating :=
    Controller.updatePodcasts Storage.Implementation.handler client
                              Date_parse w in
  let db' := Async.settle (snd updating) in
  fst updating = Fulfilled tt
  /\ episodesOf (Podcast.id p) db' = episodesOf (Podcast.id p) db
  /\ fst (Storage.Implementation.getEpisodes (Podcast.id p) db')
     = fst (Storage.Implementation.getEpisodes (Podcast.id p) db)
  /\ db' = fold_left (refreshed_store client Date_parse)
                     (filter (fun q =>
                                negb (isRejected
                                        (PodcastindexOrgClient.getEpisodes
                                           client (Podcast.feedUrl q))))
                             (Dexie.rows (Storage.podcasts db)))
                     db.
Proof.
  intros db Hwf Hin Hfetch updating db'. subst db' updating.
  destruct (updatePodcasts_settles client Date_parse w) as [Hok Hsettle].
  fold db in Hsettle. rewrite Hsettle.
  rewrite (refreshAll_skips client Date_parse).
  set (ps := filter _ (Dexie.rows (Storage.podcasts db))).
  assert (Hframe : episodesOf (Podcast.id p)
                     (fold_left (refreshed_store client Date_parse) ps db)
                   = episodesOf (Podcast.id p) db).
  { apply refreshAll_frame; auto.
    - intros q Hq. apply filter_In in Hq. tauto.
    - intros Hid. apply in_map_iff in Hid. destruct Hid as [q [Hq Hqin]].
      apply filter_In in Hqin. destruct Hqin as [Hqin Hqok].
      assert (q = p) as ->.
      { destruct Hwf as [[Hasc _] _].
        eapply keysAscending_unique; [exact Hasc|assumption|assumption|].
        exact Hq. }
      rewrite Hfetch in Hqok. discriminate. }
  repeat split; auto.
  rewrite !getEpisodes_episodesOf. now rewrite Hframe.
Qed.

Lemma wfDatabase_addedBoth : wfDatabase (Async.settle Sample.addedBoth).
Proof.
  vm_compute.
  repeat split; repeat constructor; simpl; try lia; intuition discriminate.
Qed.

Lemma updatePodcasts_skips_failed_fetch_witness :
  let client := Sample.downFor Sample.feedUrl Sample.laterEpisodes in
  let w := Sample.addedBoth in
  let p := Sample.storedPodcast in
  let db := Async.settle w in
  let updating :=
    Controller.updatePodcasts Storage.Implementation.handler
                              client Sample.Date_parse w in
  let db' := Async.settle (snd updating) in
  map (@Podcast.id Z) (Dexie.rows (Storage.podcasts db)) = [1; 2]
  /\ PodcastindexOrgClient.getEpisodes client (Podcast.feedUrl p)
     = Rejected (RequestError "503")
  /\ fst updating = Fulfilled tt
  /\ episodesOf (Podcast.id p) db' = episodesOf (Podcast.id p) db
  /\ fst (Storage.Implementation.getEpisodes (Podcast.id p) db')
     = fst (Storage.Implementation.getEpisodes (Podcast.id p) db)
  /\ db' = fold_left (refreshed_store client Sample.Date_parse)
                     (filter (fun q =>
                                negb (isRejected
                                        (PodcastindexOrgClient.getEpisodes
                                           client (Podcast.feedUrl q))))
                             (Dexie.rows (Storage.podcasts db)))
                     db
  /\ map (@Episode.title Z) (episodesOf 1 db')
     = [Some "one"; Some "two"; Some "three"]%string
  /\ map (@Episode.title Z) (episodesOf 2 db)
     = [Some "one"; Some "two"; Some "three"]%string
  /\ map (@Episode.title Z) (episodesOf 2 db')
     = [Some "one"; Some "two, revised"; Some "three, revised";
        Some "four"]%string.
Proof.
  intros client w p db updating db'.
  assert (Hin : List.In p (Dexie.rows (Storage.podcasts db)))
    by (vm_compute; left; reflexivity).
  destruct (updatePodcasts_skips_failed_fetch
              client Sample.Date_parse w p (RequestError "503")
              wfDatabase_addedBoth Hin eq_refl)
    as (Hok & Hsame & Hread & Hrest).
  split; [vm_compute; reflexivity|]. split; [reflexivity|].
  split; [exact Hok|]. split; [exact Hsame|]. split; [exact Hread|].
  split; [exact Hrest|].
  split; [vm_compute; reflexivity|].
  split; vm_compute; reflexivity.
Defined.

(* ================================================================== *)
(** * The unique feed URL *)

(** C5: when [addPodcast] of the store succeeded for a feed URL, a second
    [addPodcast] with that feed URL is rejected with a [ConstraintError]
    and leaves the store as it was; and a successful [addPodcast] keeps
    the feed URLs of the stored podcasts distinct. *)
Theorem addPodcast_rejects_known_feedUrl
        (db db1 : Storage.Database) (p1 p2 : Podcast.t (option Z)) (k : Z) :
  Podcast.feedUrl p1 = Podcast.feedUrl p2 ->
  Storage.Implementation.addPodcast p1 db = (Fulfilled k, db1) ->
  Storage.Implementation.addPodcast p2 db1 = (Rejected ConstraintError, db1)
  /\ (NoDup (map (@Podcast.feedUrl Z) (Dexie.rows (Storage.podcasts db))) ->
      NoDup (map (@Podcast.feedUrl Z) (Dexie.rows (Storage.podcasts db1)))).
Proof.
  intros Hfeed Hadd.
  unfold Storage.Implementation.addPodcast, Dexie.add in Hadd.
  set (k1 := Dexie.keyFor (@Podcast.id (option Z)) p1 (Storage.podcasts db))
    in *.
  destruct (existsb _ (Dexie.rows (Storage.podcasts db))) eqn:Hfree;
    [discriminate|].
  injection Hadd as <- <-. split.
  - unfold Storage.Implementation.addPodcast, Dexie.add. simpl.
    replace (existsb _ _) with true; [now destruct db|].
    symmetry. apply existsb_exists.
    exists (Podcast.withId k1 p1). split.
    + apply upsert_In_self.
    + unfold Storage.sameFeedUrl. simpl. rewrite <- Hfeed.
      rewrite String.eqb_refl. apply orb_true_r.
  - intros Hnd. simpl.
    assert (Hkey : existsb (fun x => Podcast.id x
                                     =? Podcast.id (Podcast.withId k1 p1))
                           (Dexie.rows (Storage.podcasts db)) = false).
    { apply existsb_all_false. intros x Hx.
      assert (Hx' := Hfree). 
      rewrite <- not_true_iff_false in Hx'. 
      destruct (Podcast.id x =? Podcast.id (Podcast.withId k1 p1)) eqn:E;
        auto.
      exfalso. apply Hx'. apply existsb_exists. exists x. split; auto.
      simpl in E. now rewrite E. }
    eapply Permutation_NoDup.
    + apply Permutation_map. symmetry.
      apply (upsert_fresh_Permutation _ _ _ Hkey).
    + simpl. constructor; auto. intros Hin.
      apply in_map_iff in Hin. destruct Hin as [x [Hx Hin]].
      rewrite <- not_true_iff_false in Hfree. apply Hfree.
      apply existsb_exists. exists x. split; auto.
      unfold Storage.sameFeedUrl. simpl. rewrite Hx.
      rewrite String.eqb_refl. apply orb_true_r.
Qed.

Lemma addPodcast_rejects_known_feedUrl_witness :
  let p := Podcast.withId (@None Z) (Controller.newPodcast Sample.toAdd) in
  let db1 := snd (Storage.Implementation.addPodcast p Storage.emptyDatabase) in
  Storage.Implementation.addPodcast p db1 = (Rejected ConstraintError, db1)
  /\ (NoDup (map (@Podcast.feedUrl Z)
                 (Dexie.rows (Storage.podcasts Storage.emptyDatabase))) ->
      NoDup (map (@Podcast.feedUrl Z) (Dexie.rows (Storage.podcasts db1)))).
Proof.
  apply (addPodcast_rejects_known_feedUrl
           Storage.emptyDatabase
           (snd (Storage.Implementation.addPodcast
                   (Podcast.withId (@None Z)
                                   (Controller.newPodcast Sample.toAdd))
                   Storage.emptyDatabase))
           (Podcast.withId (@None Z) (Controller.newPodcast Sample.toAdd))
           (Podcast.withId (@None Z) (Controller.newPodcast Sample.toAdd))
           1).
  - reflexivity.
  - reflexivity.
Defined.

(* ================================================================== *)
(** * Deleting a podcast *)

Lemma find_after_delete {R : Type} (primKey : R -> Z) (k : Z) (rs : list R) :
  find (fun x => primKey x =? k)
       (filter (fun x => negb (primKey x =? k)) rs) = None.
Proof.
  induction rs as [|x rs IH]; simpl; auto.
  destruct (primKey x =? k) eqn:E; simpl; auto. now rewrite E.
Qed.

(** No episode of the podcast is left in the store. *)
Lemma deletePodcastById_episodes (podcastId : Z) (db : Storage.Database) :
  episodesOf podcastId
             (snd (Storage.Implementation.deletePodcastById podcastId db))
  = [].
Proof.
  unfold episodesOf. apply filter_none. apply Forall_forall.
  intros e He. apply Z.eqb_neq. intros Hpid.
  unfold Storage.Implementation.deletePodcastById in He. simpl in He.
  apply filter_In in He. destruct He as [He Hkeep].
  apply negb_true_iff in Hkeep. rewrite <- not_true_iff_false in Hkeep.
  apply Hkeep. apply existsb_exists. exists e. split.
  - apply filter_In. split; auto. unfold Storage.podcastIdIndex.
    rewrite eqb_KNumber. now apply Z.eqb_eq.
  - apply Z.eqb_refl.
Qed.

(** C7: once [deletePodcastById(id)] is fulfilled, [getPodcastById(id)]
    resolves to undefined, no stored episode has [id] as [podcastId],
    and [getEpisodes] resolves to an empty array: the store's for [id],
    and the controller's for the feed URL of the podcast that had the
    [id]. *)
Theorem deletePodcastById_cascades
        (w : Async.World Storage.Database) (podcastId : Z) :
  let deleting :=
    Controller.deletePodcastById Storage.Implementation.handler podcastId w in
  let db' := Async.settle (snd deleting) in
  fst deleting = Fulfilled tt
  /\ fst (Controller.getPodcastById Storage.Implementation.handler
                                    podcastId (snd deleting))
     = Fulfilled None
  /\ (forall e, List.In e (Dexie.rows (Storage.episodes db')) ->
                Episode.podcastId e <> podcastId)
  /\ fst (Storage.Implementation.getEpisodes podcastId db') = Fulfilled []
  /\ (forall p,
        wfDatabase (Async.settle w) ->
        List.In p (Dexie.rows (Storage.podcasts (Async.settle w))) ->
        Podcast.id p = podcastId ->
        fst (Controller.getEpisodes Storage.Implementation.handler
                                    (Podcast.feedUrl p) (snd deleting))
        = Fulfilled []).
Proof.
  intros deleting db'.
  assert (Hdel : deleting
                 = (Fulfilled tt,
                    Async.quiet
                      (snd (Storage.Implementation.deletePodcastById
                              podcastId (Async.settle w)))))
    by reflexivity.
  assert (Hdb : db' = snd (Storage.Implementation.deletePodcastById
                             podcastId (Async.settle w)))
    by reflexivity.
  pose proof (deletePodcastById_episodes podcastId (Async.settle w)) as Hnone.
  rewrite <- Hdb in Hnone.
  split; [reflexivity|]. split; [|split; [|split]].
  - rewrite Hdel. unfold Controller.getPodcastById, Async.await. simpl.
    f_equal. apply find_after_delete.
  - intros e He Hpid.
    assert (Hin : List.In e (episodesOf podcastId db'))
      by (apply episodesOf_In; auto).
    rewrite Hnone in Hin. contradiction.
  - rewrite getEpisodes_episodesOf, Hnone. reflexivity.
  - intros p (Hwp & _ & Hfeed) Hin Hid.
    rewrite Hdel. unfold Controller.getEpisodes.
    erewrite await_bind; [|reflexivity].
    rewrite first_by_feedUrl_none; [reflexivity|]. simpl.
    intros Hf. apply in_map_iff in Hf. destruct Hf as [q [Hq Hqin]].
    apply filter_In in Hqin. destruct Hqin as [Hqin Hkeep].
    apply negb_true_iff, Z.eqb_neq in Hkeep.
    assert (q = p); [|congruence].
    clear Hkeep. revert Hfeed Hin Hqin Hq.
    induction (Dexie.rows (Storage.podcasts (Async.settle w)))
      as [|x rs IH]; simpl; intros Hnd Hp Hqin Hq; [contradiction|].
    inversion Hnd as [|? ? Hx Hrs]; subst.
    destruct Hp as [->|Hp], Hqin as [->|Hqin]; auto.
    + exfalso. apply Hx. rewrite <- Hq. now apply in_map.
    + exfalso. apply Hx. rewrite Hq. now apply in_map.
Qed.

Lemma deletePodcastById_cascades_witness :
  let w := Sample.added Sample.threeEpisodes in
  let deleting :=
    Controller.deletePodcastById Storage.Implementation.handler 1 w in
  wfDatabase (Async.settle w)
  /\ List.In Sample.storedPodcast
             (Dexie.rows (Storage.podcasts (Async.settle w)))
  /\ fst (Controller.getPodcastById Storage.Implementation.handler 1
                                    (snd deleting))
     = Fulfilled None
  /\ fst (Controller.getEpisodes Storage.Implementation.handler
                                 Sample.feedUrl (snd deleting))
     = Fulfilled [].
Proof.
  pose proof (deletePodcastById_cascades
                (Sample.added Sample.threeEpisodes) 1)
    as (_ & Hpodcast & _ & _ & Hepisodes).
  assert (Hin : List.In Sample.storedPodcast
                  (Dexie.rows
                     (Storage.podcasts
                        (Async.settle (Sample.added Sample.threeEpisodes)))))
    by (vm_compute; left; reflexivity).
  split; [exact wfDatabase_added_threeEpisodes|]. split; [exact Hin|].
  split; [exact Hpodcast|].
  exact (Hepisodes Sample.storedPodcast wfDatabase_added_threeEpisodes Hin
                   eq_refl).
Defined.

(* ================================================================== *)
(** * Sorted reads *)

Section SortFacts.
Context {A : Type}.
Variable cmp : A -> A -> Z.
Variable R : A -> A -> Prop.
Variable P : A -> Prop.
Hypothesis cmp_le : forall a b, P a -> P b -> (cmp a b <=? 0) = true -> R a b.
Hypothesis cmp_gt : forall a b, P a -> P b -> (cmp a b <=? 0) = false -> R b a.
Hypothesis R_trans : forall a b c, R a b -> R b c -> R a c.

Lemma insert_StronglySorted (x : A) (l : list A) :
  P x -> Forall P l -> StronglySorted R l ->
  StronglySorted R (Js.insert cmp x l).
Proof.
  intros Hx Hl Hs. induction l as [|y l IH]; simpl.
  - repeat constructor.
  - inversion Hl as [|? ? Hy Hl']; subst.
    apply StronglySorted_inv in Hs. destruct Hs as [Hs Hall].
    destruct (cmp x y <=? 0) eqn:E.
    + constructor; [constructor; auto|].
      constructor; [now apply cmp_le|].
      eapply Forall_impl; [|exact Hall]. simpl. intros z Hz.
      apply R_trans with y; auto.
    + constructor; [now apply IH|].
      apply Forall_forall. intros z Hz.
      eapply Permutation_in in Hz; [|apply insert_Permutation].
      destruct Hz as [<-|Hz]; [now apply cmp_gt|].
      rewrite Forall_forall in Hall. auto.
Qed.

(** Sorting with a comparator that orders the elements sorts them. *)
Lemma sort_StronglySorted (l : list A) :
  Forall P l -> StronglySorted R (Js.sort cmp l).
Proof.
  induction 1 as [|x l Hx Hl IH]; simpl; [constructor|].
  apply insert_StronglySorted; auto.
  apply Forall_forall. intros y Hy. apply sort_In in Hy.
  rewrite Forall_forall in Hl. auto.
Qed.
End SortFacts.

Lemma StronglySorted_filter_kept {A : Type} (R : A -> A -> Prop)
      (f : A -> bool) (l : list A) :
  StronglySorted R l -> StronglySorted R (filter f l).
Proof.
  induction 1 as [|x l Hs IH Hall]; simpl; [constructor|].
  destruct (f x); auto. constructor; auto.
  apply Forall_forall. intros y Hy. apply filter_In in Hy.
  rewrite Forall_forall in Hall. apply Hall. tauto.
Qed.

Lemma StronglySorted_snoc {A : Type} (R : A -> A -> Prop) (l : list A)
      (x : A) :
  StronglySorted R l -> Forall (fun y => R y x) l ->
  StronglySorted R (l ++ [x]).
Proof.
  induction 1 as [|y l Hs IH Hall]; simpl; intros Hx.
  - repeat constructor.
  - inversion Hx; subst. constructor; auto.
    apply Forall_app. split; auto.
Qed.

Lemma StronglySorted_rev_flipped {A : Type} (R : A -> A -> Prop)
      (l : list A) :
  StronglySorted R l -> StronglySorted (fun a b => R b a) (rev l).
Proof.
  induction 1 as [|x l Hs IH Hall]; simpl; [constructor|].
  apply StronglySorted_snoc; auto.
  apply Forall_forall. intros y Hy. apply in_rev in Hy.
  rewrite Forall_forall in Hall. auto.
Qed.

Lemma firstn_In_kept {A : Type} (n : nat) (l : list A) (x : A) :
  List.In x (firstn n l) -> List.In x l.
Proof.
  revert n. induction l as [|y l IH]; intros n; destruct n; simpl; auto.
  - contradiction.
  - intros [->|H]; eauto.
Qed.

Lemma StronglySorted_firstn_kept {A : Type} (R : A -> A -> Prop) (n : nat)
      (l : list A) :
  StronglySorted R l -> StronglySorted R (firstn n l).
Proof.
  intros Hs. revert n. induction Hs as [|x l Hs IH Hall]; intros n.
  - rewrite firstn_nil. constructor.
  - destruct n as [|n]; simpl; [constructor|].
    constructor; auto.
    apply Forall_forall. intros y Hy. rewrite Forall_forall in Hall.
    apply Hall. eapply firstn_In_kept; eauto.
Qed.

Lemma hasKey_pubDate (e : Episode.t Z) :
  Dexie.hasKey Storage.pubDateIndex e = true ->
  Episode.pubDate e = Some (Some (pubDateMs e)).
Proof.
  unfold Dexie.hasKey, Storage.pubDateIndex, Dexie.dateKey, pubDateMs.
  destruct (Episode.pubDate e) as [[ms|]|]; auto; discriminate.
Qed.

Lemma byKey_pubDate (a b : Episode.t Z) :
  Dexie.hasKey Storage.pubDateIndex a = true ->
  Dexie.hasKey Storage.pubDateIndex b = true ->
  (Dexie.byKey Storage.pubDateIndex a b <=? 0) = (pubDateMs a <=? pubDateMs b).
Proof.
  intros Ha Hb. apply hasKey_pubDate in Ha, Hb.
  unfold Dexie.byKey, Storage.pubDateIndex, Dexie.dateKey.
  rewrite Ha, Hb. simpl.
  destruct (Z.compare_spec (pubDateMs a) (pubDateMs b)); symmetry.
  - apply Z.leb_le. lia.
  - apply Z.leb_le. lia.
  - apply Z.leb_gt. lia.
Qed.

Lemma inRange_belowOrEqual (asOfPubDate : Z) (e : Episode.t Z) :
  Dexie.inRange Storage.pubDateIndex None (Some (Dexie.KDate asOfPubDate)) e
  = true ->
  Episode.pubDate e = Some (Some (pubDateMs e))
  /\ pubDateMs e <= asOfPubDate.
Proof.
  unfold Dexie.inRange, Storage.pubDateIndex, Dexie.dateKey, pubDateMs.
  destruct (Episode.pubDate e) as [[ms|]|]; try discriminate.
  simpl. unfold Dexie.leb. simpl. intros H. split; auto.
  destruct (Z.compare_spec ms asOfPubDate); try lia; discriminate.
Qed.

(** The pubDate index reads the episodes with a valid publish date in
    ascending order of their dates. *)
Lemma ascending_pubDate (t : Dexie.Table (Episode.t Z)) :
  StronglySorted (fun a b => pubDateMs a <= pubDateMs b)
                 (Dexie.ascending Storage.pubDateIndex t).
Proof.
  unfold Dexie.ascending.
  apply (sort_StronglySorted
           (Dexie.byKey Storage.pubDateIndex)
           (fun a b => pubDateMs a <= pubDateMs b)
           (fun a => Dexie.hasKey Storage.pubDateIndex a = true)).
  - intros a b Ha Hb H. rewrite byKey_pubDate in H by auto.
    now apply Z.leb_le.
  - intros a b Ha Hb H. rewrite byKey_pubDate in H by auto.
    apply Z.leb_gt in H. lia.
  - intros a b c. lia.
  - apply Forall_forall. intros e He. apply filter_In in He. tauto.
Qed.

(** What the store's [getAllEpisodes] resolves to. *)
Lemma getAllEpisodes_store (count asOfPubDate : Z) (db : Storage.Database) :
  0 <= count ->
  exists episodes,
    Storage.Implementation.getAllEpisodes count asOfPubDate db
    = (Fulfilled episodes, db)
    /\ Z.of_nat (List.length episodes) <= count
    /\ Forall (fun e => Episode.pubDate e = Some (Some (pubDateMs e))
                        /\ pubDateMs e <= asOfPubDate) episodes
    /\ StronglySorted (fun a b => pubDateMs b <= pubDateMs a) episodes.
Proof.
  intros Hcount. eexists. split; [reflexivity|].
  unfold Dexie.collect, Dexie.limit, Dexie.reverse, Dexie.belowOrEqual,
    Dexie.range. simpl.
  split; [|split].
  - pose proof (firstn_le_length (Z.to_nat count)
                  (rev (filter (Dexie.inRange Storage.pubDateIndex None
                                  (Some (Dexie.KDate asOfPubDate)))
                               (Dexie.ascending Storage.pubDateIndex
                                                (Storage.episodes db))))).
    lia.
  - apply Forall_forall. intros e He.
    apply firstn_In_kept in He. apply in_rev in He.
    apply filter_In in He. destruct He as [_ He].
    now apply inRange_belowOrEqual.
  - apply StronglySorted_firstn_kept.
    apply (StronglySorted_rev_flipped (fun a b => pubDateMs a <= pubDateMs b)).
    apply StronglySorted_filter_kept. apply ascending_pubDate.
Qed.

(** C8: for a count that is not negative and a valid date,
    [getAllEpisodes(count, asOfPubDate)] is fulfilled with at most [count]
    episodes (the ones the store's [getAllEpisodes] gives, each with its
    podcast); each has a valid publish date not after [asOfPubDate]; and
    they come by descending publish date. *)
Theorem getAllEpisodes_bounded_sorted
        (w : Async.World Storage.Database) (count asOfPubDate : Z) :
  0 <= count ->
  exists views,
    fst (Controller.getAllEpisodes Storage.Implementation.handler
                                   count asOfPubDate w)
    = Fulfilled views
    /\ fst (Storage.Implementation.getAllEpisodes count asOfPubDate
                                                  (Async.settle w))
       = Fulfilled (map Controller.EpisodeWithPodcastView.episode views)
    /\ Z.of_nat (List.length views) <= count
    /\ Forall (fun v =>
                 let e := Controller.EpisodeWithPodcastView.episode v in
                 Episode.pubDate e = Some (Some (pubDateMs e))
                 /\ pubDateMs e <= asOfPubDate) views
    /\ StronglySorted
         (fun a b =>
            pubDateMs (Controller.EpisodeWithPodcastView.episode b)
            <= pubDateMs (Controller.EpisodeWithPodcastView.episode a))
         views.
Proof.
  intros Hcount.
  destruct (getAllEpisodes_store count asOfPubDate (Async.settle w) Hcount)
    as (episodes & Hget & Hlen & Hdates & Hsorted).
  exists (Controller.addPodcastToEpisodes
            episodes (Dexie.rows (Storage.podcasts (Async.settle w)))).
  assert (Hmap : map Controller.EpisodeWithPodcastView.episode
                     (Controller.addPodcastToEpisodes
                        episodes
                        (Dexie.rows (Storage.podcasts (Async.settle w))))
                 = episodes).
  { unfold Controller.addPodcastToEpisodes. rewrite map_map. simpl.
    apply map_id. }
  split; [|split; [|split; [|split]]].
  - unfold Controller.getAllEpisodes.
    erewrite await_bind by reflexivity.
    erewrite await_bind by exact Hget. reflexivity.
  - rewrite Hmap, Hget. reflexivity.
  - unfold Controller.addPodcastToEpisodes. now rewrite length_map.
  - unfold Controller.addPodcastToEpisodes. rewrite Forall_map. exact Hdates.
  - unfold Controller.addPodcastToEpisodes.
    clear Hmap Hget Hlen Hdates.
    induction Hsorted as [|e es Hs IH Hall]; simpl; constructor; auto.
    rewrite Forall_map. exact Hall.
Qed.

Lemma getAllEpisodes_bounded_sorted_witness :
  exists views,
    fst (Controller.getAllEpisodes Storage.Implementation.handler 2 20
           (Sample.added Sample.threeEpisodes))
    = Fulfilled views
    /\ fst (Storage.Implementation.getAllEpisodes
              2 20 (Async.settle (Sample.added Sample.threeEpisodes)))
       = Fulfilled (map Controller.EpisodeWithPodcastView.episode views)
    /\ Z.of_nat (List.length views) <= 2
    /\ Forall (fun v =>
                 let e := Controller.EpisodeWithPodcastView.episode v in
                 Episode.pubDate e = Some (Some (pubDateMs e))
                 /\ pubDateMs e <= 20) views
    /\ StronglySorted
         (fun a b =>
            pubDateMs (Controller.EpisodeWithPodcastView.episode b)
            <= pubDateMs (Controller.EpisodeWithPodcastView.episode a))
         views.
Proof.
  apply (getAllEpisodes_bounded_sorted
           (Sample.added Sample.threeEpisodes) 2 20).
  lia.
Defined.

(* ================================================================== *)
(** * The playback position *)

Lemma find_replaced {R : Type} (primKey : R -> Z) (k : Z) (r r' : R)
      (rs : list R) :
  find (fun x => primKey x =? k) rs = Some r -> primKey r' = k ->
  find (fun x => primKey x =? k)
       (map (fun x => if primKey x =? k then r' else x) rs) = Some r'.
Proof.
  intros Hfind Hk. induction rs as [|x rs IH]; simpl in *; [discriminate|].
  destruct (primKey x =? k) eqn:E.
  - now rewrite Hk, Z.eqb_refl.
  - rewrite E. auto.
Qed.

(** C9: once [updateEpisodeCurrentTime(id, position)] has taken effect on
    a stored episode, for a position that is not negative (120, say), the
    episode of that [id] has that [position] and [lastTimeListened] set
    (to the date of the call) and is otherwise what it was; the store's
    [getEpisodes] for its podcast has it, and so has
    [getEpisodesInProgress()]. *)
Theorem updateEpisodeCurrentTime_takes_effect
        (w : Async.World Storage.Database) (now episodeId position : Z)
        (e : Episode.t Z) :
  0 <= position ->
  Dexie.get (@Episode.id Z) episodeId (Storage.episodes (Async.settle w))
  = Some e ->
  let updating :=
    Controller.updateEpisodeCurrentTime Storage.Implementation.handler
                                        now episodeId position w in
  let db' := Async.settle (snd updating) in
  fst updating = Fulfilled tt
  /\ exists e',
      Dexie.get (@Episode.id Z) episodeId (Storage.episodes db') = Some e'
      /\ Episode.position e' = Some position
      /\ Episode.lastTimeListened e' = Some (Some now)
      /\ sameButPlayback e e'
      /\ (exists episodes,
            fst (Storage.Implementation.getEpisodes (Episode.podcastId e) db')
            = Fulfilled episodes
            /\ List.In e' episodes)
      /\ (exists views,
            fst (Controller.getEpisodesInProgress
                   Storage.Implementation.handler (snd updating))
            = Fulfilled views
            /\ List.In e' (map Controller.EpisodeWithPodcastView.episode
                               views)).
Proof.
  intros Hpos Hget updating db'.
  split; [reflexivity|].
  set (changes :=
         {| EpisodeChanges.id := episodeId;
            EpisodeChanges.podcastId := None;
            EpisodeChanges.title := None;
            EpisodeChanges.link := None;
            EpisodeChanges.description := None;
            EpisodeChanges.imageUrl := None;
            EpisodeChanges.categories := None;
            EpisodeChanges.pubDate := None;
            EpisodeChanges.enclosure := None;
            EpisodeChanges.duration := None;
            EpisodeChanges.guid := None;
            EpisodeChanges.podcastIndexOrgId := None;
            EpisodeChanges.position := Some (Some position);
            EpisodeChanges.lastTimeListened := Some (Some (Some now));
            EpisodeChanges.finished := None |}).
  set (e' := EpisodeChanges.apply changes e).
  assert (Hid : Episode.id e = episodeId).
  { unfold Dexie.get in Hget. apply find_some in Hget.
    destruct Hget as [_ Hk]. now apply Z.eqb_eq. }
  assert (Hdb : Dexie.rows (Storage.episodes db')
                = map (fun x => if Episode.id x =? episodeId then e' else x)
                      (Dexie.rows (Storage.episodes (Async.settle w)))).
  { subst db' updating. unfold Controller.updateEpisodeCurrentTime,
      Async.detach, Async.settle. simpl. rewrite fold_left_app. simpl.
    fold (Async.settle w). fold changes.
    unfold Storage.Implementation.updateEpisode, Dexie.update.
    cbn [EpisodeChanges.id changes]. rewrite Hget.
    rewrite existsb_all_false; [reflexivity|].
    intros x _. apply andb_false_r. }
  assert (Hget' : Dexie.get (@Episode.id Z) episodeId (Storage.episodes db')
                  = Some e').
  { unfold Dexie.get. rewrite Hdb. apply find_replaced with e; auto. }
  assert (Hin : List.In e' (Dexie.rows (Storage.episodes db'))).
  { unfold Dexie.get in Hget'. apply find_some in Hget'. tauto. }
  exists e'. split; [exact Hget'|].
  split; [reflexivity|]. split; [reflexivity|].
  split; [repeat split|]. split.
  - eexists. split; [apply getEpisodes_episodesOf|].
    apply sort_In. apply in_rev. rewrite rev_involutive.
    apply episodesOf_In. split; auto.
  - exists (Controller.addPodcastToEpisodes
              (Dexie.sortBy (@Episode.lastTimeListened Z)
                 (Dexie.reverse
                    (Dexie.aboveOrEqual Storage.positionIndex
                                        (Dexie.KNumber 0)
                                        (Storage.episodes db'))))
              (Dexie.rows (Storage.podcasts db'))).
    split; [reflexivity|].
    unfold Controller.addPodcastToEpisodes. rewrite map_map. simpl.
    rewrite map_id. unfold Dexie.sortBy. apply sort_In.
    unfold Dexie.collect, Dexie.reverse, Dexie.aboveOrEqual, Dexie.range.
    simpl. apply in_rev. rewrite rev_involutive. apply filter_In. split.
    + unfold Dexie.ascending. apply sort_In. apply filter_In. split; auto.
    + unfold Dexie.inRange, Storage.positionIndex. simpl.
      unfold Dexie.leb. simpl.
      destruct position; auto; exfalso; lia.
Qed.

Lemma updateEpisodeCurrentTime_takes_effect_witness :
  let w := Sample.added Sample.threeEpisodes in
  let e := Episode.withId 2
             (Controller.tagged
                (Controller.mapPodcastIndexOrgEpisodeToStorage
                   Sample.Date_parse Sample.two) 1) in
  let updating :=
    Controller.updateEpisodeCurrentTime Storage.Implementation.handler
                                        2000 2 120 w in
  let db' := Async.settle (snd updating) in
  fst updating = Fulfilled tt
  /\ exists e',
      Dexie.get (@Episode.id Z) 2 (Storage.episodes db') = Some e'
      /\ Episode.position e' = Some 120
      /\ Episode.lastTimeListened e' = Some (Some 2000)
      /\ sameButPlayback e e'
      /\ (exists episodes,
            fst (Storage.Implementation.getEpisodes (Episode.podcastId e) db')
            = Fulfilled episodes
            /\ List.In e' episodes)
      /\ (exists views,
            fst (Controller.getEpisodesInProgress
                   Storage.Implementation.handler (snd updating))
            = Fulfilled views
            /\ List.In e' (map Controller.EpisodeWithPodcastView.episode
                               views)).
Proof.
  apply (updateEpisodeCurrentTime_takes_effect
           (Sample.added Sample.threeEpisodes) 2000 2 120).
  - lia.
  - reflexivity.
Defined.

(* ================================================================== *)
(** * The write-back of the refresh *)

Section WriteBack.
Context {S : Type}.
Variable h : Storage.OfflineStorageHandler S.
Variable podcastIndexOrgClient : PodcastindexOrgClient.t.
Variable Date_parse : string -> Date.
Hypothesis reads : readsFulfil h.

Local Abbreviation refresh :=
  (Controller.refresh h podcastIndexOrgClient Date_parse).
Local Abbreviation fetch p :=
  (PodcastindexOrgClient.getEpisodes podcastIndexOrgClient (Podcast.feedUrl p)).

(** A pass is fulfilled whatever [putEpisodes] does; when the fetch
    failed it leaves the world alone, and otherwise it leaves exactly one
    call unsettled, a [putEpisodes]. *)
Lemma refresh_world (p : Podcast.t Z) (w : Async.World S) :
  fst (refresh p w) = Fulfilled tt
  /\ ((isRejected (fetch p) = true /\ snd (refresh p w) = w)
      \/ (isRejected (fetch p) = false
          /\ exists storedEpisodes,
              Async.unsettled (snd (refresh p w))
              = [fun s => snd (Storage.putEpisodes h storedEpisodes s)])).
Proof.
  destruct reads as (_ & HgetPodcast & HgetEpisodes).
  unfold Controller.refresh, Async.bind, Async.try, Async.request.
  destruct (fetch p) as [episodes|err]; simpl.
  - unfold Controller.getEpisodes, Async.bind, Async.await.
    specialize (HgetPodcast (Podcast.feedUrl p) (Async.settle w)).
    destruct (Storage.getPodcast h (Podcast.feedUrl p) (Async.settle w))
      as [[[q|]|err] s1]; simpl in *; try discriminate.
    + specialize (HgetEpisodes (Podcast.id q) s1).
      change (Async.settle (Async.quiet s1)) with s1.
      destruct (Storage.getEpisodes h (Podcast.id q) s1)
        as [[es|err] s2]; simpl in *; try discriminate.
      split; auto. right. split; auto. eexists. reflexivity.
    + split; auto. right. split; auto. eexists. reflexivity.
  - split; auto.
Qed.

Lemma forIn_refresh_world (ps : list (Podcast.t Z)) (w : Async.World S) :
  fst (Async.forIn ps refresh w) = Fulfilled tt
  /\ ((Forall (fun p => isRejected (fetch p) = true) ps
       /\ snd (Async.forIn ps refresh w) = w)
      \/ (Exists (fun p => isRejected (fetch p) = false) ps
          /\ exists storedEpisodes,
              Async.unsettled (snd (Async.forIn ps refresh w))
              = [fun s => snd (Storage.putEpisodes h storedEpisodes s)])).
Proof.
  revert w. induction ps as [|p ps IH]; intros w; simpl.
  - split; auto.
  - unfold Async.bind.
    destruct (refresh_world p w) as [Hok Hp].
    destruct (refresh p w) as [r w1]. simpl in Hok, Hp. subst r.
    destruct (IH w1) as [Hok' Hps]. split; auto.
    destruct Hps as [[Hall Hsame]|[Hex Hput]].
    + destruct Hp as [[Hrej ->]|[Hfetched Hput]].
      * left. split; auto.
      * right. split; [now constructor|]. now rewrite Hsame.
    + right. split; auto.
Qed.
End WriteBack.

(** C10: [updatePodcasts] drops the promise of [putEpisodes].  On any
    store whose reads do not fail, whatever its [putEpisodes] does (it may
    reject every time), [updatePodcasts] is fulfilled; and when the fetch
    succeeded for some stored podcast, a [putEpisodes] call is still
    unsettled at that moment: the lists reconciled last are not stored
    yet. *)
Theorem updatePodcasts_drops_putEpisodes
        {S : Type} (h : Storage.OfflineStorageHandler S)
        (client : PodcastindexOrgClient.t) (Date_parse : string -> Date)
        (w : Async.World S) :
  readsFulfil h ->
  let updating := Controller.updatePodcasts h client Date_parse w in
  fst updating = Fulfilled tt
  /\ forall podcasts s,
      Storage.getPodcasts h (Async.settle w) = (Fulfilled podcasts, s) ->
      Exists (fun p => isRejected (PodcastindexOrgClient.getEpisodes
                                     client (Podcast.feedUrl p)) = false)
             podcasts ->
      exists storedEpisodes,
        Async.unsettled (snd updating)
        = [fun s => snd (Storage.putEpisodes h storedEpisodes s)].
Proof.
  intros Hreads updating. subst updating.
  unfold Controller.updatePodcasts, Async.bind, Async.await.
  pose proof Hreads as (HgetPodcasts & _).
  specialize (HgetPodcasts (Async.settle w)).
  destruct (Storage.getPodcasts h (Async.settle w)) as [[ps|err] s1];
    simpl in HgetPodcasts; try discriminate.
  destruct (forIn_refresh_world h client Date_parse Hreads ps (Async.quiet s1))
    as [Hok Hworld].
  split; [exact Hok|].
  intros podcasts s Heq Hex. injection Heq as <- <-.
  destruct Hworld as [[Hall _]|[_ Hput]]; [|exact Hput].
  exfalso. apply Exists_exists in Hex. destruct Hex as [p [Hp Hfetched]].
  rewrite Forall_forall in Hall. specialize (Hall p Hp). congruence.
Qed.

Lemma readsFulfil_fullDisk : readsFulfil Sample.fullDisk.
Proof. repeat split. Qed.

(** On a store whose [putEpisodes] always rejects, [updatePodcasts] is
    fulfilled after a successful fetch, with the write unsettled. *)
Lemma updatePodcasts_drops_putEpisodes_witness :
  let updating :=
    Controller.updatePodcasts Sample.fullDisk
      (Sample.directory Sample.laterEpisodes) Sample.Date_parse
      (Sample.added Sample.threeEpisodes) in
  (forall episodes db,
      fst (Storage.putEpisodes Sample.fullDisk episodes db)
      = Rejected BulkError)
  /\ fst updating = Fulfilled tt
  /\ exists storedEpisodes,
      Async.unsettled (snd updating)
      = [fun s => snd (Storage.putEpisodes Sample.fullDisk storedEpisodes s)].
Proof.
  destruct (updatePodcasts_drops_putEpisodes
              Sample.fullDisk (Sample.directory Sample.laterEpisodes)
              Sample.Date_parse (Sample.added Sample.threeEpisodes)
              readsFulfil_fullDisk) as [Hok Hput].
  split; [reflexivity|]. split; [exact Hok|].
  apply (Hput [Sample.storedPodcast]
              (Async.settle (Sample.added Sample.threeEpisodes))).
  - reflexivity.
  - constructor. reflexivity.
Defined.

(** On the implementation of the store, in the scenario of C1: when
    [updatePodcasts] is fulfilled the store still holds the three episodes
    as they were added; the fourth one and the refreshed data are there
    once the write has settled. *)
Lemma updatePodcasts_resolves_before_the_write :
  let updating :=
    Controller.updatePodcasts Storage.Implementation.handler
      (Sample.directory Sample.laterEpisodes) Sample.Date_parse
      (Sample.added Sample.threeEpisodes) in
  fst updating = Fulfilled tt
  /\ map (@Episode.title Z) (episodesOf 1 (Async.store (snd updating)))
     = [Some "one"; Some "two"; Some "three"]%string
  /\ map (@Episode.title Z) (episodesOf 1 (Async.settle (snd updating)))
     = [Some "one"; Some "two, revised"; Some "three, revised";
        Some "four"]%string.
Proof. vm_compute. auto. Qed.

(* ================================================================== *)
(** * Further properties of the storage handler *)

Lemma find_upsert {R : Type} (primKey : R -> Z) (r : R) (rs : list R) :
  find (fun x => primKey x =? primKey r) (Dexie.upsert primKey r rs) = Some r.
Proof.
  induction rs as [|x rs IH]; simpl.
  - now rewrite Z.eqb_refl.
  - destruct (primKey r <? primKey x) eqn:Elt; simpl.
    + now rewrite Z.eqb_refl.
    + destruct (primKey r =? primKey x) eqn:Eeq; simpl.
      * now rewrite Z.eqb_refl.
      * rewrite Z.eqb_sym, Eeq. exact IH.
Qed.

Lemma withPodcasts_same (db : Storage.Database) :
  Storage.withPodcasts db (Storage.podcasts db) = db.
Proof. now destruct db. Qed.

Lemma withEpisodes_same (db : Storage.Database) :
  Storage.withEpisodes db (Storage.episodes db) = db.
Proof. now destruct db. Qed.

Lemma Permutation_filter_kept {A : Type} (f : A -> bool) (l l' : list A) :
  Permutation l l' -> Permutation (filter f l) (filter f l').
Proof.
  induction 1 as [|x l l' _ IH|x y l|l l' l'' _ IH1 _ IH2]; simpl.
  - constructor.
  - destruct (f x); auto.
  - destruct (f x), (f y); auto. constructor.
  - now transitivity (filter f l').
Qed.

(** X1: a podcast that [addPodcast] of the store accepted is read back
    unchanged, with the id the call resolved to, both by that id and by
    its feed URL; the id was not in use, the other podcasts are all still
    stored and the episodes are untouched.  In a well-formed table an
    object without [id] gets an id above every stored one. *)
Theorem addPodcast_then_read
        (db db1 : Storage.Database) (p : Podcast.t (option Z)) (k : Z) :
  Storage.Implementation.addPodcast p db = (Fulfilled k, db1) ->
  let P := Podcast.withId k p in
  fst (Storage.Implementation.getPodcastById k db1) = Fulfilled (Some P)
  /\ fst (Storage.Implementation.getPodcast (Podcast.feedUrl p) db1)
     = Fulfilled (Some P)
  /\ ~ List.In k (map (@Podcast.id Z) (Dexie.rows (Storage.podcasts db)))
  /\ Permutation (Dexie.rows (Storage.podcasts db1))
                 (P :: Dexie.rows (Storage.podcasts db))
  /\ Storage.episodes db1 = Storage.episodes db
  /\ (wfTable (@Podcast.id Z) (Storage.podcasts db) ->
      Podcast.id p = None ->
      Forall (fun x => Podcast.id x < k) (Dexie.rows (Storage.podcasts db))).
Proof.
  intros Hadd P. unfold Storage.Implementation.addPodcast, Dexie.add in Hadd.
  set (k0 := Dexie.keyFor (@Podcast.id (option Z)) p (Storage.podcasts db))
    in Hadd.
  destruct (existsb _ _) eqn:Efree in Hadd; [discriminate|].
  injection Hadd as Hk Hdb. subst k0. rewrite Hk in Efree, Hdb. subst db1.
  assert (Hfree : forall x, List.In x (Dexie.rows (Storage.podcasts db)) ->
                            Podcast.id x <> k
                            /\ Podcast.feedUrl x <> Podcast.feedUrl p).
  { intros x Hx.
    assert (E : (Podcast.id x =? k) || Storage.sameFeedUrl P x = false).
    { destruct ((Podcast.id x =? k) || Storage.sameFeedUrl P x) eqn:E; auto.
      rewrite <- Efree. symmetry. apply existsb_exists. now exists x. }
    apply orb_false_iff in E. destruct E as [E1 E2]. split.
    - now apply Z.eqb_neq.
    - unfold Storage.sameFeedUrl in E2. simpl in E2.
      apply String.eqb_neq in E2. congruence. }
  assert (Hperm : Permutation
                    (Dexie.upsert (@Podcast.id Z) P
                                  (Dexie.rows (Storage.podcasts db)))
                    (P :: Dexie.rows (Storage.podcasts db))).
  { apply upsert_fresh_Permutation. apply existsb_all_false.
    intros x Hx. apply Z.eqb_neq. simpl. now apply Hfree. }
  simpl. split; [|split; [|split; [|split; [|split]]]].
  - unfold Dexie.get. simpl.
    change k with (Podcast.id P) at 1. now rewrite find_upsert.
  - unfold Dexie.first, Dexie.collect, Dexie.equals. simpl.
    match goal with
    | |- context [filter ?f (Dexie.upsert _ _ _)] =>
        assert (Hf : Permutation
                       (filter f (Dexie.upsert (@Podcast.id Z) P
                                    (Dexie.rows (Storage.podcasts db))))
                       [P])
    end.
    { etransitivity; [apply Permutation_filter_kept, Hperm|].
      cbn [filter]. rewrite eqb_KString.
      replace (Podcast.feedUrl P =? Podcast.feedUrl p)%string with true
        by (symmetry; apply String.eqb_refl).
      rewrite filter_none; [reflexivity|].
      apply Forall_forall. intros x Hx.
      rewrite eqb_KString. apply String.eqb_neq. now apply Hfree. }
    apply Permutation_sym, Permutation_length_1_inv in Hf.
    fold P. now rewrite Hf.
  - intros Hin. apply in_map_iff in Hin. destruct Hin as [x [Hx Hin]].
    destruct (Hfree x Hin) as [Hne _]. now apply Hne.
  - exact Hperm.
  - reflexivity.
  - intros [_ Hkg] Hid. unfold Dexie.keyFor in Hk. rewrite Hid in Hk.
    now rewrite <- Hk.
Qed.

Lemma addPodcast_then_read_witness :
  let p := Podcast.withId (@None Z) (Controller.newPodcast Sample.toAdd) in
  let db1 := snd (Storage.Implementation.addPodcast p Storage.emptyDatabase) in
  fst (Storage.Implementation.getPodcastById 1 db1)
  = Fulfilled (Some (Podcast.withId 1 p))
  /\ fst (Storage.Implementation.getPodcast Sample.feedUrl db1)
     = Fulfilled (Some (Podcast.withId 1 p)).
Proof.
  intros p db1.
  destruct (addPodcast_then_read Storage.emptyDatabase db1 p 1 eq_refl)
    as (H1 & H2 & _).
  split; [exact H1|exact H2].
Defined.

(** X2: [updateEpisodeCurrentTime] with an id no stored episode has
    changes nothing: the call returns, the update it issued settles
    without storing anything, and no episode is created. *)
Theorem updateEpisodeCurrentTime_unknown_episode
        (w : Async.World Storage.Database) (now episodeId position : Z) :
  Dexie.get (@Episode.id Z) episodeId (Storage.episodes (Async.settle w))
  = None ->
  let updating :=
    Controller.updateEpisodeCurrentTime Storage.Implementation.handler
                                        now episodeId position w in
  fst updating = Fulfilled tt
  /\ Async.settle (snd updating) = Async.settle w.
Proof.
  intros Hget updating. split; [reflexivity|].
  unfold updating, Controller.updateEpisodeCurrentTime, Async.detach.
  unfold Async.settle at 1. simpl. rewrite fold_left_app. simpl.
  fold (Async.settle w).
  unfold Storage.Implementation.updateEpisode, Dexie.update. simpl.
  rewrite Hget. simpl. apply withEpisodes_same.
Qed.

Lemma updateEpisodeCurrentTime_unknown_episode_witness :
  let w := Sample.added Sample.threeEpisodes in
  Async.settle
    (snd (Controller.updateEpisodeCurrentTime Storage.Implementation.handler
                                              2000 9 120 w))
  = Async.settle w.
Proof.
  intros w.
  apply (updateEpisodeCurrentTime_unknown_episode w 2000 9 120).
  reflexivity.
Defined.

Lemma find_other_key {R : Type} (primKey : R -> Z) (k q : Z) (g : R -> R)
      (rs : list R) :
  q <> k -> (forall x, primKey (g x) = primKey x) ->
  find (fun x => primKey x =? q)
       (map (fun x => if primKey x =? k then g x else x) rs)
  = find (fun x => primKey x =? q) rs.
Proof.
  intros Hq Hg. induction rs as [|x rs IH]; simpl; auto.
  destruct (primKey x =? k) eqn:Ek.
  - rewrite Hg. apply Z.eqb_eq in Ek.
    destruct (primKey x =? q) eqn:Eq; [apply Z.eqb_eq in Eq; lia|exact IH].
  - now rewrite IH.
Qed.

Lemma NoDup_map_same {A B : Type} (f : A -> B) (l : list A) (x y : A) :
  NoDup (map f l) -> List.In x l -> List.In y l -> f x = f y -> x = y.
Proof.
  induction l as [|a l IH]; simpl; [contradiction|].
  intros Hnd Hx Hy E. inversion Hnd as [|? ? Hnotin Hnd']; subst.
  destruct Hx as [->|Hx], Hy as [->|Hy]; auto.
  - exfalso. apply Hnotin. rewrite E. now apply in_map.
  - exfalso. apply Hnotin. rewrite <- E. now apply in_map.
Qed.

Lemma get_stored {R : Type} (primKey : R -> Z) (t : Dexie.Table R) (x : R) :
  keysAscending primKey (Dexie.rows t) -> List.In x (Dexie.rows t) ->
  Dexie.get primKey (primKey x) t = Some x.
Proof.
  intros Hasc Hin. unfold Dexie.get.
  destruct (find _ _) as [y|] eqn:Hfind.
  - apply find_some in Hfind. destruct Hfind as [Hy Ey].
    apply Z.eqb_eq in Ey. f_equal.
    eapply keysAscending_unique; [exact Hasc|exact Hy|exact Hin|exact Ey].
  - exfalso. apply (find_none _ _ Hfind) in Hin.
    now rewrite Z.eqb_refl in Hin.
Qed.

(** [Table.update] of a stored podcast, its feed URL left alone. *)
Lemma updatePodcast_stored (db : Storage.Database)
      (changes : PodcastChanges.t) (P : Podcast.t Z) :
  wfDatabase db ->
  List.In P (Dexie.rows (Storage.podcasts db)) ->
  PodcastChanges.id changes = Podcast.id P ->
  PodcastChanges.feedUrl changes = None ->
  Storage.Implementation.updatePodcast changes db
  = (Fulfilled tt,
     Storage.withPodcasts db
       {| Dexie.rows :=
            map (fun x => if Podcast.id x =? Podcast.id P
                          then PodcastChanges.apply changes x else x)
                (Dexie.rows (Storage.podcasts db));
          Dexie.keyGenerator := Dexie.keyGenerator (Storage.podcasts db) |}).
Proof.
  intros (Hwp & Hwe & Hfeed) Hin Hid Hurl.
  destruct Hwp as [Hasc Hkg].
  unfold Storage.Implementation.updatePodcast, Dexie.update.
  rewrite Hid, (get_stored _ _ P Hasc Hin). rewrite existsb_all_false.
  - f_equal. f_equal. f_equal. apply map_ext_in. intros x Hx.
    destruct (Podcast.id x =? Podcast.id P) eqn:Ek; auto.
    apply Z.eqb_eq in Ek. f_equal. symmetry.
    eapply keysAscending_unique; [exact Hasc|exact Hx|exact Hin|exact Ek].
  - intros x Hx. unfold Storage.sameFeedUrl. simpl. rewrite Hurl. simpl.
    destruct (Podcast.id x =? Podcast.id P) eqn:Ek; auto. simpl.
    apply String.eqb_neq. intros E. apply Z.eqb_neq in Ek. apply Ek.
    f_equal. eapply NoDup_map_same; [exact Hfeed|exact Hx|exact Hin|].
    now symmetry.
Qed.

(** X3: [updatePodcast] of a stored podcast with changes that leave the
    feed URL alone (as both calls of the controller do) is fulfilled; the
    podcast of that id takes the changes, every other podcast and every
    episode is as before, no podcast is added or removed, and the store
    stays well formed. *)
Theorem updatePodcast_modifies_one
        (db : Storage.Database) (changes : PodcastChanges.t)
        (P : Podcast.t Z) :
  wfDatabase db ->
  List.In P (Dexie.rows (Storage.podcasts db)) ->
  PodcastChanges.id changes = Podcast.id P ->
  PodcastChanges.feedUrl changes = None ->
  exists db',
    Storage.Implementation.updatePodcast changes db = (Fulfilled tt, db')
    /\ fst (Storage.Implementation.getPodcastById (Podcast.id P) db')
       = Fulfilled (Some (PodcastChanges.apply changes P))
    /\ (forall q, q <> Podcast.id P ->
                  fst (Storage.Implementation.getPodcastById q db')
                  = fst (Storage.Implementation.getPodcastById q db))
    /\ map (@Podcast.id Z) (Dexie.rows (Storage.podcasts db'))
       = map (@Podcast.id Z) (Dexie.rows (Storage.podcasts db))
    /\ map (@Podcast.feedUrl Z) (Dexie.rows (Storage.podcasts db'))
       = map (@Podcast.feedUrl Z) (Dexie.rows (Storage.podcasts db))
    /\ Storage.episodes db' = Storage.episodes db
    /\ wfDatabase db'.
Proof.
  intros Hwf Hin Hid Hurl.
  rewrite (updatePodcast_stored db changes P Hwf Hin Hid Hurl).
  destruct Hwf as (Hwp & Hwe & Hfeed).
  assert (Hkeep : forall x, Podcast.feedUrl (PodcastChanges.apply changes x)
                            = Podcast.feedUrl x).
  { intros x. simpl. now rewrite Hurl. }
  assert (Hfeeds :
            map (@Podcast.feedUrl Z)
                (map (fun x => if Podcast.id x =? Podcast.id P
                               then PodcastChanges.apply changes x else x)
                     (Dexie.rows (Storage.podcasts db)))
            = map (@Podcast.feedUrl Z) (Dexie.rows (Storage.podcasts db))).
  { rewrite map_map. apply map_ext. intros x.
    destruct (Podcast.id x =? Podcast.id P); auto. }
  eexists. split; [reflexivity|]. simpl.
  split; [|split; [|split; [|split; [|split]]]].
  - unfold Dexie.get. simpl. f_equal.
    rewrite (map_ext_in _
               (fun x => if Podcast.id x =? Podcast.id P
                         then PodcastChanges.apply changes P else x)).
    + apply find_replaced with P; [|reflexivity].
      apply (get_stored (@Podcast.id Z) (Storage.podcasts db) P); auto.
      apply Hwp.
    + intros x Hx. simpl.
      destruct (Podcast.id x =? Podcast.id P) eqn:Ek; auto.
      apply Z.eqb_eq in Ek. f_equal.
      destruct Hwp as [Hasc _].
      eapply keysAscending_unique; [exact Hasc|exact Hx|exact Hin|exact Ek].
  - intros q Hq. unfold Dexie.get. simpl. f_equal.
    now apply (find_other_key (@Podcast.id Z) (Podcast.id P) q
                              (PodcastChanges.apply changes)).
  - rewrite map_map. apply map_ext. intros x.
    now destruct (Podcast.id x =? Podcast.id P).
  - exact Hfeeds.
  - reflexivity.
  - split; [|split]; simpl.
    + apply (wfTable_map (@Podcast.id Z)
               (fun x => if Podcast.id x =? Podcast.id P
                         then PodcastChanges.apply changes x else x)
               (Storage.podcasts db) Hwp).
      intros x. now destruct (Podcast.id x =? Podcast.id P).
    + exact Hwe.
    + now rewrite Hfeeds.
Qed.

Lemma updatePodcast_modifies_one_witness :
  let db := Async.settle (Sample.added Sample.threeEpisodes) in
  let changes :=
    {| PodcastChanges.id := 1;
       PodcastChanges.status := None;
       PodcastChanges.feedUrl := None;
       PodcastChanges.alternateFeedUrls := None;
       PodcastChanges.lastBuildDate := None;
       PodcastChanges.lastItemPubDate := None;
       PodcastChanges.firstItemPubDate := None;
       PodcastChanges.title := Some None;
       PodcastChanges.description := None;
       PodcastChanges.link := None;
       PodcastChanges.imageUrl := None;
       PodcastChanges.subscribed := Some false;
       PodcastChanges.podcastIndexOrgId := None;
       PodcastChanges.podcastIndexOrgLastEpisodeFetch := None;
       PodcastChanges.value := None |} in
  exists db',
    Storage.Implementation.updatePodcast changes db = (Fulfilled tt, db')
    /\ fst (Storage.Implementation.getPodcastById 1 db')
       = Fulfilled (Some (PodcastChanges.apply changes Sample.storedPodcast)).
Proof.
  intros db changes.
  destruct (updatePodcast_modifies_one db changes Sample.storedPodcast)
    as (db' & H1 & H2 & _).
  - exact wfDatabase_added_threeEpisodes.
  - left. reflexivity.
  - reflexivity.
  - reflexivity.
  - exists db'. split; [exact H1|exact H2].
Defined.

Lemma keysAscending_filter {R : Type} (primKey : R -> Z) (f : R -> bool)
      (rs : list R) :
  keysAscending primKey rs -> keysAscending primKey (filter f rs).
Proof.
  induction rs as [|x rs IH]; simpl; auto.
  intros H. apply keysAscending_cons in H. destruct H as [Hrs Hx].
  destruct (f x); auto. apply keysAscending_cons. split; auto.
  apply Forall_forall. intros y Hy. apply filter_In in Hy.
  rewrite Forall_forall in Hx. now apply Hx.
Qed.

Lemma wfTable_filter {R : Type} (primKey : R -> Z) (f : R -> bool)
      (t : Dexie.Table R) :
  wfTable primKey t ->
  wfTable primKey {| Dexie.rows := filter f (Dexie.rows t);
                     Dexie.keyGenerator := Dexie.keyGenerator t |}.
Proof.
  intros [Hasc Hkg]. split; simpl.
  - now apply keysAscending_filter.
  - apply Forall_forall. intros y Hy. apply filter_In in Hy.
    rewrite Forall_forall in Hkg. now apply Hkg.
Qed.

Lemma NoDup_map_filter {A B : Type} (g : A -> B) (f : A -> bool)
      (l : list A) :
  NoDup (map g l) -> NoDup (map g (filter f l)).
Proof.
  induction l as [|x l IH]; simpl; auto.
  intros H. inversion H as [|? ? Hnotin Hnd]; subst.
  destruct (f x); auto. simpl. constructor; auto.
  intros Hin. apply Hnotin. apply in_map_iff in Hin.
  destruct Hin as [y [E Hy]]. apply filter_In in Hy.
  rewrite <- E. apply in_map. tauto.
Qed.

Lemma find_filter_other {R : Type} (key : R -> Z) (k q : Z) (rs : list R) :
  q <> k ->
  find (fun x => key x =? q) (filter (fun x => negb (key x =? k)) rs)
  = find (fun x => key x =? q) rs.
Proof.
  intros Hq. induction rs as [|x rs IH]; simpl; auto.
  destruct (key x =? k) eqn:E1; simpl.
  - apply Z.eqb_eq in E1.
    destruct (key x =? q) eqn:E2; [apply Z.eqb_eq in E2; lia|exact IH].
  - now rewrite IH.
Qed.

Lemma filter_filter_other {R : Type} (key : R -> Z) (k q : Z) (rs : list R) :
  q <> k ->
  filter (fun x => key x =? q) (filter (fun x => negb (key x =? k)) rs)
  = filter (fun x => key x =? q) rs.
Proof.
  intros Hq. induction rs as [|x rs IH]; simpl; auto.
  destruct (key x =? k) eqn:E1; simpl.
  - apply Z.eqb_eq in E1.
    destruct (key x =? q) eqn:E2; [apply Z.eqb_eq in E2; lia|exact IH].
  - now rewrite IH.
Qed.

(** What [deletePodcastById] leaves of a store whose episode keys are
    distinct: the podcasts of another id and the episodes of another
    podcast. *)
Lemma deletePodcastById_store (podcastId : Z) (db : Storage.Database) :
  keysAscending (@Episode.id Z) (Dexie.rows (Storage.episodes db)) ->
  snd (Storage.Implementation.deletePodcastById podcastId db)
  = {| Storage.podcasts :=
         {| Dexie.rows :=
              filter (fun p => negb (Podcast.id p =? podcastId))
                     (Dexie.rows (Storage.podcasts db));
            Dexie.keyGenerator := Dexie.keyGenerator (Storage.podcasts db) |};
       Storage.episodes :=
         {| Dexie.rows :=
              filter (fun e => negb (Episode.podcastId e =? podcastId))
                     (Dexie.rows (Storage.episodes db));
            Dexie.keyGenerator :=
              Dexie.keyGenerator (Storage.episodes db) |} |}.
Proof.
  intros Hasc. unfold Storage.Implementation.deletePodcastById. simpl.
  unfold Storage.withPodcasts, Storage.withEpisodes, Dexie.delete,
    Dexie.deleteAll. simpl. f_equal. f_equal.
  apply filter_ext_in. intros x Hx. f_equal.
  unfold Dexie.collect. simpl.
  destruct (Episode.podcastId x =? podcastId) eqn:E.
  - apply existsb_exists. exists x. split; [|apply Z.eqb_refl].
    apply filter_In. split; auto. unfold Storage.podcastIdIndex.
    now rewrite eqb_KNumber.
  - apply existsb_all_false. intros y Hy. apply filter_In in Hy.
    destruct Hy as [Hy Ey]. unfold Storage.podcastIdIndex in Ey.
    rewrite eqb_KNumber in Ey. apply Z.eqb_neq. intros Eid.
    assert (y = x)
      by (eapply keysAscending_unique;
          [exact Hasc|exact Hy|exact Hx|exact Eid]).
    subst y. congruence.
Qed.

(** X4: [deletePodcastById] touches nothing but the podcast of that id and
    its episodes: in a well-formed store every other podcast is still
    read by its id, the episodes of every other podcast are the same, the
    store stays well formed, every remaining episode still has its
    podcast if it had one, and the key generators are where they were (a
    later podcast does not get the deleted id). *)
Theorem deletePodcastById_keeps_the_rest
        (db : Storage.Database) (podcastId : Z) :
  wfDatabase db ->
  let db' := snd (Storage.Implementation.deletePodcastById podcastId db) in
  (forall q, q <> podcastId ->
             episodesOf q db' = episodesOf q db
             /\ fst (Storage.Implementation.getPodcastById q db')
                = fst (Storage.Implementation.getPodcastById q db))
  /\ (forall p, List.In p (Dexie.rows (Storage.podcasts db'))
                <-> List.In p (Dexie.rows (Storage.podcasts db))
                    /\ Podcast.id p <> podcastId)
  /\ wfDatabase db'
  /\ (referential db -> referential db')
  /\ Dexie.keyGenerator (Storage.podcasts db')
     = Dexie.keyGenerator (Storage.podcasts db)
  /\ Dexie.keyGenerator (Storage.episodes db')
     = Dexie.keyGenerator (Storage.episodes db).
Proof.
  intros (Hwp & Hwe & Hfeed) db'. unfold db'.
  rewrite deletePodcastById_store by apply Hwe.
  assert (Hrows : forall p,
             List.In p (filter (fun p => negb (Podcast.id p =? podcastId))
                               (Dexie.rows (Storage.podcasts db)))
             <-> List.In p (Dexie.rows (Storage.podcasts db))
                 /\ Podcast.id p <> podcastId).
  { intros p. rewrite filter_In, negb_true_iff, Z.eqb_neq. tauto. }
  split; [|split; [|split; [|split; [|split]]]]; simpl; auto.
  - intros q Hq. split.
    + unfold episodesOf. simpl.
      now apply (filter_filter_other (@Episode.podcastId Z)).
    + unfold Dexie.get. simpl. f_equal.
      now apply (find_filter_other (@Podcast.id Z)).
  - split; [|split]; simpl.
    + now apply (wfTable_filter (@Podcast.id Z)).
    + now apply (wfTable_filter (@Episode.id Z)).
    + now apply NoDup_map_filter.
  - unfold referential. simpl. intros Href.
    apply Forall_forall. intros e He. apply filter_In in He.
    destruct He as [He Ee]. rewrite Forall_forall in Href.
    specialize (Href e He). apply in_map_iff in Href.
    destruct Href as [p [Ep Hp]]. apply in_map_iff. exists p.
    split; auto. apply Hrows. split; auto.
    apply negb_true_iff, Z.eqb_neq in Ee. congruence.
Qed.

Lemma deletePodcastById_keeps_the_rest_witness :
  let db := Async.settle (Sample.added Sample.threeEpisodes) in
  let db' := snd (Storage.Implementation.deletePodcastById 2 db) in
  episodesOf 1 db' = episodesOf 1 db /\ wfDatabase db'.
Proof.
  intros db db'.
  destruct (deletePodcastById_keeps_the_rest
              db 2 wfDatabase_added_threeEpisodes) as (H1 & _ & H3 & _).
  split; [apply (H1 1); lia|exact H3].
Defined.

(** X5: deleting a podcast a second time changes nothing more, and
    deleting an id that no podcast has and no episode refers to changes
    nothing at all; the call is fulfilled either way. *)
Theorem deletePodcastById_again (db : Storage.Database) (podcastId : Z) :
  let once := Storage.Implementation.deletePodcastById podcastId db in
  let twice := Storage.Implementation.deletePodcastById podcastId (snd once) in
  fst once = Fulfilled tt
  /\ twice = (Fulfilled tt, snd once)
  /\ (~ List.In podcastId
                (map (@Podcast.id Z) (Dexie.rows (Storage.podcasts db))) ->
      episodesOf podcastId db = [] ->
      snd once = db).
Proof.
  assert (Habsent : forall d,
             ~ List.In podcastId
                       (map (@Podcast.id Z) (Dexie.rows (Storage.podcasts d))) ->
             episodesOf podcastId d = [] ->
             Storage.Implementation.deletePodcastById podcastId d
             = (Fulfilled tt, d)).
  { intros d Hp He. unfold Storage.Implementation.deletePodcastById.
    f_equal. destruct d as [[ps kp] [es ke]].
    unfold Storage.withPodcasts, Storage.withEpisodes, Dexie.delete,
      Dexie.deleteAll, Dexie.collect. simpl in *.
    unfold episodesOf in He. simpl in He.
    rewrite (filter_ext
               (fun r : Episode.t Z =>
                  Dexie.eqb (Dexie.KNumber (Episode.podcastId r))
                            (Dexie.KNumber podcastId))
               (fun e => Episode.podcastId e =? podcastId))
      by (intros r; apply eqb_KNumber).
    rewrite He. simpl.
    rewrite (filter_all (fun _ => true)) by (apply Forall_forall; auto).
    rewrite filter_all; auto.
    apply Forall_forall. intros p Hin. apply negb_true_iff, Z.eqb_neq.
    intros E. apply Hp. rewrite <- E. now apply in_map. }
  intros once twice. split; [reflexivity|]. split.
  - unfold twice. apply Habsent.
    + unfold once. simpl. intros Hin. apply in_map_iff in Hin.
      destruct Hin as [p [E Hp]]. apply filter_In in Hp.
      destruct Hp as [_ Hp]. apply negb_true_iff, Z.eqb_neq in Hp. auto.
    + apply deletePodcastById_episodes.
  - intros Hp He. unfold once. now rewrite Habsent.
Qed.

Lemma Forall2_sameRecord_refl {I : Type} (l : list (Episode.t I)) :
  Forall2 sameRecord l l.
Proof. induction l; constructor; auto. apply sameRecord_refl. Qed.

(** X6: putting back the episodes [getEpisodes] read, as they were read,
    is fulfilled and leaves a store with distinct episode keys
    unchanged. *)
Theorem putEpisodes_of_getEpisodes
        (db : Storage.Database) (podcastId : Z) (es : list (Episode.t Z)) :
  wfTable (@Episode.id Z) (Storage.episodes db) ->
  fst (Storage.Implementation.getEpisodes podcastId db) = Fulfilled es ->
  Storage.Implementation.putEpisodes
    (map (fun e => Episode.withId (Some (Episode.id e)) e) es) db
  = (Fulfilled tt, db).
Proof.
  intros Hwf Hget.
  destruct (getEpisodes_Permutation podcastId db) as [es' [Hes Hperm]].
  rewrite Hes in Hget. simpl in Hget. injection Hget as ->.
  pose proof (putEpisodes_reconciled podcastId db es
                (map (fun e => Episode.withId (Some (Episode.id e)) e) es) []
                Hwf Hperm) as Hput.
  rewrite app_nil_r in Hput. rewrite Hput.
  - f_equal. simpl. rewrite app_nil_r, Z.add_0_r.
    rewrite map_unchanged.
    + destruct db as [ps [rs kg]]. reflexivity.
    + intros x Hx. unfold replaced.
      destruct (find _ _) as [o|] eqn:Hfind; auto.
      apply find_some in Hfind. destruct Hfind as [Ho Eo].
      apply in_map_iff in Ho. destruct Ho as [y [<- Hy]]. simpl in Eo.
      apply Z.eqb_eq in Eo.
      assert (y = x).
      { destruct Hwf as [Hasc _].
        eapply keysAscending_unique; [exact Hasc| |exact Hx|exact Eo].
        eapply Permutation_in in Hy; [|exact Hperm].
        apply episodesOf_In in Hy. tauto. }
      subst y. now destruct x.
  - apply Forall2_sameRecord_refl.
  - constructor.
Qed.

Lemma putEpisodes_of_getEpisodes_witness :
  let db := Async.settle (Sample.added Sample.threeEpisodes) in
  exists es,
    fst (Storage.Implementation.getEpisodes 1 db) = Fulfilled es
    /\ List.length es = 3%nat
    /\ Storage.Implementation.putEpisodes
         (map (fun e => Episode.withId (Some (Episode.id e)) e) es) db
       = (Fulfilled tt, db).
Proof.
  intros db. eexists. split; [reflexivity|]. split; [reflexivity|].
  apply (putEpisodes_of_getEpisodes db 1).
  - apply wfDatabase_added_threeEpisodes.
  - reflexivity.
Defined.

(* ================================================================== *)
(** * Reading episodes and podcasts *)

(** [sortBy] on a reversed collection sorts by descending date, as long
    as every record has a valid date. *)
Lemma sorter_descending {R : Type} (getval : R -> option Date) (ms : R -> Z)
      (l : list R) :
  Forall (fun a => getval a = Some (Some (ms a))) l ->
  StronglySorted (fun a b => ms b <= ms a)
                 (Js.sort (Dexie.sorter (-1) getval) l).
Proof.
  apply (sort_StronglySorted
           (Dexie.sorter (-1) getval)
           (fun a b => ms b <= ms a)
           (fun a => getval a = Some (Some (ms a)))).
  - intros a b Ha Hb. unfold Dexie.sorter, Js.lt. rewrite Ha, Hb.
    destruct (ms a <? ms b) eqn:E1; [discriminate|].
    intros _. apply Z.ltb_ge in E1. exact E1.
  - intros a b Ha Hb. unfold Dexie.sorter, Js.lt. rewrite Ha, Hb.
    destruct (ms a <? ms b) eqn:E1.
    + intros _. apply Z.ltb_lt in E1. lia.
    + destruct (ms b <? ms a); discriminate.
  - intros a b c. lia.
Qed.

Lemma getEpisodes_run (feedUrl : string) (w : Async.World Storage.Database) :
  Controller.getEpisodes Storage.Implementation.handler feedUrl w
  = (Fulfilled (storedEpisodes feedUrl (Async.settle w)),
     Async.quiet (Async.settle w)).
Proof.
  unfold Controller.getEpisodes, storedEpisodes, Async.bind, Async.await,
    Async.ret. simpl.
  destruct (Dexie.first _) as [p|]; reflexivity.
Qed.

(** X7: [getEpisodes(feedUrl)] of a stored podcast resolves to the
    episodes of that podcast, each once and with its id, and to no
    episode of another podcast; they come newest first when each has a
    valid publish date; the store is left as it was. *)
Theorem getEpisodes_of_stored_podcast
        (w : Async.World Storage.Database) (p : Podcast.t Z) :
  let db := Async.settle w in
  wfDatabase db ->
  List.In p (Dexie.rows (Storage.podcasts db)) ->
  exists es,
    Controller.getEpisodes Storage.Implementation.handler
                           (Podcast.feedUrl p) w
    = (Fulfilled (map (fun e => Episode.withId (Some (Episode.id e)) e) es),
       Async.quiet db)
    /\ Permutation es (episodesOf (Podcast.id p) db)
    /\ (Forall (fun e => Episode.pubDate e = Some (Some (pubDateMs e)))
               (episodesOf (Podcast.id p) db) ->
        StronglySorted (fun a b => pubDateMs b <= pubDateMs a) es).
Proof.
  intros db (Hwp & Hwe & Hfeed) Hin. rewrite getEpisodes_run. fold db.
  unfold storedEpisodes. rewrite (first_by_feedUrl _ p Hfeed Hin).
  eexists. split; [reflexivity|]. split.
  - unfold Dexie.sortBy. etransitivity; [apply sort_Permutation|].
    unfold Dexie.collect, Dexie.reverse. simpl.
    etransitivity; [symmetry; apply Permutation_rev|].
    rewrite (filter_ext _ (fun e => Episode.podcastId e =? Podcast.id p))
      by (intros r; apply eqb_KNumber).
    reflexivity.
  - intros Hvalid. unfold Dexie.sortBy. simpl.
    apply sorter_descending. unfold Dexie.collect. simpl.
    apply Forall_forall. intros e He. apply in_rev in He.
    rewrite Forall_forall in Hvalid. apply Hvalid.
    unfold episodesOf.
    rewrite (filter_ext _ (fun e => Episode.podcastId e =? Podcast.id p))
      in He by (intros r; apply eqb_KNumber).
    exact He.
Qed.

Lemma getEpisodes_of_stored_podcast_witness :
  let w := Sample.added Sample.threeEpisodes in
  let p := Sample.storedPodcast in
  exists es,
    Controller.getEpisodes Storage.Implementation.handler
                           (Podcast.feedUrl p) w
    = (Fulfilled (map (fun e => Episode.withId (Some (Episode.id e)) e) es),
       Async.quiet (Async.settle w))
    /\ Permutation es (episodesOf (Podcast.id p) (Async.settle w))
    /\ (Forall (fun e => Episode.pubDate e = Some (Some (pubDateMs e)))
               (episodesOf (Podcast.id p) (Async.settle w)) ->
        StronglySorted (fun a b => pubDateMs b <= pubDateMs a) es).
Proof.
  intros w p.
  apply (getEpisodes_of_stored_podcast w p).
  - exact wfDatabase_added_threeEpisodes.
  - left. reflexivity.
Defined.

(** X8: for a feed URL no stored podcast has, [getPodcast] resolves to
    undefined and [getEpisodes] to an empty array, without an error and
    without a change to the store. *)
Theorem getEpisodes_of_unknown_feed
        (w : Async.World Storage.Database) (feedUrl : string) :
  let db := Async.settle w in
  ~ List.In feedUrl
            (map (@Podcast.feedUrl Z) (Dexie.rows (Storage.podcasts db))) ->
  Controller.getPodcast Storage.Implementation.handler feedUrl w
  = (Fulfilled None, Async.quiet db)
  /\ Controller.getEpisodes Storage.Implementation.handler feedUrl w
     = (Fulfilled [], Async.quiet db).
Proof.
  intros db Hnew. split.
  - unfold Controller.getPodcast, Async.await. simpl. fold db.
    now rewrite (first_by_feedUrl_none _ _ Hnew).
  - rewrite getEpisodes_run. fold db. unfold storedEpisodes.
    now rewrite (first_by_feedUrl_none _ _ Hnew).
Qed.

Lemma getEpisodes_of_unknown_feed_witness :
  let w := Sample.added Sample.threeEpisodes in
  Controller.getEpisodes Storage.Implementation.handler
                         "https://example.com/other.xml" w
  = (Fulfilled [], Async.quiet (Async.settle w)).
Proof.
  intros w.
  apply (getEpisodes_of_unknown_feed w "https://example.com/other.xml").
  simpl. intros [H|[]]. discriminate H.
Defined.

Lemma filter_filter_and {A : Type} (f g : A -> bool) (l : list A) :
  filter f (filter g l) = filter (fun x => g x && f x) l.
Proof.
  induction l as [|x l IH]; simpl; auto.
  destruct (g x); simpl; [destruct (f x)|]; now rewrite IH.
Qed.

Lemma episode_of_views (episodes : list (Episode.t Z))
      (podcasts : list (Podcast.t Z)) :
  map Controller.EpisodeWithPodcastView.episode
      (Controller.addPodcastToEpisodes episodes podcasts)
  = episodes.
Proof.
  unfold Controller.addPodcastToEpisodes. rewrite map_map. simpl.
  apply map_id.
Qed.

Lemma StronglySorted_app_between {A : Type} (R : A -> A -> Prop)
      (l1 l2 : list A) :
  StronglySorted R (l1 ++ l2) ->
  forall x y, List.In x l1 -> List.In y l2 -> R x y.
Proof.
  induction l1 as [|a l1 IH]; simpl; [contradiction|].
  intros H x y Hx Hy. apply StronglySorted_inv in H. destruct H as [H Ha].
  destruct Hx as [->|Hx].
  - rewrite Forall_forall in Ha. apply Ha. apply in_or_app. now right.
  - now apply IH.
Qed.

(** The records the position index holds from 0 upwards. *)
Lemma inProgress_range (t : Dexie.Table (Episode.t Z)) :
  Permutation
    (Dexie.entries (Dexie.aboveOrEqual Storage.positionIndex
                                       (Dexie.KNumber 0) t))
    (filter inProgress (Dexie.rows t)).
Proof.
  unfold Dexie.aboveOrEqual, Dexie.range, Dexie.ascending. simpl.
  etransitivity; [apply Permutation_filter_kept, sort_Permutation|].
  rewrite filter_filter_and.
  erewrite filter_ext; [reflexivity|].
  intros e. unfold Dexie.hasKey, Dexie.inRange, Storage.positionIndex,
              Dexie.numberKey, inProgress.
  destruct (Episode.position e) as [position|]; simpl; auto.
  rewrite andb_true_r. unfold Dexie.leb. simpl.
  unfold Z.leb. reflexivity.
Qed.

(** The records the pubDate index holds up to a date. *)
Lemma publishedBy_range (asOfPubDate : Z) (t : Dexie.Table (Episode.t Z)) :
  Permutation
    (Dexie.entries (Dexie.belowOrEqual Storage.pubDateIndex
                                       (Dexie.KDate asOfPubDate) t))
    (filter (publishedBy asOfPubDate) (Dexie.rows t)).
Proof.
  unfold Dexie.belowOrEqual, Dexie.range, Dexie.ascending. simpl.
  etransitivity; [apply Permutation_filter_kept, sort_Permutation|].
  rewrite filter_filter_and.
  erewrite filter_ext; [reflexivity|].
  intros e. unfold Dexie.hasKey, Dexie.inRange, Storage.pubDateIndex,
              Dexie.dateKey, publishedBy.
  destruct (Episode.pubDate e) as [[ms|]|]; reflexivity.
Qed.

(** X9: [getEpisodesInProgress] resolves to the stored episodes that have
    a position of 0 or more, each once and with its podcast, whether or
    not they are finished, and to no episode without a position; they
    come by descending [lastTimeListened] when each of them has a valid
    one.  The store is left as it was. *)
Theorem getEpisodesInProgress_lists_started
        (w : Async.World Storage.Database) :
  let db := Async.settle w in
  let started := filter inProgress (Dexie.rows (Storage.episodes db)) in
  exists views,
    Controller.getEpisodesInProgress Storage.Implementation.handler w
    = (Fulfilled views, Async.quiet db)
    /\ Permutation (map Controller.EpisodeWithPodcastView.episode views)
                   started
    /\ (Forall (fun e => Episode.lastTimeListened e
                         = Some (Some (listenedMs e))) started ->
        StronglySorted (fun a b => listenedMs b <= listenedMs a)
                       (map Controller.EpisodeWithPodcastView.episode views)).
Proof.
  intros db started. eexists. split; [reflexivity|].
  rewrite episode_of_views. fold db. unfold Dexie.sortBy.
  assert (Hperm : Permutation
                    (Dexie.collect
                       (Dexie.reverse
                          (Dexie.aboveOrEqual Storage.positionIndex
                             (Dexie.KNumber 0) (Storage.episodes db))))
                    started).
  { unfold Dexie.collect, Dexie.reverse. simpl.
    etransitivity; [symmetry; apply Permutation_rev|].
    apply inProgress_range. }
  split.
  - etransitivity; [apply sort_Permutation|exact Hperm].
  - intros Hvalid. simpl. apply sorter_descending.
    apply Forall_forall. intros e He.
    rewrite Forall_forall in Hvalid. apply Hvalid.
    eapply Permutation_in; [exact Hperm|exact He].
Qed.

(** X10: [getAllEpisodes(count, asOfPubDate)], for a count that is not
    negative, resolves to the [count] newest of the stored episodes with
    a valid publish date not after [asOfPubDate], or to all of them when
    they are fewer: no such episode is returned twice, and none that is
    left out is newer than one that is returned. *)
Theorem getAllEpisodes_newest_first
        (w : Async.World Storage.Database) (count asOfPubDate : Z) :
  0 <= count ->
  let db := Async.settle w in
  let eligible :=
    filter (publishedBy asOfPubDate) (Dexie.rows (Storage.episodes db)) in
  exists views rest,
    Controller.getAllEpisodes Storage.Implementation.handler
                              count asOfPubDate w
    = (Fulfilled views, Async.quiet db)
    /\ Permutation (map Controller.EpisodeWithPodcastView.episode views
                    ++ rest) eligible
    /\ Z.of_nat (List.length views)
       = Z.min count (Z.of_nat (List.length eligible))
    /\ (forall e r,
          List.In e (map Controller.EpisodeWithPodcastView.episode views) ->
          List.In r rest ->
          pubDateMs r <= pubDateMs e).
Proof.
  intros Hcount db eligible.
  set (found := Dexie.entries
                  (Dexie.belowOrEqual Storage.pubDateIndex
                     (Dexie.KDate asOfPubDate) (Storage.episodes db))).
  exists (Controller.addPodcastToEpisodes
            (firstn (Z.to_nat count) (rev found))
            (Dexie.rows (Storage.podcasts db))),
         (skipn (Z.to_nat count) (rev found)).
  assert (Hperm : Permutation (rev found) eligible).
  { etransitivity; [symmetry; apply Permutation_rev|].
    apply publishedBy_range. }
  split; [reflexivity|]. rewrite episode_of_views.
  split; [|split].
  - now rewrite firstn_skipn.
  - unfold Controller.addPodcastToEpisodes. rewrite length_map.
    rewrite length_firstn.
    rewrite <- (Permutation_length Hperm). lia.
  - apply (StronglySorted_app_between (fun a b => pubDateMs b <= pubDateMs a)).
    rewrite firstn_skipn.
    apply (StronglySorted_rev_flipped (fun a b => pubDateMs a <= pubDateMs b)).
    unfold found, Dexie.belowOrEqual, Dexie.range. simpl.
    apply StronglySorted_filter_kept. apply ascending_pubDate.
Qed.

Lemma getAllEpisodes_newest_first_witness :
  let w := Sample.added Sample.threeEpisodes in
  exists views rest,
    Controller.getAllEpisodes Storage.Implementation.handler 1 20 w
    = (Fulfilled views, Async.quiet (Async.settle w))
    /\ Permutation (map Controller.EpisodeWithPodcastView.episode views
                    ++ rest)
                   (filter (publishedBy 20)
                           (Dexie.rows (Storage.episodes (Async.settle w))))
    /\ Z.of_nat (List.length views)
       = Z.min 1 (Z.of_nat
                    (List.length
                       (filter (publishedBy 20)
                               (Dexie.rows
                                  (Storage.episodes (Async.settle w))))))
    /\ (forall e r,
          List.In e (map Controller.EpisodeWithPodcastView.episode views) ->
          List.In r rest ->
          pubDateMs r <= pubDateMs e).
Proof.
  intros w. apply (getAllEpisodes_newest_first w 1 20). lia.
Defined.

(** What [addPodcastToEpisodes] attaches to an episode. *)
Lemma addPodcastToEpisodes_podcast (episodes : list (Episode.t Z))
      (podcasts : list (Podcast.t Z)) :
  Forall (fun v =>
            List.In (Controller.EpisodeWithPodcastView.episode v) episodes
            /\ match Controller.EpisodeWithPodcastView.podcast v with
               | Some p =>
                   List.In p podcasts
                   /\ Podcast.id p
                      = Episode.podcastId
                          (Controller.EpisodeWithPodcastView.episode v)
               | None =>
                   ~ List.In (Episode.podcastId
                                (Controller.EpisodeWithPodcastView.episode v))
                             (map (@Podcast.id Z) podcasts)
               end)
         (Controller.addPodcastToEpisodes episodes podcasts).
Proof.
  apply Forall_forall. intros v Hv.
  unfold Controller.addPodcastToEpisodes in Hv. apply in_map_iff in Hv.
  destruct Hv as [e [<- He]]. simpl. split; auto.
  destruct (find _ podcasts) as [p|] eqn:Hfind.
  - apply find_some in Hfind. destruct Hfind as [Hp E].
    split; auto. now apply Z.eqb_eq.
  - intros Hin. apply in_map_iff in Hin. destruct Hin as [p [E Hp]].
    apply (find_none _ _ Hfind) in Hp. apply Z.eqb_neq in Hp. auto.
Qed.

(** X11: the episodes that [getAllEpisodes] and [getEpisodesInProgress]
    resolve to are stored episodes, and each comes with the stored
    podcast whose id is its [podcastId]; [podcast] is undefined exactly
    for an episode whose podcast is not stored, which does not occur in a
    store where every episode belongs to a stored podcast. *)
Theorem episodes_come_with_their_podcast
        (w : Async.World Storage.Database) (count asOfPubDate : Z)
        (views : list Controller.EpisodeWithPodcastView.t) :
  let db := Async.settle w in
  fst (Controller.getAllEpisodes Storage.Implementation.handler
                                 count asOfPubDate w) = Fulfilled views
  \/ fst (Controller.getEpisodesInProgress Storage.Implementation.handler w)
     = Fulfilled views ->
  Forall (fun v =>
            let e := Controller.EpisodeWithPodcastView.episode v in
            List.In e (Dexie.rows (Storage.episodes db))
            /\ match Controller.EpisodeWithPodcastView.podcast v with
               | Some p =>
                   List.In p (Dexie.rows (Storage.podcasts db))
                   /\ Podcast.id p = Episode.podcastId e
               | None =>
                   ~ List.In (Episode.podcastId e)
                             (map (@Podcast.id Z)
                                  (Dexie.rows (Storage.podcasts db)))
               end) views
  /\ (referential db ->
      Forall (fun v => Controller.EpisodeWithPodcastView.podcast v <> None)
             views).
Proof.
  intros db Hviews.
  assert (Hall :
    exists episodes,
      views = Controller.addPodcastToEpisodes
                episodes (Dexie.rows (Storage.podcasts db))
      /\ forall e, List.In e episodes ->
                   List.In e (Dexie.rows (Storage.episodes db))).
  { destruct Hviews as [H|H]; simpl in H; injection H as <-;
      eexists; (split; [reflexivity|]); fold db; intros e He.
    - unfold Dexie.collect, Dexie.limit, Dexie.reverse, Dexie.belowOrEqual,
        Dexie.range in He. simpl in He.
      apply firstn_In_kept, in_rev, filter_In in He. destruct He as [He _].
      unfold Dexie.ascending in He. apply sort_In, filter_In in He. tauto.
    - unfold Dexie.sortBy in He. apply sort_In in He.
      unfold Dexie.collect, Dexie.reverse, Dexie.aboveOrEqual,
        Dexie.range in He. simpl in He.
      apply in_rev, filter_In in He. destruct He as [He _].
      unfold Dexie.ascending in He. apply sort_In, filter_In in He. tauto. }
  destruct Hall as (episodes & -> & Hstored).
  pose proof (addPodcastToEpisodes_podcast
                episodes (Dexie.rows (Storage.podcasts db))) as Hp.
  split.
  - eapply Forall_impl; [|exact Hp]. simpl. intros v [Hv Hpod]. split; auto.
  - intros Href. eapply Forall_impl; [|exact Hp]. simpl.
    intros v [Hv Hpod] Hnone. rewrite Hnone in Hpod. apply Hpod.
    unfold referential in Href. rewrite Forall_forall in Href.
    apply Href. now apply Hstored.
Qed.

Lemma episodes_come_with_their_podcast_witness :
  let w := Sample.added Sample.threeEpisodes in
  let db := Async.settle w in
  exists views,
    fst (Controller.getAllEpisodes Storage.Implementation.handler 2 20 w)
    = Fulfilled views
    /\ Forall (fun v =>
                 let e := Controller.EpisodeWithPodcastView.episode v in
                 List.In e (Dexie.rows (Storage.episodes db))
                 /\ match Controller.EpisodeWithPodcastView.podcast v with
                    | Some p =>
                        List.In p (Dexie.rows (Storage.podcasts db))
                        /\ Podcast.id p = Episode.podcastId e
                    | None =>
                        ~ List.In (Episode.podcastId e)
                                  (map (@Podcast.id Z)
                                       (Dexie.rows (Storage.podcasts db)))
                    end) views
    /\ (referential db ->
        Forall (fun v => Controller.EpisodeWithPodcastView.podcast v <> None)
               views).
Proof.
  intros w db. eexists. split; [reflexivity|].
  apply (episodes_come_with_their_podcast w 2 20). left. reflexivity.
Defined.

(** X12: [getPodcasts] of the controller lists every stored podcast once,
    in the order of the store, with every property as stored except
    [title]: a stored title that is a non-empty string is kept, and a
    title that is undefined or empty is replaced by the feed URL, so no
    listed podcast is without a title.  Nothing is written. *)
Theorem getPodcasts_titles (w : Async.World Storage.Database) :
  let db := Async.settle w in
  exists views,
    Controller.getPodcasts Storage.Implementation.handler w
    = (Fulfilled views, Async.quiet db)
    /\ Forall2 (fun p v =>
                  sameButTitle p v
                  /\ (forall c s, Podcast.title p = Some (String c s) ->
                                  Podcast.title v = Some (String c s))
                  /\ (Podcast.title p = None
                      \/ Podcast.title p = Some EmptyString ->
                      Podcast.title v = Some (Podcast.feedUrl p))
                  /\ Podcast.title v <> None)
               (Dexie.rows (Storage.podcasts db)) views.
Proof.
  intros db. eexists. split; [reflexivity|]. fold db.
  apply Forall2_map_same. intros p. simpl.
  split; [repeat split|].
  destruct (Podcast.title p) as [[|c s]|] eqn:E; simpl;
    (split; [|split]); try discriminate; auto.
  intros [H|H]; discriminate.
Qed.

(* ================================================================== *)
(** * More on adding a podcast *)

Section AddPodcastMore.
Variable podcastIndexOrgClient : PodcastindexOrgClient.t.
Variable Date_parse : string -> Date.

Local Abbreviation handler := Storage.Implementation.handler.

Lemma addPodcast_podcast (now : Z) (podcast : Controller.PodcastToAdd.t)
      (w : Async.World Storage.Database)
      (directoryPodcast : PodcastindexOrgClient.Podcast.t)
      (episodes : list PodcastindexOrgClient.Episode.t) :
  let db := Async.settle w in
  let feedUrl := Controller.PodcastToAdd.feedUrl podcast in
  let podcastId := Dexie.keyGenerator (Storage.podcasts db) in
  wfDatabase db ->
  ~ List.In feedUrl
            (map (@Podcast.feedUrl Z) (Dexie.rows (Storage.podcasts db))) ->
  PodcastindexOrgClient.getPodcastByFeedUrl podcastIndexOrgClient feedUrl
  = Fulfilled directoryPodcast ->
  PodcastindexOrgClient.getEpisodes podcastIndexOrgClient feedUrl
  = Fulfilled episodes ->
  Controller.addPodcast handler podcastIndexOrgClient Date_parse now
                        podcast w
  = (Fulfilled tt,
     Async.quiet
       {| Storage.podcasts :=
            {| Dexie.rows :=
                 Dexie.rows (Storage.podcasts db)
                 ++ [processedPodcast now podcast directoryPodcast podcastId];
               Dexie.keyGenerator := podcastId + 1 |};
          Storage.episodes :=
            {| Dexie.rows :=
                 Dexie.rows (Storage.episodes db)
                 ++ numbered Episode.withId
                      (Dexie.keyGenerator (Storage.episodes db))
                      (map (fun e =>
                              Controller.tagged
                                (Controller.mapPodcastIndexOrgEpisodeToStorage
                                   Date_parse e) podcastId)
                           episodes);
               Dexie.keyGenerator :=
                 Dexie.keyGenerator (Storage.episodes db)
                 + Z.of_nat (List.length episodes) |} |}).
Proof.
  intros db feedUrl podcastId Hwf Hfresh Hrp Heps.
  destruct (addPodcast_settles podcastIndexOrgClient Date_parse now podcast w
              directoryPodcast episodes Hwf Hfresh Hrp Heps)
    as (P & Hadd & _).
  fold db feedUrl podcastId in Hadd. rewrite Hadd.
  f_equal. f_equal. f_equal. f_equal. f_equal. f_equal.
  (* the podcast the run stored is the one described *)
  destruct Hwf as (Hwp & Hwe & Hfeed).
  revert Hadd. unfold Controller.addPodcast. fold feedUrl.
  set (P0 := Podcast.withId podcastId
               (Podcast.withId (@None Z) (Controller.newPodcast podcast))).
  erewrite await_bind.
  2:{ fold db. cbn [Storage.addPodcast Storage.Implementation.handler].
      unfold Storage.Implementation.addPodcast.
      rewrite add_podcast_fresh; auto. }
  rewrite Hrp, request_bind.
  assert (Hbelow : Forall (fun r => Podcast.id r < Podcast.id P0)
                          (Dexie.rows (Storage.podcasts db)))
    by (destruct Hwp as [_ Hkg]; exact Hkg).
  erewrite await_bind.
  2:{ cbn [Async.settle Async.quiet Async.store Async.unsettled fold_left
           Storage.updatePodcast Storage.Implementation.handler].
      unfold Storage.Implementation.updatePodcast, Storage.withPodcasts.
      cbn [Storage.podcasts Storage.episodes].
      match goal with
      | |- context [Dexie.update _ _ _ (PodcastChanges.apply ?c) _] =>
          rewrite (update_last_podcast _ _ P0 c Hbelow eq_refl eq_refl Hfresh)
      end.
      reflexivity. }
  rewrite Heps, request_bind.
  set (P1 := PodcastChanges.apply _ P0).
  erewrite await_bind.
  2:{ cbn [Async.settle Async.quiet Async.store Async.unsettled fold_left
           Storage.putEpisodes Storage.Implementation.handler].
      unfold Storage.Implementation.putEpisodes, Storage.withEpisodes.
      cbn [Storage.podcasts Storage.episodes].
      rewrite bulkPut_no_unique by reflexivity.
      rewrite (@writes_fresh _ _ (@Episode.id (option Z)) (@Episode.id Z)
                 (@Episode.withId (option Z) Z) (fun _ _ => eq_refl));
        [reflexivity|exact Hwe|].
      apply Forall_forall. intros o Ho. apply in_map_iff in Ho.
      now destruct Ho as [e [<- _]]. }
  erewrite await_quiet.
  2:{ cbn [Async.settle Async.quiet Async.store Async.unsettled fold_left
           Storage.updatePodcast Storage.Implementation.handler].
      unfold Storage.Implementation.updatePodcast, Storage.withPodcasts.
      cbn [Storage.podcasts Storage.episodes].
      match goal with
      | |- context [Dexie.update _ _ _ (PodcastChanges.apply ?c) _] =>
          rewrite (update_last_podcast _ _ P1 c Hbelow eq_refl eq_refl Hfresh)
      end.
      reflexivity. }
  intros Hadd. injection Hadd as Hrows.
  apply app_inv_head in Hrows. injection Hrows as <-.
  unfold P1, P0, processedPodcast. simpl.
  destruct (PodcastindexOrgClient.Podcast.value directoryPodcast);
    reflexivity.
Qed.

End AddPodcastMore.

Section AddPodcastStore.
Variable podcastIndexOrgClient : PodcastindexOrgClient.t.
Variable Date_parse : string -> Date.

Local Abbreviation handler := Storage.Implementation.handler.
Local Abbreviation stored podcastId :=
  (fun e => Controller.tagged
              (Controller.mapPodcastIndexOrgEpisodeToStorage Date_parse e)
              podcastId).

(** The store after a podcast [P] with a new id and feed URL and its
    episodes were added to a well-formed store. *)
Lemma wfDatabase_added (db : Storage.Database) (P : Podcast.t Z)
      (N : list (Episode.t (option Z))) :
  wfDatabase db ->
  Podcast.id P = Dexie.keyGenerator (Storage.podcasts db) ->
  ~ List.In (Podcast.feedUrl P)
            (map (@Podcast.feedUrl Z) (Dexie.rows (Storage.podcasts db))) ->
  wfDatabase
    {| Storage.podcasts :=
         {| Dexie.rows := Dexie.rows (Storage.podcasts db) ++ [P];
            Dexie.keyGenerator :=
              Dexie.keyGenerator (Storage.podcasts db) + 1 |};
       Storage.episodes :=
         {| Dexie.rows :=
              Dexie.rows (Storage.episodes db)
              ++ numbered Episode.withId
                   (Dexie.keyGenerator (Storage.episodes db)) N;
            Dexie.keyGenerator :=
              Dexie.keyGenerator (Storage.episodes db)
              + Z.of_nat (List.length N) |} |}.
Proof.
  intros (Hwp & Hwe & Hfeed) Hid Hfresh. split; [|split]; simpl.
  - destruct Hwp as [Hasc Hkg]. split; simpl.
    + apply keysAscending_app; auto.
      * apply keysAscending_cons. split; constructor.
      * intros x y Hx [<-|[]]. rewrite Forall_forall in Hkg.
        rewrite Hid. now apply Hkg.
    + apply Forall_app. split.
      * eapply Forall_impl; [|exact Hkg]. simpl. intros. lia.
      * constructor; auto. rewrite Hid. lia.
  - apply (@wfTable_numbered _ _ (@Episode.id Z)
             (@Episode.withId (option Z) Z) (fun _ _ => eq_refl) _
             (Storage.episodes db) Hwe).
  - rewrite map_app. simpl. apply NoDup_app; auto.
    + repeat constructor. simpl. tauto.
    + intros f Hin [<-|[]]. contradiction.
Qed.

(** In a store where every episode belongs to a stored podcast, no
    episode refers to the id the next podcast gets. *)
Lemma referential_below (db : Storage.Database) :
  wfDatabase db -> referential db ->
  Forall (fun e => Episode.podcastId e
                   < Dexie.keyGenerator (Storage.podcasts db))
         (Dexie.rows (Storage.episodes db)).
Proof.
  intros (Hwp & _) Href. unfold referential in Href.
  eapply Forall_impl; [|exact Href]. simpl. intros e He.
  apply in_map_iff in He. destruct He as [q [E Hq]].
  destruct Hwp as [_ Hkg]. rewrite Forall_forall in Hkg.
  specialize (Hkg q Hq). lia.
Qed.

Lemma numbered_stored (podcastId k : Z)
      (episodes : list PodcastindexOrgClient.Episode.t) :
  Forall2 (fun e r => carries Date_parse e r
                      /\ Episode.podcastId r = podcastId
                      /\ unplayed r)
          episodes
          (numbered Episode.withId k (map (stored podcastId) episodes)).
Proof.
  revert k. induction episodes as [|e episodes IH]; intros k; simpl;
    constructor; auto.
  split; [|split]; repeat split.
  simpl. destruct (PodcastindexOrgClient.Episode.enclosure e) as [[u n t]|];
    auto.
Qed.

End AddPodcastStore.

(** X13: the podcast [addPodcast] stores takes its title, description,
    link, image and directory id from the directory, not from the
    caller; [value] is the one-element list of the directory's value when
    it has one and is absent otherwise; [subscribed] and the feed URL are
    the caller's.  The podcast is read back by its feed URL and by its
    id. *)
Theorem addPodcast_takes_directory_data
        (client : PodcastindexOrgClient.t) (Date_parse : string -> Date)
        (now : Z) (podcast : Controller.PodcastToAdd.t)
        (w : Async.World Storage.Database)
        (directoryPodcast : PodcastindexOrgClient.Podcast.t)
        (episodes : list PodcastindexOrgClient.Episode.t) :
  let feedUrl := Controller.PodcastToAdd.feedUrl podcast in
  wfDatabase (Async.settle w) ->
  ~ List.In feedUrl
            (map (@Podcast.feedUrl Z)
                 (Dexie.rows (Storage.podcasts (Async.settle w)))) ->
  PodcastindexOrgClient.getPodcastByFeedUrl client feedUrl
  = Fulfilled directoryPodcast ->
  PodcastindexOrgClient.getEpisodes client feedUrl = Fulfilled episodes ->
  exists w' P,
    Controller.addPodcast Storage.Implementation.handler client Date_parse
                          now podcast w
    = (Fulfilled tt, w')
    /\ fst (Controller.getPodcast Storage.Implementation.handler feedUrl w')
       = Fulfilled (Some P)
    /\ fst (Controller.getPodcastById Storage.Implementation.handler
                                      (Podcast.id P) w')
       = Fulfilled (Some P)
    /\ Podcast.title P
       = Some (PodcastindexOrgClient.Podcast.title directoryPodcast)
    /\ Podcast.description P
       = Some (PodcastindexOrgClient.Podcast.description directoryPodcast)
    /\ Podcast.link P
       = Some (PodcastindexOrgClient.Podcast.link directoryPodcast)
    /\ Podcast.imageUrl P
       = Some (PodcastindexOrgClient.Podcast.imageUrl directoryPodcast)
    /\ Podcast.podcastIndexOrgId P
       = Some (PodcastindexOrgClient.Podcast.id directoryPodcast)
    /\ Podcast.value P
       = match PodcastindexOrgClient.Podcast.value directoryPodcast with
         | Some value => Some [value]
         | None => None
         end
    /\ Podcast.subscribed P = Controller.PodcastToAdd.subscribed podcast
    /\ Podcast.feedUrl P = feedUrl.
Proof.
  intros feedUrl Hwf Hfresh Hrp Heps.
  set (db := Async.settle w) in *.
  set (P := processedPodcast now podcast directoryPodcast
              (Dexie.keyGenerator (Storage.podcasts db))).
  pose proof (addPodcast_podcast client Date_parse now podcast w
                directoryPodcast episodes Hwf Hfresh Hrp Heps) as Hadd.
  fold db P in Hadd.
  pose proof (wfDatabase_added db P
                (map (fun e =>
                        Controller.tagged
                          (Controller.mapPodcastIndexOrgEpisodeToStorage
                             Date_parse e)
                          (Dexie.keyGenerator (Storage.podcasts db)))
                     episodes)
                Hwf eq_refl Hfresh) as (Hwp' & _ & Hfeed').
  eexists _, P. split; [exact Hadd|].
  split; [|split; [|repeat split]].
  - unfold Controller.getPodcast, Async.await. simpl.
    change feedUrl with (Podcast.feedUrl P).
    rewrite first_by_feedUrl; auto. simpl. apply in_or_app. right. now left.
  - unfold Controller.getPodcastById, Async.await. simpl. f_equal.
    apply (get_stored (@Podcast.id Z) _ P); [apply Hwp'|].
    simpl. apply in_or_app. right. now left.
Qed.

Lemma addPodcast_takes_directory_data_witness :
  exists w' P,
    Controller.addPodcast Storage.Implementation.handler
      (Sample.directory Sample.threeEpisodes) Sample.Date_parse 1000
      Sample.toAdd (Async.quiet Storage.emptyDatabase)
    = (Fulfilled tt, w')
    /\ fst (Controller.getPodcast Storage.Implementation.handler
              Sample.feedUrl w')
       = Fulfilled (Some P)
    /\ Podcast.title P = Some "Example"%string.
Proof.
  destruct (addPodcast_takes_directory_data
              (Sample.directory Sample.threeEpisodes) Sample.Date_parse 1000
              Sample.toAdd (Async.quiet Storage.emptyDatabase)
              Sample.directoryPodcast Sample.threeEpisodes
              wfDatabase_empty (fun H => H) eq_refl eq_refl)
    as (w' & P & H1 & H2 & _ & H4 & _).
  exists w', P. split; [exact H1|]. split; [exact H2|exact H4].
Defined.

Lemma find_app_or {A : Type} (f : A -> bool) (l1 l2 : list A) :
  find f (l1 ++ l2)
  = match find f l1 with Some x => Some x | None => find f l2 end.
Proof.
  induction l1 as [|x l1 IH]; simpl; auto. now destruct (f x).
Qed.

(** X14: [addPodcast] stores one episode for every episode the directory
    lists, in the order of the list and also when the list repeats an
    id; each carries the data of its directory episode, belongs to the
    new podcast and has no user data.  The episodes of every other
    podcast and the other podcasts are as before, and the store stays
    well formed, with every episode belonging to a stored podcast. *)
Theorem addPodcast_stores_every_episode
        (client : PodcastindexOrgClient.t) (Date_parse : string -> Date)
        (now : Z) (podcast : Controller.PodcastToAdd.t)
        (w : Async.World Storage.Database)
        (directoryPodcast : PodcastindexOrgClient.Podcast.t)
        (episodes : list PodcastindexOrgClient.Episode.t) :
  let db := Async.settle w in
  let feedUrl := Controller.PodcastToAdd.feedUrl podcast in
  let podcastId := Dexie.keyGenerator (Storage.podcasts db) in
  wfDatabase db -> referential db ->
  ~ List.In feedUrl
            (map (@Podcast.feedUrl Z) (Dexie.rows (Storage.podcasts db))) ->
  PodcastindexOrgClient.getPodcastByFeedUrl client feedUrl
  = Fulfilled directoryPodcast ->
  PodcastindexOrgClient.getEpisodes client feedUrl = Fulfilled episodes ->
  let adding :=
    Controller.addPodcast Storage.Implementation.handler client Date_parse
                          now podcast w in
  let db' := Async.settle (snd adding) in
  fst adding = Fulfilled tt
  /\ Forall2 (fun e r => carries Date_parse e r
                         /\ Episode.podcastId r = podcastId
                         /\ unplayed r)
             episodes (episodesOf podcastId db')
  /\ (forall q, q <> podcastId ->
                episodesOf q db' = episodesOf q db
                /\ fst (Storage.Implementation.getPodcastById q db')
                   = fst (Storage.Implementation.getPodcastById q db))
  /\ wfDatabase db'
  /\ referential db'.
Proof.
  intros db feedUrl podcastId Hwf Href Hfresh Hrp Heps adding db'.
  pose proof (addPodcast_podcast client Date_parse now podcast w
                directoryPodcast episodes Hwf Hfresh Hrp Heps) as Hadd.
  fold db feedUrl podcastId in Hadd.
  unfold db', adding. rewrite Hadd. simpl.
  set (N := map (fun e =>
                   Controller.tagged
                     (Controller.mapPodcastIndexOrgEpisodeToStorage
                        Date_parse e) podcastId) episodes).
  pose proof (referential_below db Hwf Href) as Hbelow.
  fold podcastId in Hbelow.
  assert (Hmine : Forall (fun r : Episode.t Z => Episode.podcastId r = podcastId)
                         (numbered Episode.withId
                            (Dexie.keyGenerator (Storage.episodes db)) N)).
  { apply numbered_podcastId. apply Forall_forall. intros o Ho.
    apply in_map_iff in Ho. now destruct Ho as [e [<- _]]. }
  split; [reflexivity|]. split; [|split; [|split]].
  - unfold episodesOf. simpl. rewrite filter_app.
    rewrite filter_none, filter_all.
    + apply numbered_stored.
    + eapply Forall_impl; [|exact Hmine]. simpl. intros r Hr.
      now apply Z.eqb_eq.
    + eapply Forall_impl; [|exact Hbelow]. simpl. intros e He.
      apply Z.eqb_neq. lia.
  - intros q Hq. split.
    + unfold episodesOf. simpl. rewrite filter_app.
      rewrite (filter_none _ (numbered _ _ N)); [apply app_nil_r|].
      eapply Forall_impl; [|exact Hmine]. simpl. intros r Hr.
      apply Z.eqb_neq. congruence.
    + unfold Dexie.get. simpl. f_equal.
      rewrite find_app_or. simpl.
      destruct (find _ (Dexie.rows (Storage.podcasts db))); auto.
      destruct (podcastId =? q) eqn:E; auto.
      apply Z.eqb_eq in E. congruence.
  - rewrite <- (length_map
                  (fun e =>
                     Controller.tagged
                       (Controller.mapPodcastIndexOrgEpisodeToStorage
                          Date_parse e) podcastId) episodes).
    now apply wfDatabase_added.
  - unfold referential. simpl. apply Forall_app. split.
    + unfold referential in Href. eapply Forall_impl; [|exact Href].
      simpl. intros e He. rewrite map_app. apply in_or_app. now left.
    + eapply Forall_impl; [|exact Hmine]. simpl. intros r ->.
      rewrite map_app. apply in_or_app. right. now left.
Qed.

Lemma addPodcast_stores_every_episode_witness :
  let adding :=
    Controller.addPodcast Storage.Implementation.handler
      (Sample.directory Sample.twins) Sample.Date_parse 1000
      Sample.toAdd (Async.quiet Storage.emptyDatabase) in
  let db' := Async.settle (snd adding) in
  fst adding = Fulfilled tt
  /\ Forall2 (fun e r => carries Sample.Date_parse e r
                         /\ Episode.podcastId r = 1
                         /\ unplayed r)
             Sample.twins (episodesOf 1 db')
  /\ wfDatabase db'.
Proof.
  intros adding db'.
  destruct (addPodcast_stores_every_episode
              (Sample.directory Sample.twins) Sample.Date_parse 1000
              Sample.toAdd (Async.quiet Storage.emptyDatabase)
              Sample.directoryPodcast Sample.twins
              wfDatabase_empty (Forall_nil _) (fun H => H) eq_refl eq_refl)
    as (H1 & H2 & _ & H4 & _).
  split; [exact H1|]. split; [exact H2|exact H4].
Defined.

(** [Table.add] of a podcast whose feed URL is stored. *)
Lemma add_podcast_known (t : Dexie.Table (Podcast.t Z))
      (o : Podcast.t (option Z)) :
  List.In (Podcast.feedUrl o) (map (@Podcast.feedUrl Z) (Dexie.rows t)) ->
  Dexie.add (@Podcast.id (option Z)) (@Podcast.id Z) Podcast.withId
            Storage.sameFeedUrl o t
  = (Rejected ConstraintError, t).
Proof.
  intros Hin. unfold Dexie.add.
  replace (existsb _ (Dexie.rows t)) with true; [reflexivity|].
  symmetry. apply existsb_exists. apply in_map_iff in Hin.
  destruct Hin as [x [E Hx]]. exists x. split; auto.
  apply orb_true_iff. right. unfold Storage.sameFeedUrl. simpl.
  rewrite E. apply String.eqb_refl.
Qed.

Section AddPodcastFails.
Variable podcastIndexOrgClient : PodcastindexOrgClient.t.
Variable Date_parse : string -> Date.

Local Abbreviation handler := Storage.Implementation.handler.

(** [addPodcast] of a feed URL that is not stored, one of the requests to
    the directory failing: the podcast stays in the store, as it was
    added or with the directory's data, and no episode is stored. *)
Lemma addPodcast_request_rejected (now : Z)
      (podcast : Controller.PodcastToAdd.t)
      (w : Async.World Storage.Database) (err : Error) :
  let db := Async.settle w in
  let feedUrl := Controller.PodcastToAdd.feedUrl podcast in
  let podcastId := Dexie.keyGenerator (Storage.podcasts db) in
  wfDatabase db ->
  ~ List.In feedUrl
            (map (@Podcast.feedUrl Z) (Dexie.rows (Storage.podcasts db))) ->
  PodcastindexOrgClient.getPodcastByFeedUrl podcastIndexOrgClient feedUrl
  = Rejected err
  \/ (isRejected (PodcastindexOrgClient.getPodcastByFeedUrl
                    podcastIndexOrgClient feedUrl) = false
      /\ PodcastindexOrgClient.getEpisodes podcastIndexOrgClient feedUrl
         = Rejected err) ->
  exists P,
    Controller.addPodcast handler podcastIndexOrgClient Date_parse now
                          podcast w
    = (Rejected err,
       Async.quiet
         {| Storage.podcasts :=
              {| Dexie.rows := Dexie.rows (Storage.podcasts db) ++ [P];
                 Dexie.keyGenerator := podcastId + 1 |};
            Storage.episodes := Storage.episodes db |})
    /\ Podcast.id P = podcastId
    /\ Podcast.feedUrl P = feedUrl
    /\ Podcast.status P = new
    /\ Podcast.podcastIndexOrgLastEpisodeFetch P = None.
Proof.
  intros db feedUrl podcastId (Hwp & Hwe & Hfeed) Hfresh Hfail.
  unfold Controller.addPodcast. fold feedUrl.
  set (P0 := Podcast.withId podcastId
               (Podcast.withId (@None Z) (Controller.newPodcast podcast))).
  erewrite await_bind.
  2:{ fold db. cbn [Storage.addPodcast Storage.Implementation.handler].
      unfold Storage.Implementation.addPodcast.
      rewrite add_podcast_fresh; auto. }
  destruct Hfail as [Hrp|[Hrp Heps]].
  - rewrite Hrp. exists P0. split; [|repeat split].
    unfold Async.bind, Async.request. unfold Storage.withPodcasts.
    reflexivity.
  - destruct (PodcastindexOrgClient.getPodcastByFeedUrl
                podcastIndexOrgClient feedUrl) as [directoryPodcast|];
      [clear Hrp|discriminate].
    rewrite request_bind.
    assert (Hbelow : Forall (fun r => Podcast.id r < Podcast.id P0)
                            (Dexie.rows (Storage.podcasts db)))
      by (destruct Hwp as [_ Hkg]; exact Hkg).
    erewrite await_bind.
    2:{ cbn [Async.settle Async.quiet Async.store Async.unsettled fold_left
             Storage.updatePodcast Storage.Implementation.handler].
        unfold Storage.Implementation.updatePodcast, Storage.withPodcasts.
        cbn [Storage.podcasts Storage.episodes].
        match goal with
        | |- context [Dexie.update _ _ _ (PodcastChanges.apply ?c) _] =>
            rewrite (update_last_podcast _ _ P0 c Hbelow eq_refl eq_refl
                                         Hfresh)
        end.
        reflexivity. }
    rewrite Heps. eexists. split.
    { unfold Async.bind, Async.request. reflexivity. }
    repeat split; reflexivity.
Qed.

End AddPodcastFails.

(** X15: when a request of [addPodcast] to the directory fails, the call
    is rejected with that error and nothing is rolled back: the podcast
    stays stored with status ['new'] and without a fetch date, no episode
    is stored, and a later [addPodcast] of the same feed URL is rejected
    with [ConstraintError] whatever the directory answers then. *)
Theorem addPodcast_directory_failure
        (client : PodcastindexOrgClient.t) (Date_parse : string -> Date)
        (now : Z) (podcast : Controller.PodcastToAdd.t)
        (w : Async.World Storage.Database) (err : Error) :
  let db := Async.settle w in
  let feedUrl := Controller.PodcastToAdd.feedUrl podcast in
  wfDatabase db ->
  ~ List.In feedUrl
            (map (@Podcast.feedUrl Z) (Dexie.rows (Storage.podcasts db))) ->
  PodcastindexOrgClient.getPodcastByFeedUrl client feedUrl = Rejected err
  \/ (isRejected (PodcastindexOrgClient.getPodcastByFeedUrl client feedUrl)
      = false
      /\ PodcastindexOrgClient.getEpisodes client feedUrl = Rejected err) ->
  let adding :=
    Controller.addPodcast Storage.Implementation.handler client Date_parse
                          now podcast w in
  let db' := Async.settle (snd adding) in
  fst adding = Rejected err
  /\ (exists P,
        fst (Storage.Implementation.getPodcast feedUrl db')
        = Fulfilled (Some P)
        /\ Podcast.status P = new
        /\ Podcast.podcastIndexOrgLastEpisodeFetch P = None)
  /\ Storage.episodes db' = Storage.episodes db
  /\ (forall client' Date_parse' now',
        Controller.addPodcast Storage.Implementation.handler client'
                              Date_parse' now' podcast (snd adding)
        = (Rejected ConstraintError, Async.quiet db')).
Proof.
  intros db feedUrl Hwf Hfresh Hfail adding db'.
  destruct (addPodcast_request_rejected client Date_parse now podcast w err
              Hwf Hfresh Hfail) as (P & Hadd & Hid & Hurl & Hst & Hstamp).
  fold db feedUrl in Hadd, Hid, Hurl.
  unfold db', adding. rewrite Hadd. simpl.
  pose proof (wfDatabase_added db P [] Hwf Hid) as Hwf'.
  rewrite Hurl in Hwf'. specialize (Hwf' Hfresh).
  destruct Hwf' as (_ & _ & Hfeed'). simpl in Hfeed'.
  split; [reflexivity|]. split; [|split].
  - exists P. split; [|split; auto]. f_equal. rewrite <- Hurl.
    apply first_by_feedUrl; auto. simpl. apply in_or_app. right. now left.
  - reflexivity.
  - intros client' Date_parse' now'. unfold Controller.addPodcast.
    erewrite await_bind_rejected; [reflexivity|].
    cbn [Async.settle Async.quiet Async.store Async.unsettled fold_left
         Storage.addPodcast Storage.Implementation.handler].
    unfold Storage.Implementation.addPodcast.
    rewrite add_podcast_known.
    + unfold Storage.withPodcasts. reflexivity.
    + simpl. rewrite map_app. apply in_or_app. right. simpl. now left.
Qed.

Lemma addPodcast_directory_failure_witness :
  let adding :=
    Controller.addPodcast Storage.Implementation.handler
      Sample.unreachable Sample.Date_parse 1000
      Sample.toAdd (Async.quiet Storage.emptyDatabase) in
  fst adding = Rejected (RequestError "503")
  /\ fst (Controller.addPodcast Storage.Implementation.handler
            (Sample.directory Sample.threeEpisodes) Sample.Date_parse 2000
            Sample.toAdd (snd adding))
     = Rejected ConstraintError.
Proof.
  intros adding.
  destruct (addPodcast_directory_failure
              Sample.unreachable Sample.Date_parse 1000 Sample.toAdd
              (Async.quiet Storage.emptyDatabase) (RequestError "503")
              wfDatabase_empty (fun H => H) (or_introl eq_refl))
    as (H1 & _ & _ & H4).
  split; [exact H1|].
  fold adding in H4.
  now rewrite (H4 (Sample.directory Sample.threeEpisodes)
                  Sample.Date_parse 2000).
Defined.

(** X16: deleting the podcast that [addPodcast] just added takes the
    store back to the podcasts and episodes it had before, provided every
    episode belonged to a stored podcast; only the key generators have
    moved on, so the id is not given out again. *)
Theorem deletePodcastById_undoes_addPodcast
        (client : PodcastindexOrgClient.t) (Date_parse : string -> Date)
        (now : Z) (podcast : Controller.PodcastToAdd.t)
        (w : Async.World Storage.Database)
        (directoryPodcast : PodcastindexOrgClient.Podcast.t)
        (episodes : list PodcastindexOrgClient.Episode.t) :
  let db := Async.settle w in
  let feedUrl := Controller.PodcastToAdd.feedUrl podcast in
  let podcastId := Dexie.keyGenerator (Storage.podcasts db) in
  wfDatabase db -> referential db ->
  ~ List.In feedUrl
            (map (@Podcast.feedUrl Z) (Dexie.rows (Storage.podcasts db))) ->
  PodcastindexOrgClient.getPodcastByFeedUrl client feedUrl
  = Fulfilled directoryPodcast ->
  PodcastindexOrgClient.getEpisodes client feedUrl = Fulfilled episodes ->
  let adding :=
    Controller.addPodcast Storage.Implementation.handler client Date_parse
                          now podcast w in
  let deleting :=
    Controller.deletePodcastById Storage.Implementation.handler podcastId
                                 (snd adding) in
  let db'' := Async.settle (snd deleting) in
  fst deleting = Fulfilled tt
  /\ Dexie.rows (Storage.podcasts db'') = Dexie.rows (Storage.podcasts db)
  /\ Dexie.rows (Storage.episodes db'') = Dexie.rows (Storage.episodes db)
  /\ Dexie.keyGenerator (Storage.podcasts db'') = podcastId + 1
  /\ Dexie.keyGenerator (Storage.episodes db'')
     = Dexie.keyGenerator (Storage.episodes db)
       + Z.of_nat (List.length episodes).
Proof.
  intros db feedUrl podcastId Hwf Href Hfresh Hrp Heps adding deleting db''.
  pose proof (addPodcast_podcast client Date_parse now podcast w
                directoryPodcast episodes Hwf Hfresh Hrp Heps) as Hadd.
  fold db feedUrl podcastId in Hadd.
  set (N := map (fun e =>
                   Controller.tagged
                     (Controller.mapPodcastIndexOrgEpisodeToStorage
                        Date_parse e) podcastId) episodes) in *.
  set (P := processedPodcast now podcast directoryPodcast podcastId) in *.
  pose proof (wfDatabase_added db P N Hwf eq_refl Hfresh) as (_ & Hwe' & _).
  pose proof (referential_below db Hwf Href) as Hbelow.
  fold podcastId in Hbelow.
  assert (Hmine : Forall (fun r : Episode.t Z => Episode.podcastId r = podcastId)
                         (numbered Episode.withId
                            (Dexie.keyGenerator (Storage.episodes db)) N)).
  { apply numbered_podcastId. apply Forall_forall. intros o Ho.
    apply in_map_iff in Ho. now destruct Ho as [e [<- _]]. }
  unfold db'', deleting, adding. rewrite Hadd.
  unfold Controller.deletePodcastById, Async.await.
  cbn [snd fst Async.settle Async.quiet Async.store Async.unsettled fold_left
       Storage.deletePodcastById Storage.Implementation.handler].
  split; [reflexivity|].
  assert (Hsnd : forall X : outcome unit * Storage.Database,
             snd (let (r, s) := X in (r, Async.quiet s))
             = Async.quiet (snd X)) by (now intros [r s]).
  rewrite Hsnd.
  cbn [Async.settle Async.quiet Async.store Async.unsettled fold_left].
  rewrite deletePodcastById_store by exact (proj1 Hwe').
  cbn [Storage.podcasts Storage.episodes Dexie.rows Dexie.keyGenerator].
  split; [|split; [|split]].
  - rewrite filter_app. simpl. rewrite Z.eqb_refl. simpl.
    rewrite app_nil_r. apply filter_all.
    destruct Hwf as ([_ Hkg] & _). eapply Forall_impl; [|exact Hkg].
    simpl. intros x Hx. apply negb_true_iff, Z.eqb_neq. fold podcastId in Hx.
    lia.
  - rewrite filter_app. rewrite (filter_none _ (numbered _ _ N)).
    + rewrite app_nil_r. apply filter_all.
      eapply Forall_impl; [|exact Hbelow]. simpl. intros x Hx.
      apply negb_true_iff, Z.eqb_neq. lia.
    + eapply Forall_impl; [|exact Hmine]. simpl. intros x ->.
      now rewrite Z.eqb_refl.
  - reflexivity.
  - reflexivity.
Qed.

Lemma deletePodcastById_undoes_addPodcast_witness :
  let adding :=
    Controller.addPodcast Storage.Implementation.handler
      (Sample.directory Sample.threeEpisodes) Sample.Date_parse 1000
      Sample.toAdd (Async.quiet Storage.emptyDatabase) in
  let deleting :=
    Controller.deletePodcastById Storage.Implementation.handler 1
                                 (snd adding) in
  let db'' := Async.settle (snd deleting) in
  Dexie.rows (Storage.podcasts db'') = []
  /\ Dexie.rows (Storage.episodes db'') = []
  /\ Dexie.keyGenerator (Storage.podcasts db'') = 2.
Proof.
  intros adding deleting db''.
  destruct (deletePodcastById_undoes_addPodcast
              (Sample.directory Sample.threeEpisodes) Sample.Date_parse 1000
              Sample.toAdd (Async.quiet Storage.emptyDatabase)
              Sample.directoryPodcast Sample.threeEpisodes
              wfDatabase_empty (Forall_nil _) (fun H => H) eq_refl eq_refl)
    as (_ & H2 & H3 & H4 & _).
  split; [exact H2|]. split; [exact H3|exact H4].
Defined.

(* ================================================================== *)
(** * More on refreshing the podcasts *)

Section RefreshKeeps.
Variable podcastIndexOrgClient : PodcastindexOrgClient.t.
Variable Date_parse : string -> Date.

Local Abbreviation step :=
  (refreshed_store podcastIndexOrgClient Date_parse).

(** The passes over [ps] leave every stored episode the same record, in
    its place, and add records with new ids for podcasts of [ps]. *)
Lemma refreshAll_shape (ps : list (Podcast.t Z)) (db : Storage.Database) :
  wfDatabase db ->
  (forall p, List.In p ps -> List.In p (Dexie.rows (Storage.podcasts db))) ->
  exists g added,
    Dexie.rows (Storage.episodes (fold_left step ps db))
    = map g (Dexie.rows (Storage.episodes db)) ++ added
    /\ (forall x, List.In x (Dexie.rows (Storage.episodes db)) ->
                  sameRecord x (g x))
    /\ Forall (fun r => Dexie.keyGenerator (Storage.episodes db)
                        <= Episode.id r
                        /\ List.In (Episode.podcastId r)
                                   (map (@Podcast.id Z) ps))
              added.
Proof.
  revert db. induction ps as [|p ps IH]; intros db Hwf Hps.
  - exists (fun x => x), []. simpl. rewrite map_id, app_nil_r.
    split; [reflexivity|]. split; [|constructor].
    intros x _. apply sameRecord_refl.
  - assert (Hp : List.In p (Dexie.rows (Storage.podcasts db)))
      by (apply Hps; now left).
    destruct (refreshed_store_shape podcastIndexOrgClient Date_parse db p
                Hwf Hp) as (g1 & N1 & Hstep & Hid1 & Hsame1 & HN1).
    pose proof (refreshed_store_wf podcastIndexOrgClient Date_parse db p
                  Hwf Hp) as Hwf1.
    pose proof (refreshed_store_podcasts podcastIndexOrgClient Date_parse
                  db p) as Hpod1.
    destruct (IH (step db p) Hwf1) as (g' & added' & Hrows & Hsame' & Hadded').
    { intros q Hq. rewrite Hpod1. apply Hps. now right. }
    assert (Hrows1 : Dexie.rows (Storage.episodes (step db p))
                     = map g1 (Dexie.rows (Storage.episodes db))
                       ++ numbered Episode.withId
                            (Dexie.keyGenerator (Storage.episodes db)) N1)
      by now rewrite Hstep.
    assert (Hkg1 : Dexie.keyGenerator (Storage.episodes (step db p))
                   = Dexie.keyGenerator (Storage.episodes db)
                     + Z.of_nat (List.length N1))
      by now rewrite Hstep.
    exists (fun x => g' (g1 x)),
           (map g' (numbered Episode.withId
                      (Dexie.keyGenerator (Storage.episodes db)) N1)
            ++ added').
    simpl fold_left. split; [|split].
    + rewrite Hrows, Hrows1, map_app, map_map. now rewrite app_assoc.
    + intros x Hx. destruct (Hsame1 x Hx) as [Hs _].
      eapply sameRecord_trans; [exact Hs|]. apply Hsame'.
      rewrite Hrows1. apply in_or_app. left. now apply in_map.
    + apply Forall_app. split.
      * apply Forall_forall. intros r Hr. apply in_map_iff in Hr.
        destruct Hr as [n [<- Hn]].
        assert (Hs : sameRecord n (g' n)).
        { apply Hsame'. rewrite Hrows1. apply in_or_app. now right. }
        destruct Hs as (Eid & Epid & _). rewrite <- Eid, <- Epid.
        destruct (@numbered_keys _ _ (@Episode.id Z)
                    (@Episode.withId (option Z) Z) (fun _ _ => eq_refl)
                    (Dexie.keyGenerator (Storage.episodes db)) N1)
          as [Hkeys _].
        rewrite Forall_forall in Hkeys. specialize (Hkeys n Hn).
        split; [lia|]. left.
        assert (Hmine : Forall (fun r : Episode.t Z =>
                                  Episode.podcastId r = Podcast.id p)
                               (numbered Episode.withId
                                  (Dexie.keyGenerator (Storage.episodes db))
                                  N1)).
        { apply numbered_podcastId. eapply Forall_impl; [|exact HN1].
          simpl. tauto. }
        rewrite Forall_forall in Hmine. symmetry. now apply Hmine.
      * eapply Forall_impl; [|exact Hadded']. simpl. intros r [H1 H2].
        split; [lia|now right].
Qed.

(** A stored episode that a directory list with distinct ids leaves as
    it is carries the data of the directory episode of its id. *)
Lemma refreshed_single {I : Type}
      (eps : list PodcastindexOrgClient.Episode.t)
      (e : PodcastindexOrgClient.Episode.t) (x : Episode.t I) :
  NoDup (map PodcastindexOrgClient.Episode.id eps) ->
  List.In e eps ->
  Episode.podcastIndexOrgId x = PodcastindexOrgClient.Episode.id e ->
  refreshed Date_parse eps x
  = Controller.overlay
      x (Controller.mapPodcastIndexOrgEpisodeToStorage Date_parse e).
Proof.
  revert x. induction eps as [|a eps IH]; intros x Hnd Hin Hx;
    [contradiction|].
  simpl in Hnd. inversion Hnd as [|? ? Hnotin Hnd']; subst.
  unfold refreshed. simpl. fold (refreshed Date_parse eps (overlaid Date_parse x a)).
  destruct Hin as [->|Hin].
  - unfold overlaid. rewrite Hx, Z.eqb_refl.
    apply refreshed_no_match. intros e' He'. simpl. intros E.
    apply Hnotin. rewrite <- E. now apply in_map.
  - rewrite overlaid_other.
    + now apply IH.
    + rewrite Hx. intros E. apply Hnotin. rewrite <- E. now apply in_map.
Qed.

End RefreshKeeps.

(** X17: [updatePodcasts] removes nothing and keeps the user's data: once
    its writes have settled, every episode that was stored is still
    stored, in its place and under its id, for the same podcast and with
    the same categories, duration, position, [lastTimeListened] and
    [finished]; the episodes that were added have new ids and belong to
    stored podcasts; the podcasts themselves are not written. *)
Theorem updatePodcasts_keeps_what_is_stored
        (client : PodcastindexOrgClient.t) (Date_parse : string -> Date)
        (w : Async.World Storage.Database) :
  let db := Async.settle w in
  wfDatabase db ->
  let updating :=
    Controller.updatePodcasts Storage.Implementation.handler client
                              Date_parse w in
  let db' := Async.settle (snd updating) in
  fst updating = Fulfilled tt
  /\ Storage.podcasts db' = Storage.podcasts db
  /\ exists g added,
      Dexie.rows (Storage.episodes db')
      = map g (Dexie.rows (Storage.episodes db)) ++ added
      /\ (forall x, List.In x (Dexie.rows (Storage.episodes db)) ->
                    sameRecord x (g x))
      /\ Forall (fun r => Dexie.keyGenerator (Storage.episodes db)
                          <= Episode.id r
                          /\ List.In (Episode.podcastId r)
                                     (map (@Podcast.id Z)
                                          (Dexie.rows (Storage.podcasts db))))
                added.
Proof.
  intros db Hwf updating db'.
  destruct (updatePodcasts_settles client Date_parse w) as [Hful Hset].
  fold updating in Hful, Hset. fold db' db in Hset.
  split; [exact Hful|]. rewrite Hset. split.
  - apply refreshAll_wf; auto.
  - apply refreshAll_shape; auto.
Qed.

Lemma updatePodcasts_keeps_what_is_stored_witness :
  let w := Sample.added Sample.threeEpisodes in
  let updating :=
    Controller.updatePodcasts Storage.Implementation.handler
      (Sample.directory Sample.laterEpisodes) Sample.Date_parse w in
  Storage.podcasts (Async.settle (snd updating))
  = Storage.podcasts (Async.settle w).
Proof.
  intros w updating.
  destruct (updatePodcasts_keeps_what_is_stored
              (Sample.directory Sample.laterEpisodes) Sample.Date_parse w
              wfDatabase_added_threeEpisodes) as (_ & H & _).
  exact H.
Defined.

(** X18: [updatePodcasts] keeps the invariants of the store: it stays
    well formed; if no two episodes of a podcast shared a directory id,
    none do afterwards, even when the directory lists an id twice; and
    if every episode belonged to a stored podcast, every episode still
    does. *)
Theorem updatePodcasts_keeps_the_invariants
        (client : PodcastindexOrgClient.t) (Date_parse : string -> Date)
        (w : Async.World Storage.Database) :
  let db := Async.settle w in
  wfDatabase db ->
  let db' :=
    Async.settle
      (snd (Controller.updatePodcasts Storage.Implementation.handler client
                                      Date_parse w)) in
  wfDatabase db'
  /\ (distinctDirectoryIds db -> distinctDirectoryIds db')
  /\ (referential db -> referential db').
Proof.
  intros db Hwf db'.
  destruct (updatePodcasts_settles client Date_parse w) as [_ Hset].
  fold db' db in Hset. rewrite Hset.
  assert (Hps : forall p, List.In p (Dexie.rows (Storage.podcasts db)) ->
                          List.In p (Dexie.rows (Storage.podcasts db)))
    by auto.
  destruct (refreshAll_wf client Date_parse _ db Hwf Hps) as [Hwf' Hpod].
  split; [exact Hwf'|]. split.
  - intros Hd. now apply refreshAll_distinctDirectoryIds.
  - intros Href.
    destruct (refreshAll_shape client Date_parse _ db Hwf Hps)
      as (g & added & Hrows & Hsame & Hadded).
    unfold referential. rewrite Hrows, Hpod. apply Forall_app. split.
    + apply Forall_forall. intros r Hr. apply in_map_iff in Hr.
      destruct Hr as [x [<- Hx]]. destruct (Hsame x Hx) as (_ & <- & _).
      unfold referential in Href. rewrite Forall_forall in Href.
      now apply Href.
    + eapply Forall_impl; [|exact Hadded]. simpl. tauto.
Qed.

Lemma updatePodcasts_keeps_the_invariants_witness :
  let w := Sample.added Sample.twins in
  let db' :=
    Async.settle
      (snd (Controller.updatePodcasts Storage.Implementation.handler
              (Sample.directory Sample.revised) Sample.Date_parse w)) in
  wfDatabase db'.
Proof.
  intros w db'.
  apply (updatePodcasts_keeps_the_invariants
           (Sample.directory Sample.revised) Sample.Date_parse w).
  vm_compute. repeat split; repeat constructor; simpl; try lia;
    intuition discriminate.
Defined.

(** X19: after [updatePodcasts], in a well-formed store where no two
    episodes of a podcast shared a directory id, every episode that the
    directory lists for a stored podcast (in a list without repeated ids)
    is stored for that podcast, exactly once, with the data of the
    directory episode. *)
Theorem updatePodcasts_stores_directory_episodes
        (client : PodcastindexOrgClient.t) (Date_parse : string -> Date)
        (w : Async.World Storage.Database) (p : Podcast.t Z)
        (episodes : list PodcastindexOrgClient.Episode.t)
        (e : PodcastindexOrgClient.Episode.t) :
  let db := Async.settle w in
  wfDatabase db -> distinctDirectoryIds db ->
  List.In p (Dexie.rows (Storage.podcasts db)) ->
  PodcastindexOrgClient.getEpisodes client (Podcast.feedUrl p)
  = Fulfilled episodes ->
  NoDup (map PodcastindexOrgClient.Episode.id episodes) ->
  List.In e episodes ->
  let db' :=
    Async.settle
      (snd (Controller.updatePodcasts Storage.Implementation.handler client
                                      Date_parse w)) in
  exists x,
    List.In x (episodesOf (Podcast.id p) db')
    /\ carries Date_parse e x
    /\ forall y, List.In y (episodesOf (Podcast.id p) db') ->
                 Episode.podcastIndexOrgId y
                 = PodcastindexOrgClient.Episode.id e ->
                 y = x.
Proof.
  intros db Hwf Hd Hp Hfetch Hnd He db'.
  destruct (updatePodcasts_settles client Date_parse w) as [_ Hset].
  fold db' db in Hset. rewrite Hset.
  assert (Hps : forall q, List.In q (Dexie.rows (Storage.podcasts db)) ->
                          List.In q (Dexie.rows (Storage.podcasts db)))
    by auto.
  assert (Hup : upToDate client Date_parse
                  (fold_left (refreshed_store client Date_parse)
                             (Dexie.rows (Storage.podcasts db)) db) p).
  { apply (refreshAll_upToDate client Date_parse _ db (fun _ => False));
      auto.
    - destruct Hwf as ([Hasc _] & _).
      now apply (keysAscending_NoDup (@Podcast.id Z)).
    - contradiction. }
  destruct (Hup episodes Hfetch) as [Hsame Hcov].
  specialize (Hcov e He). apply in_map_iff in Hcov.
  destruct Hcov as [x [Ex Hx]]. exists x. split; [exact Hx|]. split.
  - rewrite <- (Hsame x Hx).
    rewrite (refreshed_single Date_parse episodes e x Hnd He Ex).
    apply overlay_carries.
  - intros y Hy Ey.
    pose proof (refreshAll_distinctDirectoryIds client Date_parse _ db
                  Hwf Hps Hd (Podcast.id p)) as Hnd'.
    eapply NoDup_map_same; [exact Hnd'|exact Hy|exact Hx|congruence].
Qed.

Lemma distinctDirectoryIds_added_threeEpisodes :
  distinctDirectoryIds (Async.settle (Sample.added Sample.threeEpisodes)).
Proof.
  intros q. unfold episodesOf.
  let rows :=
    eval vm_compute in
      (Dexie.rows (Storage.episodes
                     (Async.settle (Sample.added Sample.threeEpisodes)))) in
  change (Dexie.rows (Storage.episodes
                        (Async.settle (Sample.added Sample.threeEpisodes))))
    with rows.
  cbn -[Z.eqb]. destruct (1 =? q); simpl; repeat constructor; simpl;
    intuition discriminate.
Qed.

Lemma updatePodcasts_stores_directory_episodes_witness :
  let w := Sample.added Sample.threeEpisodes in
  let db' :=
    Async.settle
      (snd (Controller.updatePodcasts Storage.Implementation.handler
              (Sample.directory Sample.laterEpisodes) Sample.Date_parse w)) in
  exists x,
    List.In x (episodesOf 1 db')
    /\ carries Sample.Date_parse Sample.four x.
Proof.
  intros w db'.
  destruct (updatePodcasts_stores_directory_episodes
              (Sample.directory Sample.laterEpisodes) Sample.Date_parse w
              Sample.storedPodcast Sample.laterEpisodes Sample.four
              wfDatabase_added_threeEpisodes
              distinctDirectoryIds_added_threeEpisodes
              (or_introl eq_refl) eq_refl)
    as (x & H1 & H2 & _).
  - simpl. repeat constructor; simpl; intuition lia.
  - simpl. tauto.
  - exists x. split; [exact H1|exact H2].
Defined.

(** X20: [deleteDatabase] starts the store over: whatever it held, every
    read then resolves to nothing, and a podcast can be added again,
    also for a feed URL that was stored before; it gets the id 1. *)
Theorem deleteDatabase_starts_over
        (client : PodcastindexOrgClient.t) (Date_parse : string -> Date)
        (now : Z) (podcast : Controller.PodcastToAdd.t)
        (db : Storage.Database)
        (directoryPodcast : PodcastindexOrgClient.Podcast.t)
        (episodes : list PodcastindexOrgClient.Episode.t) :
  let feedUrl := Controller.PodcastToAdd.feedUrl podcast in
  PodcastindexOrgClient.getPodcastByFeedUrl client feedUrl
  = Fulfilled directoryPodcast ->
  PodcastindexOrgClient.getEpisodes client feedUrl = Fulfilled episodes ->
  let deleting := Storage.Implementation.deleteDatabase db in
  let db0 := snd deleting in
  fst deleting = Fulfilled tt
  /\ fst (Storage.Implementation.getPodcasts db0) = Fulfilled []
  /\ (forall f, fst (Storage.Implementation.getPodcast f db0)
                = Fulfilled None)
  /\ (forall k, fst (Storage.Implementation.getPodcastById k db0)
                = Fulfilled None)
  /\ (forall k, fst (Storage.Implementation.getEpisodes k db0)
                = Fulfilled [])
  /\ (forall count asOfPubDate,
        fst (Storage.Implementation.getAllEpisodes count asOfPubDate db0)
        = Fulfilled [])
  /\ fst (Storage.Implementation.getEpisodesInProgress db0) = Fulfilled []
  /\ exists w' P,
      Controller.addPodcast Storage.Implementation.handler client Date_parse
                            now podcast (Async.quiet db0)
      = (Fulfilled tt, w')
      /\ fst (Controller.getPodcastById Storage.Implementation.handler 1 w')
         = Fulfilled (Some P)
      /\ Podcast.feedUrl P = feedUrl.
Proof.
  intros feedUrl Hrp Heps deleting db0.
  split; [reflexivity|]. split; [reflexivity|]. split; [reflexivity|].
  split; [reflexivity|]. split; [reflexivity|]. split.
  { intros count asOfPubDate. simpl. unfold Dexie.collect. simpl.
    now rewrite firstn_nil. }
  split; [reflexivity|].
  pose proof (addPodcast_podcast client Date_parse now podcast
                (Async.quiet Storage.emptyDatabase) directoryPodcast episodes
                wfDatabase_empty (fun H => H) Hrp Heps) as Hadd.
  eexists _, _. split; [exact Hadd|]. split; reflexivity.
Qed.

Lemma deleteDatabase_starts_over_witness :
  let db0 :=
    snd (Storage.Implementation.deleteDatabase
           (Async.settle (Sample.added Sample.threeEpisodes))) in
  fst (Storage.Implementation.getPodcasts db0) = Fulfilled []
  /\ exists w' P,
      Controller.addPodcast Storage.Implementation.handler
        (Sample.directory Sample.laterEpisodes) Sample.Date_parse 3000
        Sample.toAdd (Async.quiet db0)
      = (Fulfilled tt, w')
      /\ fst (Controller.getPodcastById Storage.Implementation.handler 1 w')
         = Fulfilled (Some P)
      /\ Podcast.feedUrl P = Sample.feedUrl.
Proof.
  intros db0.
  destruct (deleteDatabase_starts_over
              (Sample.directory Sample.laterEpisodes) Sample.Date_parse 3000
              Sample.toAdd (Async.settle (Sample.added Sample.threeEpisodes))
              Sample.directoryPodcast Sample.laterEpisodes eq_refl eq_refl)
    as (_ & H2 & _ & _ & _ & _ & _ & H8).
  split; [exact H2|exact H8].
Defined.

(* ================================================================== *)
(** * Adding podcasts concurrently *)

(** [addPodcastCall] run on its own is [addPodcast]. *)
Lemma addPodcastCall_run {S : Type} (h : Storage.OfflineStorageHandler S)
      (client : PodcastindexOrgClient.t) (Date_parse : string -> Date)
      (now : Z) (podcast : Controller.PodcastToAdd.t) (w : Async.World S) :
  Concurrent.run (Controller.addPodcastCall h client Date_parse now podcast)
                 (Async.settle w)
  = (fst (Controller.addPodcast h client Date_parse now podcast w),
     Async.settle (snd (Controller.addPodcast h client Date_parse now
                                              podcast w))).
Proof.
  unfold Controller.addPodcastCall, Controller.addPodcast, Async.bind,
    Async.await, Async.request. simpl.
  destruct (Storage.addPodcast h _ _) as [[podcastId|e] s1]; simpl; auto.
  destruct (PodcastindexOrgClient.getPodcastByFeedUrl client _)
    as [dp|e]; simpl; auto.
  destruct (Storage.updatePodcast h _ _) as [[[]|e] s2]; simpl; auto.
  destruct (PodcastindexOrgClient.getEpisodes client _)
    as [eps|e]; simpl; auto.
  destruct (Storage.putEpisodes h _ _) as [[[]|e] s3]; simpl; auto.
  destruct (Storage.updatePodcast h _ _) as [[[]|e] s4]; simpl; auto.
Qed.

Lemma callAt_Starting (client : PodcastindexOrgClient.t)
      (Date_parse : string -> Date) (now : Z)
      (podcast : Controller.PodcastToAdd.t) :
  Controller.addPodcastCall Storage.Implementation.handler client Date_parse
                             now podcast
  = callAt client Date_parse now podcast Starting.
Proof. reflexivity. Qed.

Lemma framed_refl (feeds : list string) (db : Storage.Database) :
  framed feeds db db.
Proof. split; auto. Qed.

Lemma framed_trans (feeds : list string) (db1 db2 db3 : Storage.Database) :
  framed feeds db1 db2 -> framed feeds db2 db3 -> framed feeds db1 db3.
Proof.
  intros [H1 H1'] [H2 H2']. split.
  - intros P HP Hf. destruct (H1 P HP Hf) as [HP2 E2].
    destruct (H2 P HP2 Hf) as [HP3 E3]. split; auto. congruence.
  - intros f Hf Hin. apply H2'; auto.
Qed.

Lemma framed_weaken (feeds feeds' : list string)
      (db db' : Storage.Database) :
  (forall f, List.In f feeds -> List.In f feeds') ->
  framed feeds db db' -> framed feeds' db db'.
Proof.
  intros Hsub [H1 H2]. split.
  - intros P HP Hf. apply H1; auto.
  - intros f Hf. apply H2. auto.
Qed.

Section AddPodcastsSteps.
Variable client : PodcastindexOrgClient.t.
Variable Date_parse : string -> Date.

Local Abbreviation handler := Storage.Implementation.handler.
Local Abbreviation feedOf := Controller.PodcastToAdd.feedUrl.

Lemma holds_framed (feeds : list string) (db db' : Storage.Database)
      (f : string) (podcastId : Z) (status : Status)
      (fetchDate : option Date) (episodes : list (Episode.t Z)) :
  framed feeds db db' -> ~ List.In f feeds ->
  holds db f podcastId status fetchDate episodes ->
  holds db' f podcastId status fetchDate episodes.
Proof.
  intros [H1 _] Hf (P & HP & Ef & Eid & Est & Efd & Eeps).
  rewrite <- Ef in Hf. destruct (H1 P HP Hf) as [HP' E].
  exists P. repeat split; auto. rewrite <- Eid, E. now rewrite Eid.
Qed.

Lemma storedAt_framed (feeds : list string) (db db' : Storage.Database)
      (now : Z) (podcast : Controller.PodcastToAdd.t) (stage : Stage) :
  framed feeds db db' -> ~ List.In (feedOf podcast) feeds ->
  storedAt client Date_parse now podcast stage db ->
  storedAt client Date_parse now podcast stage db'.
Proof.
  intros Hfr Hf. pose proof (holds_framed feeds db db' (feedOf podcast)) as Hh.
  destruct stage; simpl.
  - destruct Hfr as [_ H2]. now apply H2.
  - now apply Hh.
  - intros [H1 H2]. split; [now apply Hh|exact H2].
  - intros [H1 H2]. split; [now apply Hh|exact H2].
  - intros (H1 & H2 & H3). split; [now apply Hh|split; assumption].
  - intros [(stored & H1 & H2) H3]. split; [|exact H3].
    exists stored. split; [now apply Hh|exact H2].
  - intros [(podcastId & stored & H1 & H2) H3]. split; [|exact H3].
    exists podcastId, stored. split; [now apply Hh|exact H2].
  - intros [[podcastId H1] H2]. split; [|exact H2].
    exists podcastId. now apply Hh.
Qed.

(** The store's [addPodcast] of a new feed URL. *)
Lemma add_step (podcast : Controller.PodcastToAdd.t)
      (db : Storage.Database) :
  wfDatabase db -> referential db ->
  ~ List.In (feedOf podcast)
            (map (@Podcast.feedUrl Z) (Dexie.rows (Storage.podcasts db))) ->
  exists db',
    Storage.addPodcast handler (Controller.newPodcast podcast) db
    = (Fulfilled (Dexie.keyGenerator (Storage.podcasts db)), db')
    /\ holds db' (feedOf podcast) (Dexie.keyGenerator (Storage.podcasts db))
             new None []
    /\ wfDatabase db' /\ referential db'
    /\ framed [feedOf podcast] db db'.
Proof.
  intros Hwf Href Hfresh.
  set (podcastId := Dexie.keyGenerator (Storage.podcasts db)).
  set (P0 := Podcast.withId podcastId
               (Podcast.withId (@None Z) (Controller.newPodcast podcast))).
  pose proof (referential_below db Hwf Href) as Hbelow.
  pose proof (wfDatabase_added db P0 [] Hwf eq_refl Hfresh) as Hwf'.
  destruct Hwf as (Hwp & Hwe & Hfeed).
  eexists. split.
  { cbn [Storage.addPodcast Storage.Implementation.handler].
    unfold Storage.Implementation.addPodcast.
    rewrite add_podcast_fresh; auto. }
  unfold Storage.withPodcasts. split; [|split; [|split]].
  - exists P0. simpl. repeat split.
    + apply in_or_app. right. now left.
    + unfold episodesOf. simpl. apply filter_none.
      eapply Forall_impl; [|exact Hbelow]. simpl. intros e He.
      apply Z.eqb_neq. fold podcastId in He. lia.
  - destruct db as [ps [rs kg]]. simpl in *.
    rewrite app_nil_r, Z.add_0_r in Hwf'. exact Hwf'.
  - unfold referential in *. simpl. eapply Forall_impl; [|exact Href].
    simpl. intros e He. rewrite map_app. apply in_or_app. now left.
  - split; simpl.
    + intros P HP _. split; [apply in_or_app; now left|reflexivity].
    + intros f Hf Hin. rewrite map_app. intros H.
      apply in_app_or in H.
      destruct H as [H|[H|[]]]; [now apply Hin|apply Hf; left; exact H].
Qed.

(** The store's [updatePodcast] of a stored podcast, its feed URL left
    alone. *)
Lemma update_step (db : Storage.Database) (f : string) (podcastId : Z)
      (status : Status) (fetchDate : option Date)
      (episodes : list (Episode.t Z)) (changes : PodcastChanges.t) :
  wfDatabase db -> referential db ->
  holds db f podcastId status fetchDate episodes ->
  PodcastChanges.id changes = podcastId ->
  PodcastChanges.feedUrl changes = None ->
  exists db',
    Storage.updatePodcast handler changes db = (Fulfilled tt, db')
    /\ holds db' f podcastId
             (apply_change (PodcastChanges.status changes) status)
             (apply_change
                (PodcastChanges.podcastIndexOrgLastEpisodeFetch changes)
                fetchDate)
             episodes
    /\ wfDatabase db' /\ referential db'
    /\ framed [f] db db'.
Proof.
  intros Hwf Href (P & HP & Ef & Eid & Est & Efd & Eeps) Hid Hurl.
  rewrite <- Eid in Hid.
  pose proof (updatePodcast_stored db changes P Hwf HP Hid Hurl) as Hupd.
  destruct Hwf as (Hwp & Hwe & Hfeed).
  set (g := fun x : Podcast.t Z =>
              if Podcast.id x =? Podcast.id P
              then PodcastChanges.apply changes x else x) in *.
  assert (Hgid : forall x, Podcast.id (g x) = Podcast.id x).
  { intros x. unfold g. now destruct (Podcast.id x =? Podcast.id P). }
  assert (Hgfeed : forall x, Podcast.feedUrl (g x) = Podcast.feedUrl x).
  { intros x. unfold g. destruct (Podcast.id x =? Podcast.id P); auto.
    simpl. now rewrite Hurl. }
  assert (Hkeep : forall Q, List.In Q (Dexie.rows (Storage.podcasts db)) ->
                            Podcast.feedUrl Q <> f -> g Q = Q).
  { intros Q HQ Hne. unfold g.
    destruct (Podcast.id Q =? Podcast.id P) eqn:E; auto.
    apply Z.eqb_eq in E. exfalso. apply Hne. rewrite <- Ef. f_equal.
    destruct Hwp as [Hasc _].
    eapply keysAscending_unique; [exact Hasc|exact HQ|exact HP|exact E]. }
  eexists. split; [exact Hupd|].
  unfold Storage.withPodcasts. split; [|split; [|split]].
  - exists (PodcastChanges.apply changes P). simpl. repeat split.
    + apply in_map_iff. exists P. split; auto. unfold g.
      now rewrite Z.eqb_refl.
    + now rewrite Hurl.
    + exact Eid.
    + now rewrite Est.
    + now rewrite Efd.
    + exact Eeps.
  - split; [|split]; simpl.
    + now apply (wfTable_map (@Podcast.id Z) g (Storage.podcasts db) Hwp).
    + exact Hwe.
    + rewrite map_map. erewrite map_ext; [exact Hfeed|]. exact Hgfeed.
  - unfold referential in *. simpl. rewrite map_map.
    erewrite map_ext; [exact Href|]. exact Hgid.
  - split; simpl.
    + intros Q HQ Hne. split; [|reflexivity].
      apply in_map_iff. exists Q. split; [|exact HQ].
      apply Hkeep; [exact HQ|]. intros E. apply Hne. now left.
    + intros f' _ Hin. rewrite map_map.
      erewrite map_ext; [exact Hin|]. exact Hgfeed.
Qed.

(** The store's [putEpisodes] of the episodes of a podcast that has
    none. *)
Lemma put_step (db : Storage.Database) (f : string) (podcastId : Z)
      (status : Status) (fetchDate : option Date)
      (episodes : list PodcastindexOrgClient.Episode.t) :
  wfDatabase db -> referential db ->
  holds db f podcastId status fetchDate [] ->
  exists db' stored,
    Storage.putEpisodes
      handler
      (map (fun episode =>
              Controller.tagged
                (Controller.mapPodcastIndexOrgEpisodeToStorage
                   Date_parse episode)
                podcastId)
           episodes)
      db
    = (Fulfilled tt, db')
    /\ holds db' f podcastId status fetchDate stored
    /\ Forall2 (fun e r => carries Date_parse e r /\ unplayed r)
               episodes stored
    /\ wfDatabase db' /\ referential db'
    /\ framed [f] db db'.
Proof.
  intros Hwf Href (P & HP & Ef & Eid & Est & Efd & Eeps).
  set (N := map (fun episode =>
                   Controller.tagged
                     (Controller.mapPodcastIndexOrgEpisodeToStorage
                        Date_parse episode)
                     podcastId)
                episodes).
  destruct Hwf as (Hwp & Hwe & Hfeed).
  assert (Hmine : Forall (fun r : Episode.t Z => Episode.podcastId r = podcastId)
                         (numbered Episode.withId
                            (Dexie.keyGenerator (Storage.episodes db)) N)).
  { apply numbered_podcastId. apply Forall_forall. intros o Ho.
    apply in_map_iff in Ho. now destruct Ho as [e [<- _]]. }
  eexists. exists (numbered Episode.withId
                     (Dexie.keyGenerator (Storage.episodes db)) N).
  split.
  { cbn [Storage.putEpisodes Storage.Implementation.handler].
    unfold Storage.Implementation.putEpisodes.
    rewrite bulkPut_no_unique by reflexivity.
    rewrite (@writes_fresh _ _ (@Episode.id (option Z)) (@Episode.id Z)
               (@Episode.withId (option Z) Z) (fun _ _ => eq_refl));
      [reflexivity|exact Hwe|].
    apply Forall_forall. intros o Ho. apply in_map_iff in Ho.
    now destruct Ho as [e [<- _]]. }
  unfold Storage.withEpisodes. split; [|split; [|split; [|split]]].
  - exists P. simpl. repeat split; auto.
    unfold episodesOf in *. simpl. rewrite filter_app, Eeps. simpl.
    apply filter_all. eapply Forall_impl; [|exact Hmine]. simpl.
    intros r Hr. now apply Z.eqb_eq.
  - eapply Forall2_impl; [|apply (numbered_stored Date_parse podcastId)].
    simpl. tauto.
  - split; [|split]; simpl; auto.
    apply (@wfTable_numbered _ _ (@Episode.id Z)
             (@Episode.withId (option Z) Z) (fun _ _ => eq_refl) _
             (Storage.episodes db) Hwe).
  - unfold referential in *. simpl. apply Forall_app. split; auto.
    eapply Forall_impl; [|exact Hmine]. simpl. intros r ->.
    rewrite <- Eid. now apply in_map.
  - split; simpl; auto.
    intros Q HQ Hne. split; auto.
    unfold episodesOf. simpl. rewrite filter_app.
    rewrite (filter_none _ (numbered _ _ N)); [apply app_nil_r|].
    eapply Forall_impl; [|exact Hmine]. simpl. intros r ->.
    apply Z.eqb_neq. intros E. apply Hne. left.
    rewrite <- Ef. f_equal. destruct Hwp as [Hasc _].
    eapply keysAscending_unique; [exact Hasc|exact HP|exact HQ|].
    congruence.
Qed.

Ltac run_step :=
  cbv beta iota zeta delta
      [callAt Concurrent.call Concurrent.request Concurrent.ret
       Concurrent.step storedAt].

(** One step of a call of [addPodcast]: the call moves to its next stage,
    the store holds what that stage says, and nothing changed for the
    other feed URLs. *)
Lemma step_callAt (now : Z) (podcast : Controller.PodcastToAdd.t)
      (stage : Stage) (db : Storage.Database) :
  wfDatabase db -> referential db ->
  storedAt client Date_parse now podcast stage db ->
  exists stage' db',
    Concurrent.step (callAt client Date_parse now podcast stage) db
    = (callAt client Date_parse now podcast stage', db')
    /\ storedAt client Date_parse now podcast stage' db'
    /\ wfDatabase db' /\ referential db'
    /\ framed [feedOf podcast] db db'
    /\ (turnsLeft stage' <= Nat.pred (turnsLeft stage))%nat.
Proof.
  intros Hwf Href Hst. destruct stage as [|id|id dp|id|id eps|id| |e].
  - destruct (add_step podcast db Hwf Href Hst)
      as (db' & Hadd & Hh & Hwf' & Href' & Hfr).
    exists (Added (Dexie.keyGenerator (Storage.podcasts db))), db'.
    split; [|repeat (split; [assumption|]); simpl; lia].
    run_step; rewrite Hadd; reflexivity.
  - destruct (PodcastindexOrgClient.getPodcastByFeedUrl client
                (feedOf podcast)) as [dp|e] eqn:E.
    + exists (Found id dp), db.
      split; [run_step; now rewrite E|].
      split; [run_step; now rewrite E|].
      repeat (split; [assumption|]).
      split; [apply framed_refl|simpl; lia].
    + exists (Failed e), db.
      split; [run_step; now rewrite E|].
      split; [simpl; split; [now exists id|now left]|].
      repeat (split; [assumption|]).
      split; [apply framed_refl|simpl; lia].
  - destruct Hst as [Hh Hok].
    destruct (update_step db _ _ _ _ _ (directoryData id dp) Hwf Href Hh
                          eq_refl eq_refl)
      as (db' & Hupd & Hh' & Hwf' & Href' & Hfr).
    exists (Described id), db'.
    split; [run_step; rewrite Hupd; reflexivity|].
    split; [split; [exact Hh'|exact Hok]|].
    repeat (split; [assumption|]). simpl; lia.
  - destruct Hst as [Hh Hok].
    destruct (PodcastindexOrgClient.getEpisodes client (feedOf podcast))
      as [eps|e] eqn:E.
    + exists (Fetched id eps), db.
      split; [run_step; now rewrite E|].
      split; [simpl; auto|].
      repeat (split; [assumption|]).
      split; [apply framed_refl|simpl; lia].
    + exists (Failed e), db.
      split; [run_step; now rewrite E|].
      split; [simpl; split; [now exists id|now right]|].
      repeat (split; [assumption|]).
      split; [apply framed_refl|simpl; lia].
  - destruct Hst as (Hh & Hok & Hfetch).
    destruct (put_step db _ _ _ _ eps Hwf Href Hh)
      as (db' & stored & Hput & Hh' & Hlisted & Hwf' & Href' & Hfr).
    exists (Filled id), db'.
    split; [run_step; rewrite Hput; reflexivity|].
    split; [simpl; split; [|exact Hok]; exists stored; split;
            [exact Hh'|now exists eps]|].
    repeat (split; [assumption|]). simpl; lia.
  - destruct Hst as [(stored & Hh & Hlisted) Hok].
    destruct (update_step db _ _ _ _ _ (processedStamp id now) Hwf Href Hh
                          eq_refl eq_refl)
      as (db' & Hupd & Hh' & Hwf' & Href' & Hfr).
    exists Processed, db'.
    split; [run_step; rewrite Hupd; reflexivity|].
    split; [simpl; split; [|exact Hok]; now exists id, stored|].
    repeat (split; [assumption|]). simpl; lia.
  - exists Processed, db. split; [reflexivity|].
    repeat (split; [assumption|]).
    split; [apply framed_refl|simpl; lia].
  - exists (Failed e), db. split; [reflexivity|].
    repeat (split; [assumption|]).
    split; [apply framed_refl|simpl; lia].
Qed.

End AddPodcastsSteps.

Section ListFacts.
Context {A B : Type}.

Lemma Forall2_impl_In (R R' : A -> B -> Prop) (l1 : list A) (l2 : list B) :
  (forall a b, List.In a l1 -> R a b -> R' a b) ->
  Forall2 R l1 l2 -> Forall2 R' l1 l2.
Proof.
  intros H HF. induction HF as [|a b l1 l2 Hab HF IH]; constructor.
  - apply H; [now left|exact Hab].
  - apply IH. intros a' b' Hin. apply H. now right.
Qed.

Lemma Forall2_map_In (R : A -> B -> Prop) (f : A -> B) (l : list A) :
  (forall a, List.In a l -> R a (f a)) -> Forall2 R l (map f l).
Proof.
  induction l as [|a l IH]; simpl; intros H; constructor.
  - apply H. now left.
  - apply IH. intros a' Hin. apply H. now right.
Qed.

Lemma Forall2_nth_error (R : A -> B -> Prop) (l1 : list A) (l2 : list B)
      (i : nat) (a : A) :
  Forall2 R l1 l2 -> nth_error l1 i = Some a ->
  exists b, nth_error l2 i = Some b /\ R a b.
Proof.
  intros HF. revert i. induction HF as [|x y l1 l2 Hxy HF IH]; intros i.
  - destruct i; discriminate.
  - destruct i as [|i]; simpl.
    + intros E. injection E as <-. now exists y.
    + apply IH.
Qed.

Lemma Forall2_Forall_r (R : A -> B -> Prop) (P : B -> Prop)
      (l1 : list A) (l2 : list B) :
  Forall2 R l1 l2 -> Forall P l2 ->
  Forall2 (fun a b => R a b /\ P b) l1 l2.
Proof.
  intros HF. induction HF as [|x y l1 l2 Hxy HF IH]; intros HP;
    constructor; inversion HP; subst; auto.
Qed.

Lemma Forall2_Exists_r (R : A -> B -> Prop) (P : B -> Prop)
      (l1 : list A) (l2 : list B) :
  Forall2 R l1 l2 -> Exists P l2 ->
  exists a b, List.In a l1 /\ R a b /\ P b.
Proof.
  intros HF. induction HF as [|x y l1 l2 Hxy HF IH]; intros HE;
    inversion HE; subst.
  - exists x, y. split; [now left|auto].
  - destruct (IH H0) as (a & b & Hin & HR & HP).
    exists a, b. split; [now right|auto].
Qed.

Lemma combine_seq_fst (l : list B) (start : nat) :
  map fst (combine (seq start (List.length l)) l)
  = seq start (List.length l).
Proof.
  revert start. induction l as [|x l IH]; intros start; simpl; auto.
  now rewrite IH.
Qed.

Lemma combine_seq_snd (l : list B) (start : nat) :
  map snd (combine (seq start (List.length l)) l) = l.
Proof.
  revert start. induction l as [|x l IH]; intros start; simpl; auto.
  now rewrite IH.
Qed.

Lemma combine_seq_nth (l : list B) (start i : nat) (x : B) :
  nth_error l i = Some x ->
  nth_error (combine (seq start (List.length l)) l) i
  = Some ((start + i)%nat, x).
Proof.
  revert start i. induction l as [|y l IH]; intros start i.
  - destruct i; discriminate.
  - destruct i as [|i]; simpl.
    + intros E. injection E as <-. now rewrite Nat.add_0_r.
    + intros E. rewrite (IH (Datatypes.S start) i E). f_equal. f_equal. lia.
Qed.
End ListFacts.

(** ** Rejections in a pool *)

Section PoolFacts.
Context {S A : Type}.

Local Abbreviation rejects e :=
  (fun c : Concurrent.Proc S A => Concurrent.rejection c = Some e).
Local Abbreviation quiet :=
  (fun c : Concurrent.Proc S A => Concurrent.rejection c = None).

Lemma advance_rejections (l : list (Concurrent.Proc S A)) :
  forall (i : nat) (s : S) l' e s',
    Concurrent.advance i l s = (l', e, s') ->
    (forall e0, Exists (rejects e0) l -> Exists (rejects e0) l')
    /\ match e with
       | Some e1 => Exists (rejects e1) l'
       | None => Forall quiet l -> Forall quiet l'
       end.
Proof.
  induction l as [|p l IH]; intros i s l' e s' Hadv.
  - destruct i; simpl in Hadv; injection Hadv as <- <- <-; split; auto.
  - destruct i as [|i]; simpl in Hadv.
    + destruct (Concurrent.step p s) as [p' s1] eqn:Hstep.
      injection Hadv as <- <- <-. split.
      * intros e0 HE. inversion HE as [? ? Hp|? ? Hl]; subst.
        -- left. destruct p as [[a|e1]|effect resume]; try discriminate.
           simpl in Hstep. now injection Hstep as <- <-.
        -- now right.
      * destruct (Concurrent.rejection p) as [e1|] eqn:Hp.
        -- intros HF. inversion HF; subst. congruence.
        -- destruct (Concurrent.rejection p') as [e1|] eqn:Hp'.
           ++ now left.
           ++ intros HF. inversion HF; subst. now constructor.
    + destruct (Concurrent.advance i l s) as [[rest' e1] s1] eqn:Hrest.
      injection Hadv as <- <- <-.
      destruct (IH i s rest' e1 s1 Hrest) as [Hkeep Hnew]. split.
      * intros e0 HE. inversion HE as [? ? Hp|? ? Hl]; subst.
        -- now left.
        -- right. now apply Hkeep.
      * destruct e1 as [e1|].
        -- now right.
        -- intros HF. inversion HF; subst. constructor; auto.
Qed.

Lemma fulfilments_all (l : list (Concurrent.Proc S unit)) :
  Forall (fun c => c = Concurrent.Settled (Fulfilled tt)) l ->
  Concurrent.fulfilments l = Some (map (fun _ => tt) l).
Proof.
  induction 1 as [|c l Hc _ IH]; simpl; auto.
  now rewrite Hc, IH.
Qed.
End PoolFacts.

Lemma map_const_length {A B C : Type} (c : C) (l1 : list A) (l2 : list B) :
  List.length l1 = List.length l2 ->
  map (fun _ => c) l1 = map (fun _ => c) l2.
Proof.
  revert l2. induction l1 as [|a l1 IH]; intros [|b l2] E;
    try discriminate; simpl; auto.
  f_equal. apply IH. now injection E.
Qed.

Lemma bump_count (schedule : list nat) (turns : nat -> nat) (p : nat) :
  fold_left (fun t i => bump i t) schedule turns p
  = (turns p + count_occ Nat.eq_dec schedule p)%nat.
Proof.
  revert turns. induction schedule as [|i schedule IH]; intros turns; simpl.
  - lia.
  - rewrite IH. unfold bump.
    destruct (Nat.eq_dec i p) as [->|Hne].
    + rewrite Nat.eqb_refl. lia.
    + destruct (Nat.eqb p i) eqn:E; [apply Nat.eqb_eq in E; congruence|lia].
Qed.

Section AddPodcastsPool.
Variable client : PodcastindexOrgClient.t.
Variable Date_parse : string -> Date.
Variable now : nat -> Z.

Local Abbreviation Job := (nat * Controller.PodcastToAdd.t)%type.
Local Abbreviation feed :=
  (fun job : Job => Controller.PodcastToAdd.feedUrl (snd job)).
Local Abbreviation standing := (standing client Date_parse now).
Local Abbreviation poolOk := (poolOk client Date_parse now).

Lemma standing_framed (feeds : list string) (db db' : Storage.Database)
      (turns turns' : nat -> nat) (job : Job)
      (c : Concurrent.Proc Storage.Database unit) :
  framed feeds db db' -> ~ List.In (feed job) feeds ->
  turns' (fst job) = turns (fst job) ->
  standing turns db job c -> standing turns' db' job c.
Proof.
  intros Hfr Hf Ht (stage & Hc & Hst & Hleft).
  exists stage. split; [exact Hc|]. split.
  - eapply storedAt_framed; eauto.
  - now rewrite Ht.
Qed.

(** A turn of the call at position [i] keeps every call standing. *)
Lemma advance_standing (jobs : list Job) :
  forall (l : list (Concurrent.Proc Storage.Database unit))
         (i offset : nat) (turns : nat -> nat) (db : Storage.Database)
         l' e db',
    wfDatabase db -> referential db ->
    NoDup (map feed jobs) ->
    map fst jobs = seq offset (List.length jobs) ->
    Forall2 (standing turns db) jobs l ->
    Concurrent.advance i l db = (l', e, db') ->
    wfDatabase db' /\ referential db'
    /\ Forall2 (standing (bump (offset + i) turns) db') jobs l'
    /\ framed (map feed jobs) db db'.
Proof.
  induction jobs as [|job jobs IH];
    intros l i offset turns db l' e db' Hwf Href Hnd Hfst HF Hadv.
  - inversion HF; subst.
    destruct i; simpl in Hadv; injection Hadv as <- <- <-;
      (split; [|split; [|split]]); auto; apply framed_refl.
  - inversion HF as [|? c ? l0 Hjob HF0]; subst.
    simpl in Hnd. inversion Hnd as [|? ? Hnotin Hnd0]; subst.
    simpl in Hfst. injection Hfst as Hoff Hfst0.
    assert (Hothers : forall job', List.In job' jobs ->
                                   fst job' <> offset).
    { intros job' Hin E.
      assert (Hs : List.In (fst job')
                           (seq (Datatypes.S offset) (List.length jobs)))
        by (rewrite <- Hfst0; now apply in_map).
      apply in_seq in Hs. lia. }
    destruct i as [|i]; simpl in Hadv.
    + destruct Hjob as (stage & -> & Hst & Hleft).
      destruct (step_callAt client Date_parse (now (fst job)) (snd job)
                            stage db Hwf Href Hst)
        as (stage' & db1 & Hstep & Hst' & Hwf' & Href' & Hfr & Hless).
      rewrite Hstep in Hadv. injection Hadv as <- _ <-.
      split; [exact Hwf'|]. split; [exact Href'|]. split.
      * constructor.
        -- exists stage'. split; [reflexivity|]. split; [exact Hst'|].
           unfold bump. rewrite Hoff in *.
           rewrite Nat.add_0_r, Nat.eqb_refl. lia.
        -- eapply Forall2_impl_In; [|exact HF0].
           intros job' c' Hin Hstand.
           eapply standing_framed; [exact Hfr| | |exact Hstand].
           ++ intros [E|[]]. apply Hnotin. rewrite E.
              now apply (in_map feed).
           ++ unfold bump. rewrite Nat.add_0_r.
              destruct (Nat.eqb (fst job') offset) eqn:E; auto.
              apply Nat.eqb_eq in E. now apply Hothers in Hin.
      * eapply framed_weaken; [|exact Hfr]. intros f [<-|[]]. now left.
    + destruct (Concurrent.advance i l0 db) as [[rest' e1] s1] eqn:Hrest.
      injection Hadv as <- <- <-.
      destruct (IH l0 i (Datatypes.S offset) turns db rest' e1 s1
                   Hwf Href Hnd0 Hfst0 HF0 Hrest)
        as (Hwf' & Href' & HF' & Hfr).
      split; [exact Hwf'|]. split; [exact Href'|]. split.
      * constructor.
        -- eapply standing_framed; [exact Hfr|exact Hnotin| |exact Hjob].
           unfold bump.
           destruct (Nat.eqb (fst job) (offset + Datatypes.S i)) eqn:E; auto.
           apply Nat.eqb_eq in E. lia.
        -- replace (offset + Datatypes.S i)%nat
             with (Datatypes.S offset + i)%nat by lia.
           exact HF'.
      * eapply framed_weaken; [|exact Hfr]. intros f Hin. now right.
Qed.

Lemma turn_poolOk (jobs : list Job) (db0 : Storage.Database)
      (turns : nat -> nat) (i : nat)
      (state : Concurrent.Pool Storage.Database unit * Storage.Database) :
  NoDup (map feed jobs) ->
  map fst jobs = seq 0 (List.length jobs) ->
  poolOk jobs db0 turns state ->
  poolOk jobs db0 (bump i turns) (Concurrent.turn i state).
Proof.
  intros Hnd Hfst (Hwf & Href & HF & Hfr & Hrem).
  destruct state as [pool db]. simpl in *. unfold Concurrent.turn.
  destruct (Concurrent.advance i (Concurrent.calls pool) db)
    as [[l' e] db'] eqn:Hadv.
  destruct (advance_standing jobs _ i 0%nat turns db l' e db'
              Hwf Href Hnd Hfst HF Hadv) as (Hwf' & Href' & HF' & Hfr').
  destruct (advance_rejections _ i db l' e db' Hadv) as [Hkeep Hnew].
  split; [exact Hwf'|]. split; [exact Href'|]. split; [exact HF'|].
  split; [eapply framed_trans; eauto|].
  unfold remembers in *. simpl.
  destruct (Concurrent.earliest pool) as [e0|].
  - now apply Hkeep.
  - destruct e as [e1|]; auto.
Qed.

Lemma turns_poolOk (jobs : list Job) (db0 : Storage.Database)
      (schedule : list nat) :
  NoDup (map feed jobs) ->
  map fst jobs = seq 0 (List.length jobs) ->
  forall turns state,
    poolOk jobs db0 turns state ->
    poolOk jobs db0 (fold_left (fun t i => bump i t) schedule turns)
           (Concurrent.turns schedule state).
Proof.
  intros Hnd Hfst. unfold Concurrent.turns.
  induction schedule as [|i schedule IH]; intros turns state Hok; simpl; auto.
  apply IH. now apply turn_poolOk.
Qed.

(** A call that has no turn left has settled: it was processed, or one
    of its requests to the directory failed. *)
Lemma standing_settled (turns : nat -> nat) (db : Storage.Database)
      (job : Job) (c : Concurrent.Proc Storage.Database unit) :
  standing turns db job c -> (6 <= turns (fst job))%nat ->
  let f := feed job in
  (c = Concurrent.Settled (Fulfilled tt)
   /\ (exists podcastId stored,
          holds db f podcastId processed (Some (Some (now (fst job)))) stored
          /\ listed client Date_parse f stored)
   /\ isRejected (PodcastindexOrgClient.getPodcastByFeedUrl client f) = false)
  \/ (exists e,
         c = Concurrent.Settled (Rejected e)
         /\ (exists podcastId, holds db f podcastId new None [])
         /\ (PodcastindexOrgClient.getPodcastByFeedUrl client f = Rejected e
             \/ PodcastindexOrgClient.getEpisodes client f = Rejected e)).
Proof.
  intros (stage & -> & Hst & Hleft) Hturns f.
  destruct stage; cbn [turnsLeft] in Hleft; try lia; simpl in Hst.
  - left. destruct Hst as [Hst Hok]. split; [reflexivity|]. split; auto.
  - right. exists e. destruct Hst as [Hst Hwhy]. split; [reflexivity|].
    split; auto.
Qed.

(** A call that stands rejected failed at the directory. *)
Lemma standing_rejected (turns : nat -> nat) (db : Storage.Database)
      (job : Job) (c : Concurrent.Proc Storage.Database unit) (e : Error) :
  standing turns db job c -> Concurrent.rejection c = Some e ->
  PodcastindexOrgClient.getPodcastByFeedUrl client (feed job) = Rejected e
  \/ PodcastindexOrgClient.getEpisodes client (feed job) = Rejected e.
Proof.
  intros (stage & -> & Hst & _) Hrej.
  destruct stage; try discriminate.
  simpl in Hrej. injection Hrej as ->. apply Hst.
Qed.

End AddPodcastsPool.

Lemma Forall2_Forall_out {A B : Type} (R : A -> B -> Prop) (P : B -> Prop)
      (l1 : list A) (l2 : list B) :
  Forall2 R l1 l2 ->
  (forall a b, List.In a l1 -> R a b -> P b) ->
  Forall P l2.
Proof.
  intros HF. induction HF as [|x y l1 l2 Hxy HF IH]; intros H; constructor.
  - apply (H x); [now left|exact Hxy].
  - apply IH. intros a b Hin. apply H. now right.
Qed.

(** X21: the calls of [addPodcasts] do not disturb one another.  For
    podcasts with distinct feed URLs, none of them stored, and whatever
    the order in which the concurrent calls of [addPodcast] take their
    steps, once each call has had its six turns: every call has settled;
    a call is fulfilled exactly when the directory answered its two
    requests, and its podcast is then stored as processed, with the
    fetch date of that call and the episodes the directory lists for its
    feed URL; a call whose request failed is rejected with that error
    and leaves its podcast with status ['new'] and no episode.  The
    promise of [Promise.all] is fulfilled when every call is, and is
    otherwise rejected with the error of a failed request.  The store
    stays well formed and what it held before is untouched. *)
Theorem addPodcasts_in_any_order
        (client : PodcastindexOrgClient.t) (Date_parse : string -> Date)
        (now : nat -> Z) (podcasts : list Controller.PodcastToAdd.t)
        (schedule : list nat) (db : Storage.Database) :
  wfDatabase db -> referential db ->
  NoDup (map Controller.PodcastToAdd.feedUrl podcasts) ->
  (forall podcast,
      List.In podcast podcasts ->
      ~ List.In (Controller.PodcastToAdd.feedUrl podcast)
                (map (@Podcast.feedUrl Z)
                     (Dexie.rows (Storage.podcasts db)))) ->
  (forall i, (i < List.length podcasts)%nat ->
             (6 <= count_occ Nat.eq_dec schedule i)%nat) ->
  let result :=
    Concurrent.turns
      schedule
      (Controller.addPodcasts Storage.Implementation.handler client
                               Date_parse now podcasts,
       db) in
  let pool := fst result in
  let db' := snd result in
  (forall i podcast,
      nth_error podcasts i = Some podcast ->
      let f := Controller.PodcastToAdd.feedUrl podcast in
      (nth_error (Concurrent.calls pool) i
       = Some (Concurrent.Settled (Fulfilled tt))
       /\ (exists podcastId stored,
              holds db' f podcastId processed (Some (Some (now i))) stored
              /\ listed client Date_parse f stored)
       /\ isRejected (PodcastindexOrgClient.getPodcastByFeedUrl client f)
          = false)
      \/ (exists e,
             nth_error (Concurrent.calls pool) i
             = Some (Concurrent.Settled (Rejected e))
             /\ (exists podcastId, holds db' f podcastId new None [])
             /\ (PodcastindexOrgClient.getPodcastByFeedUrl client f
                 = Rejected e
                 \/ PodcastindexOrgClient.getEpisodes client f
                    = Rejected e)))
  /\ match Concurrent.settled pool with
     | Some (Fulfilled values) =>
         values = map (fun _ => tt) podcasts
         /\ Forall (fun c => c = Concurrent.Settled (Fulfilled tt))
                   (Concurrent.calls pool)
     | Some (Rejected e) =>
         exists podcast,
           List.In podcast podcasts
           /\ (PodcastindexOrgClient.getPodcastByFeedUrl
                 client (Controller.PodcastToAdd.feedUrl podcast)
               = Rejected e
               \/ PodcastindexOrgClient.getEpisodes
                    client (Controller.PodcastToAdd.feedUrl podcast)
                  = Rejected e)
     | None => False
     end
  /\ wfDatabase db' /\ referential db'
  /\ (forall P, List.In P (Dexie.rows (Storage.podcasts db)) ->
                List.In P (Dexie.rows (Storage.podcasts db'))
                /\ episodesOf (Podcast.id P) db' = episodesOf (Podcast.id P) db).
Proof.
  intros Hwf Href Hnd Hfresh Hfair result pool db'.
  set (jobs := combine (seq 0 (List.length podcasts)) podcasts).
  set (feed := fun job : nat * Controller.PodcastToAdd.t =>
                 Controller.PodcastToAdd.feedUrl (snd job)).
  assert (Hsnd : map snd jobs = podcasts) by apply combine_seq_snd.
  assert (Hlen : List.length jobs = List.length podcasts).
  { transitivity (List.length (map snd jobs)).
    - symmetry. apply length_map.
    - now rewrite Hsnd. }
  assert (Hfst : map fst jobs = seq 0 (List.length jobs))
    by (rewrite Hlen; apply combine_seq_fst).
  assert (Hfeeds : map feed jobs
                   = map Controller.PodcastToAdd.feedUrl podcasts)
    by (unfold feed;
        rewrite <- (map_map snd Controller.PodcastToAdd.feedUrl jobs);
        now rewrite Hsnd).
  assert (Hnd' : NoDup (map feed jobs)) by now rewrite Hfeeds.
  assert (Hmember : forall job, List.In job jobs ->
                                List.In (snd job) podcasts
                                /\ (fst job < List.length podcasts)%nat).
  { intros job Hin. split.
    - rewrite <- Hsnd. now apply in_map.
    - assert (Hs : List.In (fst job) (seq 0 (List.length jobs)))
        by (rewrite <- Hfst; now apply in_map).
      apply in_seq in Hs. lia. }
  set (turns := fold_left (fun t i => bump i t) schedule (fun _ => 0%nat)).
  assert (Hturns : forall job, List.In job jobs -> (6 <= turns (fst job))%nat).
  { intros job Hin. unfold turns. rewrite bump_count. simpl.
    apply Hfair. now apply Hmember. }
  assert (Hstart : poolOk client Date_parse now jobs db (fun _ => 0%nat)
                          (Controller.addPodcasts
                             Storage.Implementation.handler client
                             Date_parse now podcasts, db)).
  { split; [exact Hwf|]. split; [exact Href|]. split; [|split].
    - simpl. fold jobs. apply Forall2_map_In. intros job Hin.
      exists Starting. split; [reflexivity|]. split; [|simpl; lia].
      simpl. apply Hfresh. now apply Hmember.
    - apply framed_refl.
    - unfold remembers. simpl. apply Forall_forall. intros c Hc.
      apply in_map_iff in Hc. now destruct Hc as [job [<- _]]. }
  pose proof (turns_poolOk client Date_parse now jobs db schedule Hnd' Hfst
                _ _ Hstart) as (Hwf' & Href' & HF & Hfr & Hrem).
  fold result turns in Hwf', Href', HF, Hfr, Hrem.
  fold db' in Hwf', Href', HF, Hfr. fold pool in HF, Hrem.
  split; [|split; [|split; [exact Hwf'|split; [exact Href'|]]]].
  - intros i podcast Hi f.
    pose proof (combine_seq_nth podcasts 0 i podcast Hi) as Hjob.
    fold jobs in Hjob. simpl in Hjob.
    destruct (Forall2_nth_error _ _ _ i _ HF Hjob) as (c & Hc & Hstand).
    assert (Hin : List.In (i, podcast) jobs)
      by (eapply nth_error_In; exact Hjob).
    destruct (standing_settled client Date_parse now turns db'
                (i, podcast) c Hstand (Hturns _ Hin))
      as [(-> & Hheld & Hok)|(e & -> & Hheld & Hwhy)].
    + left. split; [exact Hc|]. split; [exact Hheld|exact Hok].
    + right. exists e. split; [exact Hc|]. split; [exact Hheld|exact Hwhy].
  - unfold Concurrent.settled. unfold remembers in Hrem.
    destruct (Concurrent.earliest pool) as [e|].
    + destruct (Forall2_Exists_r _ _ _ _ HF Hrem)
        as (job & c & Hin & Hstand & Hrej).
      exists (snd job). split; [now apply Hmember|].
      exact (standing_rejected client Date_parse now turns db' job c e
                               Hstand Hrej).
    + assert (Hall : Forall (fun c => c = Concurrent.Settled (Fulfilled tt))
                            (Concurrent.calls pool)).
      { apply (Forall2_Forall_out _ _ _ _
                 (Forall2_Forall_r _ _ _ _ HF Hrem)).
        intros job c Hin [Hstand Hquiet].
        destruct (standing_settled client Date_parse now turns db'
                    job c Hstand (Hturns _ Hin))
          as [(-> & _)|(e & -> & _)]; [reflexivity|discriminate]. }
      rewrite (fulfilments_all _ Hall). simpl. split; [|exact Hall].
      apply map_const_length.
      rewrite <- (Forall2_length HF). exact Hlen.
  - intros P HP. destruct Hfr as [Hkeep _]. apply Hkeep; auto.
    fold feed. rewrite Hfeeds. intros Hin. apply in_map_iff in Hin.
    destruct Hin as [podcast [E Hpod]].
    apply (Hfresh podcast Hpod). rewrite E. now apply in_map.
Qed.

Lemma addPodcasts_in_any_order_witness :
  let result :=
    Concurrent.turns
      [0; 1; 1; 0; 0; 1; 0; 1; 1; 0; 0; 1]%nat
      (Controller.addPodcasts Storage.Implementation.handler
         (Sample.directory Sample.threeEpisodes) Sample.Date_parse
         (fun i => 1000 + Z.of_nat i) [Sample.toAdd; Sample.otherFeed],
       Storage.emptyDatabase) in
  match Concurrent.settled (fst result) with
  | Some (Fulfilled values) => values = [tt; tt]
  | _ => False
  end
  /\ wfDatabase (snd result).
Proof.
  intros result.
  destruct (addPodcasts_in_any_order
              (Sample.directory Sample.threeEpisodes) Sample.Date_parse
              (fun i => 1000 + Z.of_nat i) [Sample.toAdd; Sample.otherFeed]
              [0; 1; 1; 0; 0; 1; 0; 1; 1; 0; 0; 1]%nat
              Storage.emptyDatabase wfDatabase_empty (Forall_nil _))
    as (_ & Hall & Hwf & _).
  - simpl. repeat constructor; simpl; intuition discriminate.
  - intros podcast _ H. exact H.
  - clear result. intros [|[|i]] Hi; [vm_compute; lia|vm_compute; lia|].
    cbn [List.length] in Hi. lia.
  - fold result in Hall, Hwf. split; [|exact Hwf].
    destruct (Concurrent.settled (fst result)) as [[values|e]|];
      [now destruct Hall| |exact Hall].
    destruct Hall as (podcast & _ & [H|H]); discriminate H.
Defined.
